(** * Outbound client pool (outbound/client_pool.js)

    A shallow embedding of Haraka's outbound connection pool front end:
    the connection factory [_create_socket], the per-destination pool
    table kept in [server.notes.pool], and the public entry points
    [get_client] and [release_client].  Sockets and pools are shared
    mutable objects in the source, so they live in stores of the [world]
    and every function passes the world explicitly. *)

From Stdlib Require Import ZArith List Lia Bool.
From stdpp Require Import base option list gmap strings pretty.

Open Scope string_scope.
Open Scope Z_scope.

(** ** Values crossing the module boundary *)

(** [port], [host] and [local_addr] are JavaScript values: [None] stands
    for [undefined]; the number [0] and the empty string are the other
    falsy values a caller can pass. *)
Definition js_port := option Z.
Definition js_str := option string.

Definition port_truthy (p : js_port) : bool :=
  match p with Some n => negb (Z.eqb n 0) | None => false end.

Definition str_truthy (s : js_str) : bool :=
  match s with Some x => negb (String.eqb x "") | None => false end.

(** Template-literal rendering, [`${v}`]. *)
Definition show_port (p : js_port) : string :=
  match p with Some n => pretty n | None => "undefined" end.

Definition show_str (s : js_str) : string :=
  match s with Some x => x | None => "undefined" end.

(** Property access [obj[name]] coerces the key to a string; a pool name
    of [null] reads the property called [null]. *)
Definition key_of (name : js_str) : string :=
  match name with Some x => x | None => "null" end.

(** ** Configuration ([cfg]) *)

Record config := Config {
  connect_timeout : Z;
  pool_timeout : Z;
  pool_concurrency_max : Z
}.

(** ** Events, listeners and callbacks *)

Inductive event := ev_connect | ev_error | ev_timeout | ev_end | ev_line | ev_close.

Definition event_eqb (a b : event) : bool :=
  match a, b with
  | ev_connect, ev_connect | ev_error, ev_error | ev_timeout, ev_timeout
  | ev_end, ev_end | ev_line, ev_line | ev_close, ev_close => true
  | _, _ => false
  end.

(** A callback handed to [_create_socket] is either the caller's own
    [callback] (pooling disabled) or the pool's [done] continuation, which
    remembers the pool and the acquirer it is creating the socket for. *)
Inductive callback :=
  | cb_caller (k : nat)
  | cb_pool_done (pid : nat) (k : nat).

(** The closures the module installs on a socket, one constructor per
    [socket.on]/[socket.once] call site, with what each one captures. *)
Inductive handler :=
  | on_connect (cb : callback)
  | on_connect_error (cb : callback)
  | on_connect_timeout (cb : callback) (host : js_str) (port : js_port)
  | on_destroy_line
  | on_destroy_error
  | on_destroy_end
  | on_pool_error (name : js_str)
  | on_pool_end (name : js_str)
  | on_caller (k : nat).

Record listener := Listener {
  l_event : event;
  l_once : bool;
  l_handler : handler
}.

(** ** Log records, one constructor per logging call site *)

Inductive log_entry :=
  | log_created (idx : nat) (host : js_str) (port : js_port) (ptimeout : Z)
  | log_destroying (idx : nat) (host : js_str) (port : js_port)
  | log_protocol_S (line : string)
  | log_shutdown_error (err : string)
  | log_remote_half_closed
  | log_protocol_C_QUIT
  | log_acquired (idx : nat) (name : js_str)
  | log_release_client (idx : nat) (host : js_str) (port : js_port) (local_addr : js_str)
  | log_warn_unacquired
  | log_crit_no_pool (name : js_str)
  | log_timeout_zero
  | log_pool_error (name : js_str) (err : string)
  | log_pool_fin (name : js_str).

Definition is_warn (e : log_entry) : bool :=
  match e with
  | log_warn_unacquired | log_shutdown_error _ | log_pool_error _ _ => true
  | _ => false
  end.

Definition is_crit (e : log_entry) : bool :=
  match e with log_crit_no_pool _ => true | _ => false end.

(** ** The transport *)

(** What [sock.connect] was asked to open. *)
Inductive connect_opts :=
  | connect_path (path : js_str)
  | connect_tcp (port : js_port) (host : js_str) (localAddress : js_str).

(** Calls made on the transport, in order. *)
Inductive transport_op :=
  | op_setTimeout (ms : Z)
  | op_write (data : string)
  | op_end
  | op_destroy.


Record socket := Socket {
  s_conn : connect_opts;
  s_pool_name : js_str;       (* __pool_name *)
  s_sock_idx : nat;           (* __sock_idx *)
  s_acquired : bool;          (* __acquired *)
  s_fromPool : bool;          (* __fromPool *)
  s_writable : bool;          (* writable *)
  s_listeners : list listener;
  s_ops : list transport_op
}.

Definition set_acquired (b : bool) (s : socket) : socket :=
  Socket (s_conn s) (s_pool_name s) (s_sock_idx s) b (s_fromPool s)
         (s_writable s) (s_listeners s) (s_ops s).

Definition set_fromPool (b : bool) (s : socket) : socket :=
  Socket (s_conn s) (s_pool_name s) (s_sock_idx s) (s_acquired s) b
         (s_writable s) (s_listeners s) (s_ops s).

Definition set_writable (b : bool) (s : socket) : socket :=
  Socket (s_conn s) (s_pool_name s) (s_sock_idx s) (s_acquired s) (s_fromPool s)
         b (s_listeners s) (s_ops s).

Definition set_listeners (ls : list listener) (s : socket) : socket :=
  Socket (s_conn s) (s_pool_name s) (s_sock_idx s) (s_acquired s) (s_fromPool s)
         (s_writable s) ls (s_ops s).

Definition set_ops (os : list transport_op) (s : socket) : socket :=
  Socket (s_conn s) (s_pool_name s) (s_sock_idx s) (s_acquired s) (s_fromPool s)
         (s_writable s) (s_listeners s) os.

(** [socket.removeAllListeners()] and [socket.removeAllListeners(ev)]. *)
Definition removeAllListeners (s : socket) : socket := set_listeners [] s.

Definition removeAllListenersOf (ev : event) (s : socket) : socket :=
  set_listeners (List.filter (fun l => negb (event_eqb (l_event l) ev))
                            (s_listeners s)) s.

(** [socket.on(ev, h)] and [socket.once(ev, h)] append to the listeners. *)
Definition sock_on (ev : event) (h : handler) (s : socket) : socket :=
  set_listeners (s_listeners s ++ [Listener ev false h]) s.

Definition sock_once (ev : event) (h : handler) (s : socket) : socket :=
  set_listeners (s_listeners s ++ [Listener ev true h]) s.

(** Modelled from the spec: the transport collaborator (line_socket) is
    not part of this file.  The spec gives it connect, write, half-close
    (end), full close (destroy) and a writable-state flag, and defines a
    half-close as ceasing further writes while still permitting reads: so
    [end] and [destroy] are recorded and leave the transport not
    writable, [write] and [setTimeout] are recorded only, and a transport
    just opened reports writable. *)
Definition sock_write (data : string) (s : socket) : socket :=
  set_ops (s_ops s ++ [op_write data]) s.

Definition sock_end (s : socket) : socket :=
  set_writable false (set_ops (s_ops s ++ [op_end]) s).

Definition sock_destroy (s : socket) : socket :=
  set_writable false (set_ops (s_ops s ++ [op_destroy]) s).

Definition sock_setTimeout (ms : Z) (s : socket) : socket :=
  set_ops (s_ops s ++ [op_setTimeout ms]) s.

Definition sock_connect (o : connect_opts) : socket :=
  Socket o None 0%nat false false true [] [].

(** ** Pools and the world *)

(** Modelled from the spec: the pool object built by [generic_pool.Pool]
    comes from a package that is not part of this file.  Following the
    spec's data model, a pool owns a maximum size, an idle-timeout
    duration, a FIFO queue of waiting acquirers, its idle connections and
    its busy connections.  The first five fields are what the [create]
    and [destroy] closures of [get_pool] capture. *)
Record pool := Pool {
  p_name : string;
  p_port : js_port;
  p_host : js_str;
  p_local_addr : js_str;
  p_is_unix_socket : bool;
  p_max : Z;
  p_idleTimeoutMillis : Z;
  p_waiters : list nat;
  p_idle : list nat;
  p_busy : list nat
}.

Definition set_waiters (ws : list nat) (p : pool) : pool :=
  Pool (p_name p) (p_port p) (p_host p) (p_local_addr p) (p_is_unix_socket p)
       (p_max p) (p_idleTimeoutMillis p) ws (p_idle p) (p_busy p).

Definition set_idle (l : list nat) (p : pool) : pool :=
  Pool (p_name p) (p_port p) (p_host p) (p_local_addr p) (p_is_unix_socket p)
       (p_max p) (p_idleTimeoutMillis p) (p_waiters p) l (p_busy p).

Definition set_busy (l : list nat) (p : pool) : pool :=
  Pool (p_name p) (p_port p) (p_host p) (p_local_addr p) (p_is_unix_socket p)
       (p_max p) (p_idleTimeoutMillis p) (p_waiters p) (p_idle p) l.

(** One invocation of a caller's callback: [callback(err, socket)]. *)
Record call := Call {
  c_k : nat;
  c_err : option string;
  c_sock : option nat
}.

(** The module state: [cfg], the counter [socket_idx], every socket and
    pool object allocated so far (a reference is a position in the
    store), the table [server.notes.pool] ([None] while it is undefined),
    the log, and the callback invocations made so far. *)
Record world := World {
  cfg : config;
  socket_idx : nat;
  sockets : list socket;
  pools : list pool;
  notes_pool : option (gmap string nat);
  log : list log_entry;
  calls : list call
}.

Definition set_socket_idx (n : nat) (w : world) : world :=
  World (cfg w) n (sockets w) (pools w) (notes_pool w) (log w) (calls w).

Definition set_sockets (l : list socket) (w : world) : world :=
  World (cfg w) (socket_idx w) l (pools w) (notes_pool w) (log w) (calls w).

Definition set_pools (l : list pool) (w : world) : world :=
  World (cfg w) (socket_idx w) (sockets w) l (notes_pool w) (log w) (calls w).

Definition set_notes_pool (t : option (gmap string nat)) (w : world) : world :=
  World (cfg w) (socket_idx w) (sockets w) (pools w) t (log w) (calls w).

Definition add_log (e : log_entry) (w : world) : world :=
  World (cfg w) (socket_idx w) (sockets w) (pools w) (notes_pool w)
        (log w ++ [e]) (calls w).

Definition add_call (c : call) (w : world) : world :=
  World (cfg w) (socket_idx w) (sockets w) (pools w) (notes_pool w)
        (log w) (calls w ++ [c]).

(** Mutation of the socket (pool) object behind a reference. *)
Definition upd_sock (sid : nat) (f : socket -> socket) (w : world) : world :=
  set_sockets (alter f sid (sockets w)) w.

Definition upd_pool (pid : nat) (f : pool -> pool) (w : world) : world :=
  set_pools (alter f pid (pools w)) w.

(** [server.notes.pool && server.notes.pool[name]] *)
Definition lookup_pool (name : js_str) (w : world) : option nat :=
  match notes_pool w with
  | Some t => t !! key_of name
  | None => None
  end.

(** ** The connection factory *)

(** [++socket_idx]: the counter is a JavaScript number, on which adding 1
    is exact below 2^53 and leaves 2^53 as it is. *)
Definition next_idx (n : nat) : nat :=
  if Z.of_nat n <? 9007199254740992 then S n else n.

Definition _create_socket (pool_name : js_str) (port : js_port) (host : js_str)
    (local_addr : js_str) (is_unix_socket : bool) (cb : callback) (w : world) : world :=
  let socket := sock_connect (if is_unix_socket then connect_path host
                              else connect_tcp port host local_addr) in
  let idx := next_idx (socket_idx w) in
  let socket := Socket (s_conn socket) pool_name idx (s_acquired socket)
                       (s_fromPool socket) (s_writable socket)
                       (s_listeners socket) (s_ops socket) in
  let socket := sock_setTimeout (connect_timeout (cfg w) * 1000) socket in
  let w := add_log (log_created idx host port (pool_timeout (cfg w)))
                   (set_socket_idx idx w) in
  let socket := sock_once ev_connect (on_connect cb) socket in
  let socket := sock_once ev_error (on_connect_error cb) socket in
  let socket := sock_once ev_timeout (on_connect_timeout cb host port) socket in
  set_sockets (sockets w ++ [socket]) w.

(** ** The pool's [validate] and [destroy] options (teardown) *)

Definition validate (socket : socket) : bool :=
  s_fromPool socket && s_writable socket.

(** The literal bytes of the termination command, QUIT followed by
    carriage return and line feed. *)
Definition QUIT_command : string :=
  "QUIT" ++ String (Ascii.ascii_of_nat 13) (String (Ascii.ascii_of_nat 10) EmptyString).

(** What [destroy] does to the socket object itself. *)
Definition destroy_socket (sk : socket) : socket :=
  let socket := removeAllListeners sk in
  let socket := set_fromPool false socket in
  let socket := sock_on ev_line on_destroy_line socket in
  let socket := sock_once ev_error on_destroy_error socket in
  let socket := sock_once ev_end on_destroy_end socket in
  let socket := if s_writable socket then sock_write QUIT_command socket
                else socket in
  sock_end socket.

(** [destroy] as the pool [p] calls it, with its two log lines. *)
Definition factory_destroy (p : pool) (sid : nat) (w : world) : world :=
  match sockets w !! sid with
  | None => w
  | Some socket =>
      let w := add_log (log_destroying (s_sock_idx socket) (p_host p) (p_port p)) w in
      let w := if s_writable socket then add_log log_protocol_C_QUIT w else w in
      upd_sock sid destroy_socket w
  end.

(** [create] as the pool [pid] calls it for acquirer [k]. *)
Definition factory_create (pid : nat) (p : pool) (k : nat) (w : world) : world :=
  _create_socket (Some (p_name p)) (p_port p) (p_host p) (p_local_addr p)
                 (p_is_unix_socket p) (cb_pool_done pid k) w.

(** The callback [get_client] passes to [pool.acquire], closed over the
    caller's [callback] number [k]. *)
Definition acquire_cb (k : nat) (err : option string) (sid : nat) (w : world) : world :=
  match err with
  | Some e => add_call (Call k (Some e) None) w
  | None =>
      match sockets w !! sid with
      | None => w
      | Some socket =>
          let w := upd_sock sid (set_acquired true) w in
          let w := add_log (log_acquired (s_sock_idx socket) (s_pool_name socket)) w in
          add_call (Call k None (Some sid)) w
      end
  end.

(** ** Pool operations *)

(** Modelled from the spec: [acquire], [release], [destroy] and
    [waitingClientsCount] of the pool object, and the pool's [done]
    continuation, are code of the pool package, not of this file.  They
    follow the spec's Pool component: acquire hands back an idle
    connection that passes validation, else invokes the factory if idle
    plus busy is below the maximum, else queues the caller at the tail
    of the waiter queue; release is only valid on a busy connection and
    hands it to the first queued waiter, without validating it again, or
    makes it idle; destroy runs the teardown and frees the slot; a slot
    that is free serves the waiters first come, first served. *)
Definition pool_size (p : pool) : Z :=
  Z.of_nat (length (p_idle p) + length (p_busy p)).

Definition waitingClientsCount (p : pool) : Z :=
  Z.of_nat (length (p_waiters p)).

Definition valid_in (w : world) (sid : nat) : bool :=
  match sockets w !! sid with
  | Some sk => validate sk
  | None => false
  end.

Definition pool_serve (pid : nat) (w : world) : world :=
  match pools w !! pid with
  | Some p =>
      match p_waiters p with
      | k :: ws =>
          if pool_size p <? p_max p
          then factory_create pid p k (upd_pool pid (set_waiters ws) w)
          else w
      | [] => w
      end
  | None => w
  end.

Definition pool_acquire (pid : nat) (k : nat) (w : world) : world :=
  match pools w !! pid with
  | Some p =>
      match List.find (valid_in w) (p_idle p) with
      | Some sid =>
          acquire_cb k None sid
            (upd_pool pid (fun p => set_busy (p_busy p ++ [sid])
                                     (set_idle (filter (fun x => x <> sid) (p_idle p)) p)) w)
      | None =>
          if pool_size p <? p_max p
          then factory_create pid p k w
          else upd_pool pid (fun p => set_waiters (p_waiters p ++ [k]) p) w
      end
  | None => w
  end.

Definition pool_release (pid : nat) (sid : nat) (w : world) : world :=
  match pools w !! pid with
  | Some p =>
      if bool_decide (sid ∈ p_busy p)
      then match p_waiters p with
           | k :: ws => acquire_cb k None sid (upd_pool pid (set_waiters ws) w)
           | [] =>
               upd_pool pid (fun p => set_idle (p_idle p ++ [sid])
                                        (set_busy (filter (fun x => x <> sid) (p_busy p)) p)) w
           end
      else w
  | None => w
  end.

Definition pool_destroy (pid : nat) (sid : nat) (w : world) : world :=
  match pools w !! pid with
  | Some p =>
      let w := upd_pool pid (fun p => set_busy (filter (fun x => x <> sid) (p_busy p))
                                        (set_idle (filter (fun x => x <> sid) (p_idle p)) p)) w in
      pool_serve pid (factory_destroy p sid w)
  | None => w
  end.

Definition pool_done (pid : nat) (k : nat) (err : option string) (sid : nat)
    (w : world) : world :=
  match pools w !! pid with
  | Some p =>
      match err with
      | Some e => pool_serve pid (acquire_cb k (Some e) sid w)
      | None =>
          acquire_cb k None sid
            (upd_pool pid (fun p => set_busy (p_busy p ++ [sid]) p) w)
      end
  | None => w
  end.

(** ** The pool table *)

Definition or_port (p : js_port) : js_port :=
  if port_truthy p then p else Some 25.

Definition or_host (h : js_str) : js_str :=
  if str_truthy h then h else Some "localhost".

Definition pool_key (port : js_port) (host : js_str) (local_addr : js_str)
    (ptimeout : Z) : string :=
  "outbound::" ++ show_port port ++ ":" ++ show_str host ++ ":"
    ++ show_str local_addr ++ ":" ++ pretty ptimeout.

(** [get_pool] returns a reference to the pool object and the world in
    which the table and the pool exist. *)
Definition get_pool (port : js_port) (host : js_str) (local_addr : js_str)
    (is_unix_socket : bool) (max : Z) (w : world) : nat * world :=
  let port := or_port port in
  let host := or_host host in
  let name := pool_key port host local_addr (pool_timeout (cfg w)) in
  let w := match notes_pool w with
           | None => set_notes_pool (Some ∅) w
           | Some _ => w
           end in
  let t := default ∅ (notes_pool w) in
  match t !! name with
  | Some pid => (pid, w)
  | None =>
      let p := Pool name port host local_addr is_unix_socket
                    (if Z.eqb max 0 then 10 else max)
                    (pool_timeout (cfg w) * 1000) [] [] [] in
      let pid := length (pools w) in
      (pid, set_notes_pool (Some (<[name := pid]> t)) (set_pools (pools w ++ [p]) w))
  end.

(** ** The public entry points *)

Definition too_many_waiting : string := "Too many waiting clients for pool".

Definition get_client (port : js_port) (host : js_str) (local_addr : js_str)
    (is_unix_socket : bool) (k : nat) (w : world) : world :=
  if Z.eqb (pool_concurrency_max (cfg w)) 0
  then _create_socket None port host local_addr is_unix_socket (cb_caller k) w
  else
    let '(pid, w) := get_pool port host local_addr is_unix_socket
                              (pool_concurrency_max (cfg w)) w in
    match pools w !! pid with
    | Some p =>
        if waitingClientsCount p >=? pool_concurrency_max (cfg w)
        then add_call (Call k (Some too_many_waiting) None) w
        else pool_acquire pid k w
    | None => w
    end.

(** The inner function [sockend] of [release_client]. *)
Definition sockend (name : js_str) (sid : nat) (w : world) : world :=
  let w := upd_sock sid (set_fromPool false) w in
  match lookup_pool name w with
  | Some pid => pool_destroy pid sid w
  | None => upd_sock sid (fun s => sock_destroy (removeAllListeners s)) w
  end.

Definition release_client (sid : nat) (port : js_port) (host : js_str)
    (local_addr : js_str) (error : bool) (w : world) : world :=
  match sockets w !! sid with
  | None => w
  | Some socket =>
      let w := add_log (log_release_client (s_sock_idx socket) host port local_addr) w in
      let name := s_pool_name socket in
      if negb (str_truthy name) && Z.eqb (pool_concurrency_max (cfg w)) 0
      then sockend name sid w
      else if negb (s_acquired socket)
      then add_log log_warn_unacquired w
      else
        let w := upd_sock sid (set_acquired false) w in
        match lookup_pool name w with
        | None => add_log (log_crit_no_pool name) w
        | Some pid =>
            if error then sockend name sid w
            else if Z.eqb (pool_timeout (cfg w)) 0
            then sockend name sid (add_log log_timeout_zero w)
            else
              let w := upd_sock sid (fun s =>
                         removeAllListenersOf ev_line
                           (removeAllListenersOf ev_timeout
                              (removeAllListenersOf ev_end
                                 (removeAllListenersOf ev_error
                                    (removeAllListenersOf ev_close s))))) w in
              let w := upd_sock sid (set_fromPool true) w in
              let w := upd_sock sid (sock_once ev_error (on_pool_error name)) w in
              let w := upd_sock sid (sock_once ev_end (on_pool_end name)) w in
              pool_release pid sid w
        end
  end.

(** ** Events *)

(** Calling [callback(err, socket)] for a callback given to
    [_create_socket]. *)
Definition invoke (cb : callback) (err : option string) (sid : nat) (w : world) : world :=
  match cb with
  | cb_caller k =>
      add_call (Call k err (match err with Some _ => None | None => Some sid end)) w
  | cb_pool_done pid k => pool_done pid k err sid w
  end.

Definition connection_error (err : string) : string :=
  "Outbound connection error: " ++ err.

Definition connection_timed_out (host : js_str) (port : js_port) : string :=
  "Outbound connection timed out to " ++ show_str host ++ ":" ++ show_port port.

(** The body of each installed closure; [arg] is the event's argument
    (the error of [error], the line of [line]). *)
Definition run_handler (sid : nat) (h : handler) (arg : string) (w : world) : world :=
  match h with
  | on_connect cb =>
      let w := upd_sock sid (removeAllListenersOf ev_error) w in
      let w := upd_sock sid (removeAllListenersOf ev_timeout) w in
      invoke cb None sid w
  | on_connect_error cb =>
      let w := upd_sock sid sock_end w in
      invoke cb (Some (connection_error arg)) sid w
  | on_connect_timeout cb host port =>
      let w := upd_sock sid sock_end w in
      invoke cb (Some (connection_timed_out host port)) sid w
  | on_destroy_line => add_log (log_protocol_S arg) w
  | on_destroy_error => add_log (log_shutdown_error arg) w
  | on_destroy_end =>
      upd_sock sid sock_destroy (add_log log_remote_half_closed w)
  | on_pool_error name =>
      sockend name sid (add_log (log_pool_error name arg) w)
  | on_pool_end name =>
      let w := add_log (log_pool_fin name) w in
      let w := upd_sock sid (set_writable false) w in
      sockend name sid w
  | on_caller _ => w
  end.

(** [socket.emit(ev, arg)]: the listeners registered for [ev] at that
    moment run in registration order; those registered with [once] are
    unregistered as they fire. *)
Definition fired (ev : event) (sk : socket) : list listener :=
  List.filter (fun l => event_eqb (l_event l) ev) (s_listeners sk).

Definition drop_once (ev : event) (s : socket) : socket :=
  set_listeners (List.filter (fun l => negb (event_eqb (l_event l) ev && l_once l))
                             (s_listeners s)) s.

Definition run_handlers (sid : nat) (hs : list listener) (arg : string)
    (w : world) : world :=
  foldl (fun w l => run_handler sid (l_handler l) arg w) w hs.

Definition emit (sid : nat) (ev : event) (arg : string) (w : world) : world :=
  match sockets w !! sid with
  | None => w
  | Some sk => run_handlers sid (fired ev sk) arg (upd_sock sid (drop_once ev) w)
  end.

(** ** Runs of the module *)

(** What can happen to the module from outside: a call of one of its two
    entry points, the transport emitting an event on a socket, the
    transport ceasing to be writable, and a caller registering a listener
    of its own on a socket it holds. *)
Inductive action :=
  | do_get_client (port : js_port) (host : js_str) (local_addr : js_str)
                  (is_unix_socket : bool) (k : nat)
  | do_release_client (sid : nat) (port : js_port) (host : js_str)
                      (local_addr : js_str) (error : bool)
  | do_emit (sid : nat) (ev : event) (arg : string)
  | do_unwritable (sid : nat)
  | do_listen (sid : nat) (ev : event) (k : nat).

Definition step (a : action) (w : world) : world :=
  match a with
  | do_get_client port host local_addr is_unix_socket k =>
      get_client port host local_addr is_unix_socket k w
  | do_release_client sid port host local_addr error =>
      release_client sid port host local_addr error w
  | do_emit sid ev arg => emit sid ev arg w
  | do_unwritable sid => upd_sock sid (set_writable false) w
  | do_listen sid ev k => upd_sock sid (sock_on ev (on_caller k)) w
  end.

Definition run (l : list action) (w : world) : world :=
  foldl (fun w a => step a w) w l.

(** The world at process start. *)
Definition init (c : config) : world := World c 0 [] [] None [] [].

(** * The rest of client_pool.js *)



(** ** The pool's [log] option *)

(** The regular expression [/this._availableObjects.length=/]: literal
    characters, and the dot, which stands for any character that is not
    a line terminator.  Strings are sequences of character codes below
    256, among which the line terminators are line feed and carriage
    return. *)
Inductive atom := lit (c : Ascii.ascii) | any.

Definition is_line_terminator (c : Ascii.ascii) : bool :=
  Nat.eqb (Ascii.nat_of_ascii c) 10 || Nat.eqb (Ascii.nat_of_ascii c) 13.

Definition atom_matches (a : atom) (c : Ascii.ascii) : bool :=
  match a with
  | lit x => Ascii.eqb x c
  | any => negb (is_line_terminator c)
  end.

Fixpoint match_here (pat : list atom) (s : string) : bool :=
  match pat with
  | [] => true
  | a :: pat' =>
      match s with
      | EmptyString => false
      | String c s' => atom_matches a c && match_here pat' s'
      end
  end.

(** [re.test(s)] for an unanchored pattern: a match at some position. *)
Fixpoint regex_test (pat : list atom) (s : string) : bool :=
  match_here pat s
  || match s with
     | EmptyString => false
     | String _ s' => regex_test pat s'
     end.

Definition lits (s : string) : list atom := lit <$> String.list_ascii_of_string s.

Definition availableObjects_re : list atom :=
  lits "this" ++ [any] ++ lits "_availableObjects" ++ [any] ++ lits "length=".

(** [log(str, level)]: [None] when the line is dropped, else the logger
    method called and the message it is given. *)
Definition pool_log (name : string) (str : string) (level : string)
  : option (string * string) :=
  if regex_test availableObjects_re str then None
  else
    let level := if String.eqb level "verbose" then "debug" else level in
    Some ("log" ++ level, "[outbound] [" ++ name ++ "] " ++ str).



(** ** Draining the pools *)

(** The three log lines of [drain_pools], kept as its own output. *)
Inductive drain_log :=
  | log_no_pools
  | log_draining (p : string)
  | log_pools_shut_down.

(** [Object.keys(server.notes.pool)]: property names come out in
    insertion order, and [get_pool] inserts a name when it appends the
    pool object to the store, so the names are listed in store order,
    each with the pool object it refers to. *)
Definition table_keys (w : world) : list (string * nat) :=
  match notes_pool w with
  | None => nil
  | Some t =>
      List.filter (fun e : string * nat => bool_decide (t !! e.1 = Some e.2))
                  (imap (fun pid p => (p_name p, pid)) (pools w))
  end.

(** Modelled from the spec: [destroyAllNow] of the pool package destroys
    every remaining idle connection of the pool. *)
Definition pool_destroyAllNow (pid : nat) (w : world) : world :=
  match pools w !! pid with
  | Some p => foldl (fun w sid => pool_destroy pid sid w) w (p_idle p)
  | None => w
  end.

(** The callback [drain_pools] gives to [pool.drain], closed over the
    key [p]. *)
Definition drain_done (p : string) (w : world) : world :=
  match lookup_pool (Some p) w with
  | None => w
  | Some pid =>
      let w := pool_destroyAllNow pid w in
      set_notes_pool (delete p <$> notes_pool w) w
  end.

Section Drain.

(** [pool.drain(callback)] belongs to the pool package and decides when
    the callback runs; it is a parameter here, given the pool object
    and the key its callback is closed over. *)
Variable pool_drain : nat -> string -> world -> world.

Definition drain_pools (w : world) : list drain_log * world :=
  match notes_pool w with
  | None => (cons log_no_pools nil, w)
  | Some t =>
      if bool_decide (t = ∅) then (cons log_no_pools nil, w)
      else
        let '(lg, w) :=
          foldl (fun (acc : list drain_log * world) (e : string * nat) =>
                   (app acc.1 (cons (log_draining e.1) nil),
                    pool_drain e.2 e.1 acc.2))
                (nil, w) (table_keys w) in
        (app lg (cons log_pools_shut_down nil), w)
  end.

End Drain.

(** * The logger (logger.js) *)

(** The methods [logger.logdebug], [logger.logwarn], ... that the pool
    front end calls are built here.  Strings are sequences of character
    codes below 256. *)
Module Logger.

Inductive level :=
  | DATA | PROTOCOL | DEBUG | INFO | NOTICE | WARN | ERROR | CRIT | ALERT | EMERG.

(** [logger.levels], in the order the object literal lists its keys. *)
Definition all_levels : list level :=
  cons DATA (cons PROTOCOL (cons DEBUG (cons INFO (cons NOTICE
    (cons WARN (cons ERROR (cons CRIT (cons ALERT (cons EMERG nil))))))))).

Definition level_name (l : level) : string :=
  match l with
  | DATA => "DATA" | PROTOCOL => "PROTOCOL" | DEBUG => "DEBUG" | INFO => "INFO"
  | NOTICE => "NOTICE" | WARN => "WARN" | ERROR => "ERROR" | CRIT => "CRIT"
  | ALERT => "ALERT" | EMERG => "EMERG"
  end.

Definition levels (l : level) : Z :=
  match l with
  | DATA => 9 | PROTOCOL => 8 | DEBUG => 7 | INFO => 6 | NOTICE => 5
  | WARN => 4 | ERROR => 3 | CRIT => 2 | ALERT => 1 | EMERG => 0
  end.

(** [logger.formats] *)
Inductive format := F_DEFAULT | F_LOGFMT.

Definition format_name (f : format) : string :=
  match f with F_DEFAULT => "DEFAULT" | F_LOGFMT => "LOGFMT" end.

(** What the upper-case properties of [logger] hold: the numbers
    [LOGDATA] ... [LOGEMERG] and the strings [LOGFMTDEFAULT] and
    [LOGFMTLOGFMT]; [loglevel] and [logformat] are set from them or
    from a parsed number. *)
Inductive propval :=
  | P_num (n : Z)
  | P_format (f : format).

(** [logger[key]] for a key with no lower-case letter, [None] for
    [undefined]: the two loops at the top of the file define
    [LOG<level>] and [LOGFMT<format>] and nothing else is named in
    capitals. *)
Definition logger_prop (key : string) : option propval :=
  match List.find (fun l => String.eqb key ("LOG" ++ level_name l)) all_levels with
  | Some l => Some (P_num (levels l))
  | None =>
      if String.eqb key "LOGFMTDEFAULT" then Some (P_format F_DEFAULT)
      else if String.eqb key "LOGFMTLOGFMT" then Some (P_format F_LOGFMT)
      else None
  end.

(** [!v] *)
Definition falsy (v : option propval) : bool :=
  match v with
  | None => true
  | Some (P_num n) => Z.eqb n 0
  | Some (P_format _) => false
  end.

(** [v < n] for a number [n]: the two format names convert to NaN,
    which is below nothing. *)
Definition js_lt (v : propval) (n : Z) : bool :=
  match v with
  | P_num a => Z.ltb a n
  | P_format _ => false
  end.

(** ** Items, buffering and the state of the module *)

Record item := Item { i_level : string; i_data : string }.

(** The module variable [plugins]: unset until the last lines of the
    file run; then an object whose [plugin_list] is an array of some
    length, or is not an array. *)
Inductive plugins_val :=
  | plugins_unset
  | plugins_set (plugin_list : option nat).

(** [hooked] lists the items handed to [plugins.run_hooks('log', ...)],
    in order. *)
Record state := State {
  loglevel : propval;
  logformat : propval;
  deferred_logs : list item;
  plugins : plugins_val;
  hooked : list item
}.

Definition LOGWARN : propval := P_num (levels WARN).
Definition LOGFMTDEFAULT : propval := P_format F_DEFAULT.
Definition LOGFMTLOGFMT : propval := P_format F_LOGFMT.

(** The state once the assignments before the first function have run. *)
Definition initial : state := State LOGWARN LOGFMTDEFAULT nil plugins_unset nil.

(** ** [logger.log] *)

Definition LF : Ascii.ascii := Ascii.ascii_of_nat 10.
Definition CR : Ascii.ascii := Ascii.ascii_of_nat 13.

(** [s.replace(/c/g, rep)] for a single character [c]. *)
Fixpoint replace_all (c : Ascii.ascii) (rep : string) (s : string) : string :=
  match s with
  | EmptyString => EmptyString
  | String x s' =>
      if Ascii.eqb x c then rep ++ replace_all c rep s'
      else String x (replace_all c rep s')
  end.

(** [s.replace(/\n$/, '')]: without the multiline flag the dollar only
    matches at the very end. *)
Fixpoint strip_final_lf (s : string) : string :=
  match s with
  | EmptyString => EmptyString
  | String x EmptyString => if Ascii.eqb x LF then EmptyString else s
  | String x s' => String x (strip_final_lf s')
  end.

Definition sanitize (level : string) (data : string) : string :=
  let data := if String.eqb level "PROTOCOL"
              then replace_all LF "\n" data else data in
  strip_final_lf (replace_all CR "\r" data).

(** [!plugins || (Array.isArray(plugins.plugin_list) &&
    !plugins.plugin_list.length)] *)
Definition must_buffer (p : plugins_val) : bool :=
  match p with
  | plugins_unset => true
  | plugins_set (Some n) => Nat.eqb n 0
  | plugins_set None => false
  end.

Definition log (level : string) (data : string) (st : state) : state :=
  let it := Item level (sanitize level data) in
  if must_buffer (plugins st)
  then State (loglevel st) (logformat st) (app (deferred_logs st) (cons it nil))
             (plugins st) (hooked st)
  else State (loglevel st) (logformat st) nil (plugins st)
             (app (hooked st) (app (deferred_logs st) (cons it nil))).

(** [logger.dump_logs]: whether it returns (it throws on reaching
    [plugins.run_hooks] with [plugins] unset, after the [shift] that
    took the first item off the buffer), and the state it leaves. *)
Definition dump_logs (st : state) : bool * state :=
  match deferred_logs st, plugins st with
  | nil, _ => (true, st)
  | cons _ rest, plugins_unset =>
      (false, State (loglevel st) (logformat st) rest (plugins st) (hooked st))
  | _, _ => (true, State (loglevel st) (logformat st) nil (plugins st)
                         (app (hooked st) (deferred_logs st)))
  end.

(** [logger.would_log] *)
Definition would_log (lv : Z) (st : state) : bool :=
  if js_lt (loglevel st) lv then false else true.

(** ** Reading the configuration *)

(** [s.toUpperCase()] on character codes below 128.  The codes from
    128 to 255 are left alone here; JavaScript maps each of them to a
    code above 127 or, for code 223, to SS, which occurs in no
    upper-case property name of the logger.  Either way the result
    names a property of the logger for the same strings. *)
Definition upper_char (c : Ascii.ascii) : Ascii.ascii :=
  let n := Ascii.nat_of_ascii c in
  if Nat.leb 97 n && Nat.leb n 122 then Ascii.ascii_of_nat (n - 32) else c.

Fixpoint toUpperCase (s : string) : string :=
  match s with
  | EmptyString => EmptyString
  | String c s' => String (upper_char c) (toUpperCase s')
  end.

(** [parseInt(s)], [None] for NaN: leading white space is skipped, a
    sign (code 45 or 43) is read, [0x] or [0X] selects base 16, and the longest run of
    digits of the base is the result.  The integer is kept exact where
    JavaScript rounds to a double; the module only tests the result
    against zero and compares it with the levels 0 to 9. *)
Definition is_white_space (c : Ascii.ascii) : bool :=
  let n := Ascii.nat_of_ascii c in
  (Nat.leb 9 n && Nat.leb n 13) || Nat.eqb n 32 || Nat.eqb n 160.

Fixpoint skip_white_space (s : string) : string :=
  match s with
  | String c s' => if is_white_space c then skip_white_space s' else s
  | EmptyString => EmptyString
  end.

Definition digit_value (radix : Z) (c : Ascii.ascii) : option Z :=
  let n := Z.of_nat (Ascii.nat_of_ascii c) in
  let v := if (48 <=? n) && (n <=? 57) then Some (n - 48)
           else if (97 <=? n) && (n <=? 122) then Some (n - 87)
           else if (65 <=? n) && (n <=? 90) then Some (n - 55)
           else None in
  match v with
  | Some d => if d <? radix then Some d else None
  | None => None
  end.

Fixpoint read_digits (radix : Z) (s : string) (acc : option Z) : option Z :=
  match s with
  | EmptyString => acc
  | String c s' =>
      match digit_value radix c with
      | Some d => read_digits radix s' (Some (default 0 acc * radix + d))
      | None => acc
      end
  end.

Definition starts_with (code : nat) (s : string) : option string :=
  match s with
  | String c s' => if Nat.eqb (Ascii.nat_of_ascii c) code then Some s' else None
  | EmptyString => None
  end.

Definition parseInt (s : string) : option Z :=
  let s := skip_white_space s in
  let '(sign, s) :=
    match starts_with 45 s, starts_with 43 s with
    | Some s', _ => (-1, s')
    | None, Some s' => (1, s')
    | None, None => (1, s)
    end in
  let '(radix, s) :=
    match starts_with 48 s with
    | Some s0 =>
        match starts_with 120 s0, starts_with 88 s0 with
        | Some s', _ => (16, s')
        | None, Some s' => (16, s')
        | None, None => (10, s)
        end
    | None => (10, s)
    end in
  match read_digits radix s None with
  | Some n => Some (sign * n)
  | None => None
  end.

Definition set_loglevel (v : propval) (st : state) : state :=
  State v (logformat st) (deferred_logs st) (plugins st) (hooked st).

Definition set_logformat (v : propval) (st : state) : state :=
  State (loglevel st) v (deferred_logs st) (plugins st) (hooked st).

(** [logger._init_loglevel], given what [config.get('loglevel',
    'value', ...)] returned: [None] for a missing value, else the
    string. *)
Definition _init_loglevel (_loglevel : option string) (st : state) : state :=
  match _loglevel with
  | None => st
  | Some v =>
      if String.eqb v "" then st
      else
        let loglevel_num := parseInt v in
        let '(lv, st) :=
          match loglevel_num with
          | Some n =>
              if Z.eqb n 0
              then (logger_prop (toUpperCase v),
                    log "INFO" ("loglevel: " ++ toUpperCase v) st)
              else (Some (P_num n), st)
          | None =>
              (logger_prop (toUpperCase v),
               log "INFO" ("loglevel: " ++ toUpperCase v) st)
          end in
        if falsy lv
        then set_loglevel LOGWARN
               (log "WARN" ("invalid loglevel: " ++ v ++ " defaulting to LOGWARN") st)
        else set_loglevel (default LOGWARN lv) st
  end.

(** [logger._init_logformat], likewise; a missing value prints as
    [undefined] in the warning. *)
Definition _init_logformat (_logformat : option string) (st : state) : state :=
  let '(fv, st, shown) :=
    match _logformat with
    | None => (None, st, "undefined")
    | Some v =>
        if String.eqb v "" then (None, st, v)
        else (logger_prop (toUpperCase v),
              log "INFO" ("logformat: " ++ toUpperCase v) st, v)
    end in
  if falsy fv
  then set_logformat LOGFMTDEFAULT
         (log "WARN" ("invalid logformat: " ++ shown ++ " defaulting to LOGFMTDEFAULT") st)
  else set_logformat (default LOGFMTDEFAULT fv) st.

(** ** The log methods *)

(** An argument of a log method, by the branch of the loop in
    [log_if_level] that takes it, with what that branch reads: a value
    that is not an object (its conversion to a string), [null], a
    [Connection] (its [uuid] as printed, and [tran_count]), a [Plugin]
    (its [name] as printed), another object with a truthy [name], an
    [HMailItem] without one (the [uuid] of its [todo] when it has one),
    a plain object without one (its properties, values as printed), and
    any other object (what [util.inspect] makes of it). *)
Inductive log_arg :=
  | arg_value (text : string)
  | arg_null
  | arg_connection (uuid : string) (tran_count : Z)
  | arg_plugin (name : string)
  | arg_named (name : string)
  | arg_hmail (todo_uuid : option string)
  | arg_plain (fields : list (string * string))
  | arg_other (inspected : string).

(** [logobj]: its properties in insertion order. *)
Definition object := list (string * string).

Definition obj_get (k : string) (o : object) : string :=
  match List.find (fun e : string * string => String.eqb e.1 k) o with
  | Some e => e.2
  | None => "undefined"
  end.

Fixpoint obj_set (k : string) (v : string) (o : object) : object :=
  match o with
  | nil => cons (k, v) nil
  | cons e o' => if String.eqb e.1 k then cons (k, v) o' else cons e (obj_set k v o')
  end.

(** [Object.assign(o, data)] *)
Definition obj_assign (o : object) (data : list (string * string)) : object :=
  foldl (fun o e => obj_set e.1 e.2 o) o data.

Fixpoint ends_with_space (s : string) : bool :=
  match s with
  | EmptyString => false
  | String c EmptyString => Nat.eqb (Ascii.nat_of_ascii c) 32
  | String _ s' => ends_with_space s'
  end.

Section Methods.

(** [logfmt.stringify] belongs to the logfmt package. *)
Variable logfmt_stringify : list (string * string) -> string.

(** One turn of the loop over [arguments]. *)
Definition add_arg (st : state) (logobj : object) (data : log_arg) : object :=
  match data with
  | arg_value text =>
      obj_set "message" (obj_get "message" logobj ++ text) logobj
  | arg_null => logobj
  | arg_connection uuid tran_count =>
      let logobj := obj_set "connection_uuid" uuid logobj in
      if Z.ltb 0 tran_count
      then obj_set "connection_uuid"
             (obj_get "connection_uuid" logobj ++ "." ++ pretty tran_count) logobj
      else logobj
  | arg_plugin name => obj_set "source" name logobj
  | arg_named name => obj_set "source" name logobj
  | arg_hmail todo_uuid =>
      let logobj := obj_set "source" "outbound" logobj in
      match todo_uuid with
      | Some u => obj_set "connection_uuid" u logobj
      | None => logobj
      end
  | arg_plain fields =>
      match logformat st with
      | P_format F_LOGFMT => obj_assign logobj fields
      | _ =>
          let logobj :=
            if ends_with_space (obj_get "message" logobj) then logobj
            else obj_set "message" (obj_get "message" logobj ++ " ") logobj in
          obj_set "message" (obj_get "message" logobj ++ logfmt_stringify fields)
                  logobj
      end
  | arg_other inspected =>
      obj_set "message" (obj_get "message" logobj ++ inspected) logobj
  end.

(** [plugin || 'core'] *)
Definition source_of (plugin : option string) : string :=
  match plugin with
  | Some p => if String.eqb p "" then "core" else p
  | None => "core"
  end.

(** The function [log_if_level(level, 'LOG' + level, plugin)]
    returns, applied to [args]: what it returns ([None] for
    [undefined]) and the state it leaves. *)
Definition log_if_level (lv : level) (plugin : option string)
    (args : list log_arg) (st : state) : option bool * state :=
  if js_lt (loglevel st) (levels lv) then (None, st)
  else
    let logobj : object :=
      cons ("level", level_name lv)
        (cons ("connection_uuid", "-")
           (cons ("source", source_of plugin)
              (cons ("message", "") nil))) in
    let logobj := foldl (add_arg st) logobj args in
    match logformat st with
    | P_format F_LOGFMT =>
        (None, log (level_name lv) (logfmt_stringify logobj) st)
    | _ =>
        (Some true,
         log (level_name lv)
             ("[" ++ obj_get "level" logobj ++ "] ["
              ++ obj_get "connection_uuid" logobj ++ "] ["
              ++ obj_get "source" logobj ++ "] "
              ++ obj_get "message" logobj) st)
    end.

End Methods.

(** ** Installing the methods on an object *)

(** A property of the object the methods are added to: a falsy value,
    a log method made by [log_if_level], or anything else. *)
Inductive prop :=
  | prop_falsy
  | prop_log (lv : level) (plugin : option string)
  | prop_other (id : nat).

Definition truthy (p : option prop) : bool :=
  match p with
  | None | Some prop_falsy => false
  | Some _ => true
  end.

(** [s.toLowerCase()], as [toUpperCase] above. *)
Definition lower_char (c : Ascii.ascii) : Ascii.ascii :=
  let n := Ascii.nat_of_ascii c in
  if Nat.leb 65 n && Nat.leb n 90 then Ascii.ascii_of_nat (n + 32) else c.

Fixpoint toLowerCase (s : string) : string :=
  match s with
  | EmptyString => EmptyString
  | String c s' => String (lower_char c) (toLowerCase s')
  end.

(** ['log' + level.toLowerCase()] *)
Definition method_name (l : level) : string :=
  "log" ++ toLowerCase (level_name l).

(** [logger.add_log_methods(object, plugin)]; [None] is an [object]
    that is falsy or not of type object. *)
Definition add_log_methods (object : option (gmap string prop))
    (plugin : option string) : option (gmap string prop) :=
  match object with
  | None => None
  | Some o =>
      Some (foldl (fun o lv =>
                     if truthy (o !! method_name lv) then o
                     else <[method_name lv := prop_log lv plugin]> o)
                  o all_levels)
  end.

End Logger.

(** * Vocabulary of the statements *)

Open Scope list_scope.

(** The socket object [_create_socket] leaves in the store. *)
Definition created_socket (w : world) (pool_name : js_str) (port : js_port)
    (host : js_str) (local_addr : js_str) (is_unix_socket : bool)
    (cb : callback) : socket :=
  Socket (if is_unix_socket then connect_path host
          else connect_tcp port host local_addr)
         pool_name (next_idx (socket_idx w)) false false true
         [Listener ev_connect true (on_connect cb);
          Listener ev_error true (on_connect_error cb);
          Listener ev_timeout true (on_connect_timeout cb host port)]
         [op_setTimeout (connect_timeout (cfg w) * 1000)].

(** A connect attempt whose timeout elapses and whose transport then
    reports the failed connect. *)
Definition two_signals : list action :=
  [do_get_client (Some 25) (Some "mx.example.com") None false 7%nat;
   do_emit 0%nat ev_timeout "";
   do_emit 0%nat ev_error "ECONNREFUSED"].

(** A busy socket of a pool, and a world in which that pool has been
    removed from [server.notes.pool] while the socket was out. *)
Definition busy_socket (ptimeout : Z) : socket :=
  Socket (connect_tcp (Some 25) (Some "localhost") None)
         (Some (pool_key (Some 25) (Some "localhost") None ptimeout))
         1 true false true [] [op_setTimeout 30000].

Definition orphan_world (ptimeout : Z) : world :=
  World (Config 30 ptimeout 10) 1 [busy_socket ptimeout]
        [Pool (pool_key (Some 25) (Some "localhost") None ptimeout) (Some 25) (Some "localhost")
              None false 10 (ptimeout * 1000) [] [] [0%nat]]
        (Some ∅) [] [].

(** Only [get_pool] writes [server.notes.pool], and nothing writes [cfg]. *)
Definition static (w : world) : config * option (gmap string nat) :=
  (cfg w, notes_pool w).

(** Every key of the pool table was made by [get_pool]. *)
Definition table_ok (w : world) : Prop :=
  forall t key pid, notes_pool w = Some t -> t !! key = Some pid ->
    exists rest, key = ("outbound::" ++ rest)%string.

(** One connection out, one waiter queued, on a pool of size one. *)
Definition saturated_world : world :=
  run [do_get_client (Some 25) (Some "mx.example.com") None false 1%nat;
       do_emit 0%nat ev_connect "";
       do_get_client (Some 25) (Some "mx.example.com") None false 2%nat]
      (init (Config 30 30 1)).

(** The pool object [get_pool] builds on first use of a key. *)
Definition new_pool (port : js_port) (host : js_str) (local_addr : js_str)
    (is_unix_socket : bool) (max : Z) (w : world) : pool :=
  Pool (pool_key (or_port port) (or_host host) local_addr (pool_timeout (cfg w)))
       (or_port port) (or_host host) local_addr is_unix_socket
       (if Z.eqb max 0 then 10 else max) (pool_timeout (cfg w) * 1000) [] [] [].

(** The listener clean-up of a normal release. *)
Definition strip_listeners (s : socket) : socket :=
  removeAllListenersOf ev_line
    (removeAllListenersOf ev_timeout
       (removeAllListenersOf ev_end
          (removeAllListenersOf ev_error
             (removeAllListenersOf ev_close s)))).

(** The three listeners teardown leaves on a socket. *)
Definition teardown_listeners : list listener :=
  [Listener ev_line false on_destroy_line;
   Listener ev_error true on_destroy_error;
   Listener ev_end true on_destroy_end].

(** Pooling applies to a release unless the socket has no pool name and
    pooling is disabled. *)
Definition pooled_release (sk : socket) (w : world) : Prop :=
  negb (str_truthy (s_pool_name sk)) && Z.eqb (pool_concurrency_max (cfg w)) 0 = false.

(** A socket back in the idle connections of its pool. *)
Definition released_world : world :=
  run [do_get_client (Some 25) (Some "mx.example.com") None false 1%nat;
       do_emit 0%nat ev_connect "";
       do_release_client 0%nat (Some 25) (Some "mx.example.com") None false]
      (init (Config 30 30 1)).

Definition released_socket : socket :=
  Socket (connect_tcp (Some 25) (Some "mx.example.com") None)
         (Some "outbound::25:mx.example.com:undefined:30"%string) 1 false true true
         [Listener ev_error true
            (on_pool_error (Some "outbound::25:mx.example.com:undefined:30"%string));
          Listener ev_end true
            (on_pool_end (Some "outbound::25:mx.example.com:undefined:30"%string))]
         [op_setTimeout 30000].

(** A connected socket obtained with pooling disabled: it has no pool
    name and is never marked acquired. *)
Definition bypass_world : world :=
  run [do_get_client (Some 25) (Some "mx.example.com") None false 3%nat;
       do_emit 0%nat ev_connect ""] (init (Config 30 30 0)).

(** One socket out and a second caller queued, on a pool of size one;
    the first holder then releases the socket twice. *)
Definition handoff_world : world :=
  run [do_get_client (Some 25) (Some "mx.example.com") None false 1%nat;
       do_emit 0%nat ev_connect "";
       do_get_client (Some 25) (Some "mx.example.com") None false 2%nat]
      (init (Config 30 30 1)).

(** The socket behind [sid] exists and its transport is not writable. *)
Definition unwritable (w : world) (sid : nat) : Prop :=
  exists sk, sockets w !! sid = Some sk /\ s_writable sk = false.

(** Socket mutations that never make a transport writable again. *)
Definition keeps_unwritable (f : socket -> socket) : Prop :=
  forall s, s_writable s = false -> s_writable (f s) = false.

(** [max || 10] *)
Definition effective_max (max : Z) : Z := if Z.eqb max 0 then 10 else max.

(** A connect attempt that outlives its timeout, on a pool of size one:
    the first factory call times out and is reported to its caller, a
    second caller is given a new factory call, and then both sockets
    connect. *)
Definition late_connect_run : list action :=
  [do_get_client (Some 25) (Some "mx.example.com"%string) None false 1%nat;
   do_emit 0%nat ev_timeout ""%string;
   do_get_client (Some 25) (Some "mx.example.com"%string) None false 2%nat;
   do_emit 0%nat ev_connect ""%string;
   do_emit 1%nat ev_connect ""%string].

(** The callback invocation hands the socket [sid] to its caller. *)
Definition hands (sid : nat) (c : call) : bool :=
  match c_sock c with
  | Some s => Nat.eqb s sid
  | None => false
  end.

(** From [w] to [w'] the callback invocations made so far stay, every
    socket keeps its place and its pool name, and a socket is marked
    acquired afterwards only if it was before or one of the invocations
    made in between handed it to a caller. *)
Definition marks (w w' : world) : Prop :=
  exists extra, calls w' = calls w ++ extra /\
    forall sid sk, sockets w !! sid = Some sk ->
      exists sk', sockets w' !! sid = Some sk' /\
        s_pool_name sk' = s_pool_name sk /\
        (s_acquired sk' = true ->
         s_acquired sk = true \/ existsb (hands sid) extra = true).

(** Socket mutations that keep the pool name and do not mark the socket
    acquired. *)
Definition keeps_mark (f : socket -> socket) : Prop :=
  forall s, s_pool_name (f s) = s_pool_name s /\
            (s_acquired (f s) = true -> s_acquired s = true).

(** A connect listener of the factory. *)
Definition is_connect (h : handler) : bool :=
  match h with on_connect _ => true | _ => false end.

(** A socket object out of service: its transport is not writable and
    the factory has no connect listener left on it. *)
Definition out (sk : socket) : Prop :=
  s_writable sk = false /\
  Forall (fun l => is_connect (l_handler l) = false) (s_listeners sk).

(** The pool has the socket among its idle or busy connections. *)
Definition in_pool (sid : nat) (p : pool) : bool :=
  existsb (Nat.eqb sid) (p_idle p) || existsb (Nat.eqb sid) (p_busy p).

(** No pool has it. *)
Definition out_of_pools (w : world) (sid : nat) : bool :=
  forallb (fun p => negb (in_pool sid p)) (pools w).

(** The socket is out of service and out of the pools. *)
Definition retired (w : world) (sid : nat) : Prop :=
  (exists sk, sockets w !! sid = Some sk /\ out sk) /\ out_of_pools w sid = true.

(** From [w0] to [w] no callback has been handed the socket [sid], and
    in [w] the socket is out of service and out of the pools. *)
Definition quiet (sid : nat) (w0 w : world) : Prop :=
  retired w sid /\
  exists extra, calls w = calls w0 ++ extra /\ existsb (hands sid) extra = false.

(** Socket mutations that leave a socket out of service. *)
Definition keeps_out (f : socket -> socket) : Prop := forall s, out s -> out (f s).

(** Pool mutations that do not take the socket in. *)
Definition keeps_away (sid : nat) (f : pool -> pool) : Prop :=
  forall p, in_pool sid p = false -> in_pool sid (f p) = false.

(** From [w] to [w'] every socket and every pool object is still there,
    in its place and under its name. *)
Definition grows (w w' : world) : Prop :=
  (forall sid sk, sockets w !! sid = Some sk ->
     exists sk', sockets w' !! sid = Some sk' /\ s_pool_name sk' = s_pool_name sk) /\
  (forall pid p, pools w !! pid = Some p ->
     exists p', pools w' !! pid = Some p' /\ p_name p' = p_name p).

(** Socket (pool) mutations that keep the name. *)
Definition keeps_sname (f : socket -> socket) : Prop :=
  forall s, s_pool_name (f s) = s_pool_name s.

Definition keeps_pname (f : pool -> pool) : Prop :=
  forall p, p_name (f p) = p_name p.

(** The pool a connect listener of the factory reports a socket to. *)
Definition connect_pool (h : handler) : option nat :=
  match h with
  | on_connect (cb_pool_done pid _) => Some pid
  | _ => None
  end.

(** The socket carries the name of the pool object [pid]. *)
Definition named (w : world) (sid pid : nat) : Prop :=
  exists sk p, sockets w !! sid = Some sk /\ pools w !! pid = Some p /\
               s_pool_name sk = Some (p_name p).

(** The table refers to pool objects by their names. *)
Definition table_refers (w : world) : Prop :=
  forall t key pid, notes_pool w = Some t -> t !! key = Some pid ->
    exists p, pools w !! pid = Some p /\ p_name p = key.

(** The table, the pools and the sockets agree: every pool object is in
    the table under its name and the table holds nothing else, what a
    pool has among its idle or busy connections is a socket created for
    it, and a connect listener of the factory reports a socket to the
    pool it was created for. *)
Definition consistent (w : world) : Prop :=
  (forall pid p, pools w !! pid = Some p ->
     lookup_pool (Some (p_name p)) w = Some pid) /\
  table_refers w /\
  (forall pid p sid, pools w !! pid = Some p -> in_pool sid p = true ->
     named w sid pid) /\
  (forall sid sk l pid, sockets w !! sid = Some sk -> In l (s_listeners sk) ->
     connect_pool (l_handler l) = Some pid -> named w sid pid).

(** Socket mutations that keep the name and add no connect listener of
    the factory. *)
Definition keeps_cons (f : socket -> socket) : Prop :=
  forall s, s_pool_name (f s) = s_pool_name s /\
            forall l, In l (s_listeners (f s)) -> is_connect (l_handler l) = true ->
                      In l (s_listeners s).

(** * Further vocabulary *)

(** What identifies a socket for its whole life: what it was connected
    to, the pool it was created for and its sequence number. *)
Definition ident (sk : socket) : connect_opts * js_str * nat :=
  (s_conn sk, s_pool_name sk, s_sock_idx sk).

(** The numbers the next [k] sockets get when the counter stands at
    [n], and the counter after them. *)
Fixpoint idxs (n : nat) (k : nat) : list nat :=
  match k with
  | O => []
  | S k' => next_idx n :: idxs (next_idx n) k'
  end.

Fixpoint idx_after (n : nat) (k : nat) : nat :=
  match k with
  | O => n
  | S k' => idx_after (next_idx n) k'
  end.

(** From [w] to [w'] the sockets already there keep their identity and
    position, and the sockets created since carry the sequence numbers
    the counter gave out, in order. *)
Definition extends (w w' : world) : Prop :=
  exists extra,
    ident <$> sockets w' = (ident <$> sockets w) ++ extra /\
    snd <$> extra = idxs (socket_idx w) (length extra) /\
    socket_idx w' = idx_after (socket_idx w) (length extra).

(** Socket mutations that leave the identity alone. *)
Definition keeps_ident (f : socket -> socket) : Prop :=
  forall s, ident (f s) = ident s.

(** Where the counter stops: 2^53. *)
Definition idx_limit : Z := 9007199254740992.

(** The sequence numbers in the store are 1, 2, 3, ... in order of
    creation up to the limit and the limit from there on, and the counter
    is the last one given out. *)
Definition numbered (w : world) : Prop :=
  Z.of_nat (socket_idx w) = Z.min (Z.of_nat (length (sockets w))) idx_limit /\
  forall sid sk, sockets w !! sid = Some sk ->
    Z.of_nat (s_sock_idx sk) = Z.min (Z.of_nat (S sid)) idx_limit.

(** No pool has more queued waiters than [pool_concurrency_max]. *)
Definition waiters_ok (w : world) : Prop :=
  forall pid p, pools w !! pid = Some p ->
    Z.of_nat (length (p_waiters p)) <= Z.max 0 (pool_concurrency_max (cfg w)).

(** From [w] to [w'] the pools are the same objects and pool [pid0] has
    gained at most [n] waiters, the others none. *)
Definition queues_grow (pid0 : nat) (n : nat) (w w' : world) : Prop :=
  length (pools w') = length (pools w) /\
  forall pid p, pools w !! pid = Some p ->
    exists p', pools w' !! pid = Some p' /\
      (length (p_waiters p') <= length (p_waiters p)
                                + (if decide (pid = pid0) then n else 0))%nat.

(** An idle socket torn down after an error, and the socket as teardown
    left it. *)
Definition torn_world : world :=
  emit 0%nat ev_error "ECONNRESET" released_world.

Definition torn_socket : socket :=
  destroy_socket (set_fromPool false (drop_once ev_error released_socket)).

(** One connected socket, held by its caller. *)
Definition held_world : world :=
  run [do_get_client (Some 25) (Some "mx.example.com") None false 1%nat;
       do_emit 0%nat ev_connect "";
       do_listen 0%nat ev_connect 7%nat;
       do_listen 0%nat ev_error 8%nat;
       do_listen 0%nat ev_close 9%nat]
      (init (Config 30 30 1)).

Definition held_socket : socket :=
  Socket (connect_tcp (Some 25) (Some "mx.example.com") None)
         (Some "outbound::25:mx.example.com:undefined:30") 1 true false true
         [Listener ev_connect false (on_caller 7);
          Listener ev_error false (on_caller 8);
          Listener ev_close false (on_caller 9)]
         [op_setTimeout 30000].

(** The strings the pool's log filter matches at their start. *)
Definition availableObjects_text (c1 c2 : Ascii.ascii) (post : string) : string :=
  ("this" ++ String c1 ("_availableObjects" ++ String c2 ("length=" ++ post)))%string.

(** The character occurs in the string. *)
Definition has_char (c : Ascii.ascii) (s : string) : Prop :=
  In c (String.list_ascii_of_string s).

(** What happens to the logger between its loading and the exit of the
    process: a call of [logger.log], a call of [logger.dump_logs], and
    the module variable [plugins] being set or its [plugin_list]
    changing. *)
Inductive logger_action :=
  | la_log (level data : string)
  | la_dump
  | la_plugins (p : Logger.plugins_val).

Definition logger_step (a : logger_action) (st : Logger.state) : Logger.state :=
  match a with
  | la_log level data => Logger.log level data st
  | la_dump => (Logger.dump_logs st).2
  | la_plugins p =>
      Logger.State (Logger.loglevel st) (Logger.logformat st)
                   (Logger.deferred_logs st) p (Logger.hooked st)
  end.

Definition logger_run (l : list logger_action) (st : Logger.state) : Logger.state :=
  foldl (fun st a => logger_step a st) st l.

(** The items a run logs, in order. *)
Definition logged_items (l : list logger_action) : list Logger.item :=
  omap (fun a => match a with
                 | la_log level data =>
                     Some (Logger.Item level (Logger.sanitize level data))
                 | _ => None
                 end) l.

(** No [dump_logs] of the run throws. *)
Fixpoint dumps_return (l : list logger_action) (st : Logger.state) : bool :=
  match l with
  | [] => true
  | a :: l' =>
      match a with
      | la_dump => (Logger.dump_logs st).1
      | _ => true
      end && dumps_return l' (logger_step a st)
  end.

(** * Properties *)

(** ** Stores *)

Lemma lookup_upd_sock (sid : nat) (f : socket -> socket) (w : world) :
  sockets (upd_sock sid f w) !! sid = f <$> (sockets w !! sid).
Proof. unfold upd_sock. simpl. apply list_lookup_alter_eq. Qed.

Lemma lookup_upd_sock_ne (sid sid' : nat) (f : socket -> socket) (w : world) :
  sid <> sid' -> sockets (upd_sock sid f w) !! sid' = sockets w !! sid'.
Proof. intros Hne. unfold upd_sock. simpl. by apply list_lookup_alter_ne. Qed.

Lemma lookup_new_sock (l : list socket) (sk : socket) :
  (l ++ [sk]) !! length l = Some sk.
Proof. by rewrite list_lookup_middle. Qed.

(** ** Teardown *)

Lemma destroy_socket_ops (sk : socket) :
  s_ops (destroy_socket sk)
  = s_ops sk ++ (if s_writable sk then [op_write QUIT_command] else []) ++ [op_end].
Proof.
  unfold destroy_socket. destruct sk as [c n i a f wr ls os]. simpl.
  destruct wr; simpl; by rewrite <- ?app_assoc.
Qed.

Lemma destroy_socket_flags (sk : socket) :
  s_fromPool (destroy_socket sk) = false /\ s_writable (destroy_socket sk) = false.
Proof.
  unfold destroy_socket. destruct sk as [c n i a f wr ls os]. simpl.
  by destruct wr.
Qed.

Lemma destroy_socket_listeners (sk : socket) :
  s_listeners (destroy_socket sk)
  = [Listener ev_line false on_destroy_line;
     Listener ev_error true on_destroy_error;
     Listener ev_end true on_destroy_end].
Proof.
  unfold destroy_socket. destruct sk as [c n i a f wr ls os]. simpl.
  by destruct wr.
Qed.

(** C5: whenever the pool's [destroy] runs on a socket, the calls it
    makes on the transport are, in order, a write of the six bytes
    Q, U, I, T, carriage return, line feed exactly when the transport
    reported writable as teardown began, and then a half-close in every
    case; nothing else is written. *)
Theorem teardown_quit_iff_writable (p : pool) (sid : nat) (w : world) (sk : socket) :
  sockets w !! sid = Some sk ->
  exists sk',
    sockets (factory_destroy p sid w) !! sid = Some sk' /\
    s_ops sk' = s_ops sk
                ++ (if s_writable sk
                    then [op_write ("QUIT" ++ String (Ascii.ascii_of_nat 13)
                                                (String (Ascii.ascii_of_nat 10) ""))]
                    else [])
                ++ [op_end] /\
    (In (op_write ("QUIT" ++ String (Ascii.ascii_of_nat 13)
                                (String (Ascii.ascii_of_nat 10) "")))
        (drop (length (s_ops sk)) (s_ops sk'))
       <-> s_writable sk = true) /\
    (forall data, In (op_write data) (drop (length (s_ops sk)) (s_ops sk')) ->
       String.list_ascii_of_string data
       = Ascii.ascii_of_nat <$> [81; 85; 73; 84; 13; 10]%nat) /\
    last (s_ops sk') = Some op_end.
Proof.
  intros Hsk. exists (destroy_socket sk).
  assert (Hl : sockets (factory_destroy p sid w) !! sid = Some (destroy_socket sk)).
  { unfold factory_destroy. rewrite Hsk.
    rewrite lookup_upd_sock.
    destruct (s_writable sk); simpl; by rewrite Hsk. }
  split; [exact Hl|].
  rewrite destroy_socket_ops. split; [reflexivity|]. split; [|split].
  - rewrite drop_app_length. destruct (s_writable sk); simpl.
    + split; [reflexivity | intros _; by left].
    + split; [intros [H|[]]; discriminate | discriminate].
  - intros data. rewrite drop_app_length. destruct (s_writable sk); simpl.
    + intros [H|[H|[]]]; [|discriminate]. by injection H as <-.
    + intros [H|[]]. discriminate.
  - rewrite app_assoc. apply last_snoc.
Qed.

Lemma teardown_quit_iff_writable_witness :
  exists sk',
    sockets (factory_destroy
               (Pool "p" (Some 25) (Some "localhost") None false 1 0 [] [] [0%nat])
               0 (World (Config 30 0 1) 1
                        [Socket (connect_tcp (Some 25) (Some "localhost") None)
                                (Some "p") 1 false false true [] []]
                        [] None [] [])) !! 0%nat = Some sk' /\
    s_ops sk' = [] ++ [op_write ("QUIT" ++ String (Ascii.ascii_of_nat 13)
                                           (String (Ascii.ascii_of_nat 10) ""))]
                   ++ [op_end] /\
    (In (op_write ("QUIT" ++ String (Ascii.ascii_of_nat 13)
                                (String (Ascii.ascii_of_nat 10) "")))
        (drop 0 (s_ops sk')) <-> true = true) /\
    (forall data, In (op_write data) (drop 0 (s_ops sk')) ->
       String.list_ascii_of_string data
       = Ascii.ascii_of_nat <$> [81; 85; 73; 84; 13; 10]%nat) /\
    last (s_ops sk') = Some op_end.
Proof.
  apply (teardown_quit_iff_writable _ 0%nat _
           (Socket (connect_tcp (Some 25) (Some "localhost") None)
                   (Some "p") 1 false false true [] [])).
  reflexivity.
Defined.

(** ** The connection factory *)

Lemma create_socket_sockets pool_name port host local_addr is_unix_socket cb w :
  sockets (_create_socket pool_name port host local_addr is_unix_socket cb w)
  = sockets w ++ [created_socket w pool_name port host local_addr is_unix_socket cb].
Proof. reflexivity. Qed.

Lemma create_socket_frame pool_name port host local_addr is_unix_socket cb w :
  let w' := _create_socket pool_name port host local_addr is_unix_socket cb w in
  pools w' = pools w /\ notes_pool w' = notes_pool w /\ calls w' = calls w /\
  cfg w' = cfg w /\ socket_idx w' = next_idx (socket_idx w) /\
  log w' = log w ++ [log_created (next_idx (socket_idx w)) host port (pool_timeout (cfg w))].
Proof. by repeat split. Qed.

(** A lone [error] right after creation: the caller hears of it once,
    with no socket, and the transport has been ended. *)
Lemma factory_error_reported port host local_addr is_unix_socket k w arg :
  let sid := length (sockets w) in
  let w' := emit sid ev_error arg
              (_create_socket None port host local_addr is_unix_socket (cb_caller k) w) in
  calls w' = calls w ++ [Call k (Some (connection_error arg)) None] /\
  (exists sk, sockets w' !! sid = Some sk /\ last (s_ops sk) = Some op_end).
Proof.
  intros sid w'. subst w' sid. unfold emit, run_handlers, fired, drop_once.
  rewrite create_socket_sockets, lookup_new_sock. cbn.
  split; [reflexivity|].
  eexists. rewrite !list_lookup_alter_eq, lookup_new_sock. simpl.
  split; reflexivity.
Qed.

(** The same for a lone [timeout]. *)
Lemma factory_timeout_reported port host local_addr is_unix_socket k w arg :
  let sid := length (sockets w) in
  let w' := emit sid ev_timeout arg
              (_create_socket None port host local_addr is_unix_socket (cb_caller k) w) in
  calls w' = calls w ++ [Call k (Some (connection_timed_out host port)) None] /\
  (exists sk, sockets w' !! sid = Some sk /\ last (s_ops sk) = Some op_end).
Proof.
  intros sid w'. subst w' sid. unfold emit, run_handlers, fired, drop_once.
  rewrite create_socket_sockets, lookup_new_sock. cbn.
  split; [reflexivity|].
  eexists. rewrite !list_lookup_alter_eq, lookup_new_sock. simpl.
  split; reflexivity.
Qed.

(** On [connect] the three transient listeners are gone by the time the
    caller is handed the socket. *)
Lemma factory_connect_clean port host local_addr is_unix_socket k w arg :
  let sid := length (sockets w) in
  let w' := emit sid ev_connect arg
              (_create_socket None port host local_addr is_unix_socket (cb_caller k) w) in
  calls w' = calls w ++ [Call k None (Some sid)] /\
  (exists sk, sockets w' !! sid = Some sk /\ s_listeners sk = [] /\
              s_ops sk = [op_setTimeout (connect_timeout (cfg w) * 1000)]).
Proof.
  intros sid w'. subst w' sid. unfold emit, run_handlers, fired, drop_once.
  rewrite create_socket_sockets, lookup_new_sock. cbn.
  split; [reflexivity|].
  eexists. rewrite !list_lookup_alter_eq, lookup_new_sock. simpl.
  repeat split; reflexivity.
Qed.

(** C7: the failure listeners of [_create_socket] end the transport but
    leave the other listeners registered, so an attempt that signals a
    timeout and then an error calls the caller back twice, not exactly
    once. *)
Lemma factory_timeout_then_error_calls_back_twice :
  calls (run two_signals (init (Config 30 0 0)))
  = [Call 7 (Some (connection_timed_out (Some "mx.example.com") (Some 25))) None;
     Call 7 (Some (connection_error "ECONNREFUSED")) None].
Proof. vm_compute. reflexivity. Qed.

(** Likewise a connect that succeeds after the timeout fired reports a
    failure and then a connected socket to the same caller. *)
Lemma factory_timeout_then_connect_calls_back_twice :
  calls (run [do_get_client (Some 25) (Some "mx.example.com") None false 7%nat;
              do_emit 0%nat ev_timeout "";
              do_emit 0%nat ev_connect ""] (init (Config 30 0 0)))
  = [Call 7 (Some (connection_timed_out (Some "mx.example.com") (Some 25))) None;
     Call 7 None (Some 0%nat)].
Proof. vm_compute. reflexivity. Qed.
(** ** Releasing when the pool is gone from the table *)

Lemma lookup_pool_frame (name : js_str) (w w' : world) :
  notes_pool w' = notes_pool w -> lookup_pool name w' = lookup_pool name w.
Proof. unfold lookup_pool. by intros ->. Qed.

(** [release_client] on an acquired socket whose pool is not in the table
    clears the acquired flag, logs at critical severity and returns: it
    makes no call on the transport. *)
Lemma release_client_missing_pool sid port host local_addr error w sk :
  sockets w !! sid = Some sk ->
  s_acquired sk = true ->
  negb (str_truthy (s_pool_name sk)) && Z.eqb (pool_concurrency_max (cfg w)) 0 = false ->
  lookup_pool (s_pool_name sk) w = None ->
  release_client sid port host local_addr error w
  = add_log (log_crit_no_pool (s_pool_name sk))
      (upd_sock sid (set_acquired false)
         (add_log (log_release_client (s_sock_idx sk) host port local_addr) w)).
Proof.
  intros Hsk Hacq Hby Hno. unfold release_client. rewrite Hsk. cbn [cfg add_log].
  rewrite Hby, Hacq. cbn [negb].
  erewrite (lookup_pool_frame _ w) by reflexivity. by rewrite Hno.
Qed.

(** C1: releasing an acquired socket whose pool name is not in the table
    logs the critical anomaly but does not close the transport: neither
    [end] nor [destroy] is called on it and it stays writable. *)
Lemma release_missing_pool_leaves_transport_open :
  let w' := release_client 0 (Some 25) (Some "localhost") None false
                           (orphan_world 30) in
  log w' = [log_release_client 1 (Some "localhost") (Some 25) None;
            log_crit_no_pool (Some "outbound::25:localhost:undefined:30")] /\
  sockets w' = [set_acquired false (busy_socket 30)] /\
  s_ops (set_acquired false (busy_socket 30)) = [op_setTimeout 30000] /\
  s_writable (set_acquired false (busy_socket 30)) = true.
Proof.
  cbv zeta.
  rewrite (release_client_missing_pool 0 _ _ _ _ _ (busy_socket 30)) by reflexivity.
  by repeat split.
Qed.

(** C4: with [pool_timeout] at zero the same release, with or without
    [error], still returns after the critical log line: the socket is not
    torn down and never closed. *)
Lemma release_timeout_zero_missing_pool_not_torn_down (error : bool) :
  let w' := release_client 0 (Some 25) (Some "localhost") None error
                           (orphan_world 0) in
  log w' = [log_release_client 1 (Some "localhost") (Some 25) None;
            log_crit_no_pool (Some "outbound::25:localhost:undefined:0")] /\
  sockets w' = [set_acquired false (busy_socket 0)] /\
  s_ops (set_acquired false (busy_socket 0)) = [op_setTimeout 30000] /\
  s_writable (set_acquired false (busy_socket 0)) = true.
Proof.
  cbv zeta.
  rewrite (release_client_missing_pool 0 _ _ _ _ _ (busy_socket 0)) by reflexivity.
  by repeat split.
Qed.

(** ** What the operations leave alone *)

Ltac break_match :=
  match goal with
  | |- context [match ?x with _ => _ end] => destruct x eqn:?
  end.

Lemma static_upd_sock sid f w : static (upd_sock sid f w) = static w.
Proof. reflexivity. Qed.

Lemma static_upd_pool pid f w : static (upd_pool pid f w) = static w.
Proof. reflexivity. Qed.

Lemma static_add_log e w : static (add_log e w) = static w.
Proof. reflexivity. Qed.

Lemma static_add_call c w : static (add_call c w) = static w.
Proof. reflexivity. Qed.

Lemma static_create_socket pool_name port host local_addr is_unix_socket cb w :
  static (_create_socket pool_name port host local_addr is_unix_socket cb w) = static w.
Proof. reflexivity. Qed.

Lemma static_factory_destroy p sid w : static (factory_destroy p sid w) = static w.
Proof. unfold factory_destroy. repeat break_match; reflexivity. Qed.

Lemma static_acquire_cb k err sid w : static (acquire_cb k err sid w) = static w.
Proof. unfold acquire_cb. repeat break_match; reflexivity. Qed.

Lemma static_pool_serve pid w : static (pool_serve pid w) = static w.
Proof. unfold pool_serve, factory_create. repeat break_match; reflexivity. Qed.

Lemma static_pool_acquire pid k w : static (pool_acquire pid k w) = static w.
Proof.
  unfold pool_acquire, factory_create.
  repeat break_match; rewrite ?static_acquire_cb; reflexivity.
Qed.

Lemma static_pool_release pid sid w : static (pool_release pid sid w) = static w.
Proof.
  unfold pool_release.
  repeat break_match; rewrite ?static_acquire_cb; reflexivity.
Qed.

Lemma static_pool_destroy pid sid w : static (pool_destroy pid sid w) = static w.
Proof.
  unfold pool_destroy. break_match; [|reflexivity].
  by rewrite static_pool_serve, static_factory_destroy.
Qed.

Lemma static_pool_done pid k err sid w : static (pool_done pid k err sid w) = static w.
Proof.
  unfold pool_done.
  repeat break_match; rewrite ?static_pool_serve, ?static_acquire_cb; reflexivity.
Qed.

Lemma static_sockend name sid w : static (sockend name sid w) = static w.
Proof.
  unfold sockend. break_match; [|reflexivity].
  by rewrite static_pool_destroy.
Qed.

Lemma static_release_client sid port host local_addr error w :
  static (release_client sid port host local_addr error w) = static w.
Proof.
  unfold release_client.
  repeat break_match;
    rewrite ?static_sockend, ?static_pool_release; reflexivity.
Qed.

Lemma static_invoke cb err sid w : static (invoke cb err sid w) = static w.
Proof. destruct cb; simpl; [reflexivity | apply static_pool_done]. Qed.

Lemma static_run_handler sid h arg w : static (run_handler sid h arg w) = static w.
Proof.
  destruct h; simpl; rewrite ?static_invoke, ?static_sockend; reflexivity.
Qed.

Lemma static_emit sid ev arg w : static (emit sid ev arg w) = static w.
Proof.
  unfold emit, run_handlers, fired, drop_once. break_match; [|reflexivity].
  match goal with |- context [foldl _ ?w0 ?hs] =>
    change (static w) with (static w0); generalize w0; generalize hs end.
  intros hs. induction hs as [|h hs IH]; intros w0; simpl; [reflexivity|].
  by rewrite IH, static_run_handler.
Qed.

Lemma cfg_of_static w w' : static w' = static w -> cfg w' = cfg w.
Proof. by intros [= -> _]. Qed.

Lemma get_pool_cfg port host local_addr is_unix_socket max w :
  cfg (get_pool port host local_addr is_unix_socket max w).2 = cfg w.
Proof. unfold get_pool. repeat break_match; reflexivity. Qed.

Lemma cfg_step a w : cfg (step a w) = cfg w.
Proof.
  destruct a; simpl; try reflexivity.
  - unfold get_client. break_match; [reflexivity|].
    destruct (get_pool port host local_addr is_unix_socket
                (pool_concurrency_max (cfg w)) w) as [pid w1] eqn:Hg.
    assert (Hc : cfg w1 = cfg w)
      by (change w1 with (pid, w1).2; rewrite <- Hg; apply get_pool_cfg).
    repeat break_match; try exact Hc.
    by rewrite (cfg_of_static _ _ (static_pool_acquire _ _ _)).
  - apply cfg_of_static, static_release_client.
  - apply cfg_of_static, static_emit.
Qed.

Lemma cfg_run l w : cfg (run l w) = cfg w.
Proof.
  revert w. induction l as [|a l IH]; intros w; [reflexivity|].
  change (run (a :: l) w) with (run l (step a w)). by rewrite IH, cfg_step.
Qed.

(** ** Pooling disabled *)

Lemma pool_key_prefix port host local_addr ptimeout :
  exists rest, pool_key port host local_addr ptimeout = ("outbound::" ++ rest)%string.
Proof. unfold pool_key. eexists. reflexivity. Qed.

Lemma get_pool_table_ok port host local_addr is_unix_socket max w :
  table_ok w -> table_ok (get_pool port host local_addr is_unix_socket max w).2.
Proof.
  intros Hok. unfold get_pool.
  destruct (notes_pool w) as [t0|] eqn:Ht0; simpl.
  - rewrite Ht0. simpl. break_match; simpl; [exact Hok|].
    intros t key pid [= <-] Hk.
    destruct (decide (key = pool_key (or_port port) (or_host host) local_addr
                                     (pool_timeout (cfg w)))) as [->|Hne].
    + apply pool_key_prefix.
    + rewrite lookup_insert_ne in Hk by done. by eapply Hok.
  - rewrite lookup_empty. simpl.
    intros t key pid [= <-] Hk.
    destruct (decide (key = pool_key (or_port port) (or_host host) local_addr
                                     (pool_timeout (cfg w)))) as [->|Hne].
    + apply pool_key_prefix.
    + rewrite lookup_insert_ne in Hk by done. by rewrite lookup_empty in Hk.
Qed.

Lemma table_ok_static w w' : static w' = static w -> table_ok w -> table_ok w'.
Proof. intros [= _ Hn] Hok t key pid Ht. rewrite Hn in Ht. by eapply Hok. Qed.

(** A socket without a pool name never finds a pool in such a table. *)
Lemma lookup_pool_no_name (name : js_str) (w : world) :
  table_ok w -> str_truthy name = false -> lookup_pool name w = None.
Proof.
  intros Hok Hn. unfold lookup_pool.
  destruct (notes_pool w) as [t|] eqn:Ht; [|reflexivity].
  destruct (t !! key_of name) as [pid|] eqn:Hk; [|reflexivity].
  destruct (Hok t _ pid Ht Hk) as [rest Hrest].
  destruct name as [x|]; simpl in *.
  - destruct (String.eqb_spec x ""); [subst; discriminate | discriminate].
  - discriminate.
Qed.

Lemma table_ok_step a w : table_ok w -> table_ok (step a w).
Proof.
  intros Hok. destruct a; simpl.
  - unfold get_client. break_match; [by eapply table_ok_static; [|exact Hok]|].
    pose proof (get_pool_table_ok port host local_addr is_unix_socket
                  (pool_concurrency_max (cfg w)) w Hok) as H1.
    destruct (get_pool port host local_addr is_unix_socket
                (pool_concurrency_max (cfg w)) w) as [pid w1].
    cbn [snd] in H1.
    repeat break_match; try exact H1;
      (eapply table_ok_static; [|exact H1]);
      first [reflexivity | apply static_pool_acquire].
  - eapply table_ok_static; [apply static_release_client | exact Hok].
  - eapply table_ok_static; [apply static_emit | exact Hok].
  - by eapply table_ok_static; [|exact Hok].
  - by eapply table_ok_static; [|exact Hok].
Qed.

(** From process start on, every key of the table was made by
    [get_pool]. *)
Lemma table_ok_run l c : table_ok (run l (init c)).
Proof.
  assert (H0 : table_ok (init c)) by (intros t key pid Ht; discriminate Ht).
  revert H0. generalize (init c). induction l as [|a l IH]; intros w Hw; [exact Hw|].
  change (run (a :: l) w) with (run l (step a w)). by apply IH, table_ok_step.
Qed.

(** C3: with [pool_concurrency_max] at zero, [get_client] is the
    connection factory called with a null pool name and the caller's own
    callback, port and host as given, and leaves the pool objects and the
    pool table as they were; [release_client] on a socket without a pool
    name strips its listeners and destroys the transport, again without
    touching any pool or the table. *)
Theorem bypass_never_touches_pools (w : world) :
  pool_concurrency_max (cfg w) = 0 ->
  table_ok w ->
  (forall port host local_addr is_unix_socket k,
     let w' := get_client port host local_addr is_unix_socket k w in
     w' = _create_socket None port host local_addr is_unix_socket (cb_caller k) w /\
     pools w' = pools w /\ notes_pool w' = notes_pool w /\
     sockets w' = sockets w
       ++ [created_socket w None port host local_addr is_unix_socket (cb_caller k)]) /\
  (forall sid sk port host local_addr error,
     sockets w !! sid = Some sk ->
     str_truthy (s_pool_name sk) = false ->
     let w' := release_client sid port host local_addr error w in
     pools w' = pools w /\ notes_pool w' = notes_pool w /\ calls w' = calls w /\
     sockets w'
     = alter (fun s => sock_destroy (removeAllListeners (set_fromPool false s)))
             sid (sockets w) /\
     log w' = log w ++ [log_release_client (s_sock_idx sk) host port local_addr]).
Proof.
  intros Hmax Hok. split.
  - intros port host local_addr is_unix_socket k w'. subst w'.
    unfold get_client. rewrite Hmax. simpl. by repeat split.
  - intros sid sk port host local_addr error Hsk Hname w'. subst w'.
    unfold release_client. rewrite Hsk. cbn [cfg add_log].
    rewrite Hname, Hmax. simpl. unfold sockend.
    rewrite lookup_pool_no_name; [|by eapply table_ok_static; [|exact Hok] |exact Hname].
    simpl. repeat split. by rewrite list_alter_alter_eq.
Qed.

Lemma bypass_never_touches_pools_witness :
  let w := run [do_get_client None None None false 3%nat;
                do_emit 0%nat ev_connect ""] (init (Config 30 30 0)) in
  let w' := release_client 0 None None None false w in
  pools w' = pools w /\ notes_pool w' = notes_pool w /\ calls w' = calls w /\
  sockets w'
  = alter (fun s => sock_destroy (removeAllListeners (set_fromPool false s)))
          0%nat (sockets w) /\
  log w' = log w ++ [log_release_client 1 None None None].
Proof.
  intros w.
  assert (Hmax : pool_concurrency_max (cfg w) = 0) by reflexivity.
  assert (Hok : table_ok w) by (intros t key pid Ht; discriminate Ht).
  destruct (bypass_never_touches_pools w Hmax Hok) as [_ Hrel].
  exact (Hrel 0%nat
           (Socket (connect_tcp None None None) None 1 false false true []
                   [op_setTimeout 30000])
           None None None false eq_refl eq_refl).
Defined.

(** ** Admission control *)

Lemma get_pool_existing port host local_addr is_unix_socket max w t pid :
  notes_pool w = Some t ->
  t !! pool_key (or_port port) (or_host host) local_addr (pool_timeout (cfg w))
    = Some pid ->
  get_pool port host local_addr is_unix_socket max w = (pid, w).
Proof.
  intros Ht Hkey. unfold get_pool. rewrite Ht. cbv beta iota zeta. rewrite Ht.
  cbn [default from_option]. unfold id. by rewrite Hkey.
Qed.

(** C2: when the destination's pool is in the table and already has at
    least [pool_concurrency_max] queued waiters, [get_client] does nothing
    but call the caller back with the backpressure message and no socket:
    no socket is created and the counter, the pools, the table and the log
    are all as before. *)
Theorem backpressure_rejects port host local_addr is_unix_socket k w t pid p :
  pool_concurrency_max (cfg w) <> 0 ->
  notes_pool w = Some t ->
  t !! pool_key (or_port port) (or_host host) local_addr (pool_timeout (cfg w))
    = Some pid ->
  pools w !! pid = Some p ->
  waitingClientsCount p >= pool_concurrency_max (cfg w) ->
  get_client port host local_addr is_unix_socket k w
  = add_call (Call k (Some too_many_waiting) None) w.
Proof.
  intros Hmax Ht Hkey Hp Hwait. unfold get_client.
  destruct (Z.eqb_spec (pool_concurrency_max (cfg w)) 0) as [|_]; [done|].
  rewrite (get_pool_existing _ _ _ _ _ _ t pid Ht Hkey). rewrite Hp.
  destruct (Z.geb_spec (waitingClientsCount p) (pool_concurrency_max (cfg w)));
    [reflexivity | lia].
Qed.

Lemma backpressure_rejects_witness :
  get_client (Some 25) (Some "mx.example.com") None false 3%nat saturated_world
  = add_call (Call 3 (Some too_many_waiting) None) saturated_world.
Proof.
  apply (backpressure_rejects _ _ _ _ _ _
           (<[pool_key (Some 25) (Some "mx.example.com") None 30 := 0%nat]> ∅) 0%nat
           (Pool (pool_key (Some 25) (Some "mx.example.com") None 30)
                 (Some 25) (Some "mx.example.com") None false 1 30000
                 [2%nat] [] [0%nat])).
  - discriminate.
  - vm_compute. reflexivity.
  - vm_compute. reflexivity.
  - vm_compute. reflexivity.
  - vm_compute. discriminate.
Defined.

(** ** Defaults for port and host *)

Lemma or_port_falsy (p : js_port) : port_truthy p = false -> or_port p = Some 25.
Proof. unfold or_port. by intros ->. Qed.

Lemma or_host_falsy (h : js_str) : str_truthy h = false -> or_host h = Some "localhost"%string.
Proof. unfold or_host. by intros ->. Qed.

Lemma or_port_idem (p : js_port) : or_port (or_port p) = or_port p.
Proof. unfold or_port. destruct (port_truthy p) eqn:H; [by rewrite H | reflexivity]. Qed.

Lemma or_host_idem (h : js_str) : or_host (or_host h) = or_host h.
Proof. unfold or_host. destruct (str_truthy h) eqn:H; [by rewrite H | reflexivity]. Qed.

Lemma get_pool_fresh port host local_addr is_unix_socket max w :
  let name := pool_key (or_port port) (or_host host) local_addr (pool_timeout (cfg w)) in
  lookup_pool (Some name) w = None ->
  get_pool port host local_addr is_unix_socket max w
  = (length (pools w),
     set_notes_pool (Some (<[name := length (pools w)]> (default ∅ (notes_pool w))))
       (set_pools (pools w ++ [new_pool port host local_addr is_unix_socket max w]) w)).
Proof.
  intros name Hno. unfold lookup_pool in Hno. simpl in Hno. unfold get_pool.
  destruct (notes_pool w) as [t|] eqn:Ht; cbv beta iota zeta.
  - rewrite Ht. cbn [default from_option]. unfold id. fold name. by rewrite Hno.
  - cbn [notes_pool set_notes_pool default from_option]. unfold id.
    rewrite lookup_empty. reflexivity.
Qed.

Lemma pool_acquire_creates pid k w p :
  pools w !! pid = Some p ->
  List.find (valid_in w) (p_idle p) = None ->
  pool_size p < p_max p ->
  pool_acquire pid k w
  = factory_create pid p k w.
Proof.
  intros Hp Hfind Hroom. unfold pool_acquire. rewrite Hp, Hfind.
  destruct (Z.ltb_spec (pool_size p) (p_max p)); [reflexivity | lia].
Qed.

(** C10: with pooling enabled, [get_client] behaves exactly as if it had
    been given port 25 for a falsy port and host localhost for a falsy
    host: the pool key is built from the defaulted values and, when that
    key is new, the socket the pool opens for the caller is connected
    with them.  With pooling disabled the socket is opened with port and
    host as the caller gave them. *)
Theorem pooled_defaults_port_and_host port host local_addr is_unix_socket k w :
  (port_truthy port = false -> or_port port = Some 25) /\
  (str_truthy host = false -> or_host host = Some "localhost"%string) /\
  (pool_concurrency_max (cfg w) <> 0 ->
     get_client port host local_addr is_unix_socket k w
     = get_client (or_port port) (or_host host) local_addr is_unix_socket k w) /\
  (0 < pool_concurrency_max (cfg w) ->
     let name := pool_key (or_port port) (or_host host) local_addr
                          (pool_timeout (cfg w)) in
     lookup_pool (Some name) w = None ->
     let w' := get_client port host local_addr is_unix_socket k w in
     lookup_pool (Some name) w' = Some (length (pools w)) /\
     sockets w' = sockets w
       ++ [created_socket w (Some name) (or_port port) (or_host host) local_addr
                          is_unix_socket (cb_pool_done (length (pools w)) k)]) /\
  (pool_concurrency_max (cfg w) = 0 ->
     sockets (get_client port host local_addr is_unix_socket k w)
     = sockets w
       ++ [created_socket w None port host local_addr is_unix_socket (cb_caller k)]).
Proof.
  split; [apply or_port_falsy|]. split; [apply or_host_falsy|].
  split; [|split].
  - intros Hmax. unfold get_client.
    destruct (Z.eqb_spec (pool_concurrency_max (cfg w)) 0) as [E|_]; [done|].
    unfold get_pool. by rewrite or_port_idem, or_host_idem.
  - intros Hmax name Hno w'. subst w'. unfold get_client.
    destruct (Z.eqb_spec (pool_concurrency_max (cfg w)) 0) as [E|_]; [lia|].
    rewrite get_pool_fresh by exact Hno. fold name.
    cbn [pools set_pools set_notes_pool]. rewrite list_lookup_middle by reflexivity.
    unfold waitingClientsCount. cbn [new_pool p_waiters length cfg set_notes_pool set_pools].
    destruct (Z.geb_spec (Z.of_nat 0) (pool_concurrency_max (cfg w))) as [|_]; [lia|].
    erewrite pool_acquire_creates;
      [ | cbn [pools set_pools set_notes_pool]; by apply list_lookup_middle
        | reflexivity
        | unfold pool_size; cbn [new_pool p_idle p_busy p_max length Nat.add];
          destruct (Z.eqb_spec (pool_concurrency_max (cfg w)) 0); lia ].
    split.
    + unfold lookup_pool, factory_create, _create_socket, upd_pool.
      cbn [notes_pool set_sockets add_log set_socket_idx set_pools set_notes_pool key_of].
      apply lookup_insert_eq.
    + reflexivity.
  - intros Hmax. unfold get_client. by rewrite Hmax.
Qed.

Lemma pooled_defaults_port_and_host_witness :
  let w := init (Config 30 30 10) in
  let w' := get_client (Some 0) None None false 5%nat w in
  lookup_pool (Some "outbound::25:localhost:undefined:30"%string) w' = Some 0%nat /\
  sockets w'
  = [created_socket w (Some "outbound::25:localhost:undefined:30"%string)
                    (Some 25) (Some "localhost"%string) None false
                    (cb_pool_done 0 5)].
Proof.
  intros w.
  destruct (pooled_defaults_port_and_host (Some 0) None None false 5%nat w)
    as (_ & _ & _ & Hfresh & _).
  apply Hfresh; [vm_compute; reflexivity | reflexivity].
Defined.

(** ** Release into teardown *)

Lemma lookup_upd_pool (pid : nat) (f : pool -> pool) (w : world) :
  pools (upd_pool pid f w) !! pid = f <$> (pools w !! pid).
Proof. unfold upd_pool. simpl. apply list_lookup_alter_eq. Qed.

Lemma lookup_upd_pool_ne (pid pid' : nat) (f : pool -> pool) (w : world) :
  pid <> pid' -> pools (upd_pool pid f w) !! pid' = pools w !! pid'.
Proof. intros Hne. unfold upd_pool. simpl. by apply list_lookup_alter_ne. Qed.

Lemma factory_destroy_lookup p sid w sk :
  sockets w !! sid = Some sk ->
  sockets (factory_destroy p sid w) !! sid = Some (destroy_socket sk).
Proof.
  intros Hsk. unfold factory_destroy. rewrite Hsk, lookup_upd_sock.
  destruct (s_writable sk); simpl; by rewrite Hsk.
Qed.

Lemma factory_destroy_pools p sid w : pools (factory_destroy p sid w) = pools w.
Proof. unfold factory_destroy. repeat break_match; reflexivity. Qed.

(** Serving a waiter opens at most one new socket and touches no
    existing one; in the pool it changes the waiter queue only. *)
Lemma pool_serve_sockets pid w :
  exists extra, sockets (pool_serve pid w) = sockets w ++ extra.
Proof.
  unfold pool_serve. repeat break_match; try (exists []; by rewrite app_nil_r).
  eexists. unfold factory_create. rewrite create_socket_sockets. reflexivity.
Qed.

Lemma pool_serve_lookup pid w sid sk :
  sockets w !! sid = Some sk -> sockets (pool_serve pid w) !! sid = Some sk.
Proof.
  intros Hsk. destruct (pool_serve_sockets pid w) as [extra ->].
  by apply lookup_app_l_Some.
Qed.

Lemma pool_serve_pools pid w pid' p' :
  pools (pool_serve pid w) !! pid' = Some p' ->
  exists p0, pools w !! pid' = Some p0 /\
             p_idle p' = p_idle p0 /\ p_busy p' = p_busy p0 /\ p_max p' = p_max p0.
Proof.
  unfold pool_serve. intros H.
  destruct (pools w !! pid) as [p|] eqn:Hp; [|by eauto].
  destruct (p_waiters p) as [|k ws]; [by eauto|].
  destruct (pool_size p <? p_max p); [|by eauto].
  unfold factory_create in H.
  destruct (create_socket_frame (Some (p_name p)) (p_port p) (p_host p)
              (p_local_addr p) (p_is_unix_socket p) (cb_pool_done pid k)
              (upd_pool pid (set_waiters ws) w))
    as (Hpools & _).
  rewrite Hpools in H.
  destruct (decide (pid = pid')) as [<-|Hne].
  - rewrite lookup_upd_pool, Hp in H. simpl in H. injection H as <-. by eauto.
  - rewrite lookup_upd_pool_ne in H by done. by eauto.
Qed.

Lemma pool_serve_pools_fwd pid w pid' p0 :
  pools w !! pid' = Some p0 ->
  exists p', pools (pool_serve pid w) !! pid' = Some p' /\
             p_idle p' = p_idle p0 /\ p_busy p' = p_busy p0 /\ p_max p' = p_max p0.
Proof.
  intros H0. unfold pool_serve.
  destruct (pools w !! pid) as [p|] eqn:Hp; [|by eauto].
  destruct (p_waiters p) as [|k ws]; [by eauto|].
  destruct (pool_size p <? p_max p); [|by eauto].
  unfold factory_create, _create_socket. cbn [pools set_sockets add_log set_socket_idx].
  destruct (decide (pid = pid')) as [<-|Hne].
  - rewrite lookup_upd_pool, Hp. simpl. rewrite Hp in H0. injection H0 as <-. by eauto.
  - rewrite lookup_upd_pool_ne by done. by eauto.
Qed.

(** [release_client] past its guards: the socket is acquired, pooling
    applies to it and its pool is in the table. *)
Lemma release_client_pooled sid port host local_addr error w sk pid :
  sockets w !! sid = Some sk ->
  s_acquired sk = true ->
  negb (str_truthy (s_pool_name sk)) && Z.eqb (pool_concurrency_max (cfg w)) 0 = false ->
  lookup_pool (s_pool_name sk) w = Some pid ->
  release_client sid port host local_addr error w
  = let name := s_pool_name sk in
    let w1 := upd_sock sid (set_acquired false)
                (add_log (log_release_client (s_sock_idx sk) host port local_addr) w) in
    if error then sockend name sid w1
    else if Z.eqb (pool_timeout (cfg w)) 0
    then sockend name sid (add_log log_timeout_zero w1)
    else pool_release pid sid
           (upd_sock sid (sock_once ev_end (on_pool_end name))
              (upd_sock sid (sock_once ev_error (on_pool_error name))
                 (upd_sock sid (set_fromPool true)
                    (upd_sock sid strip_listeners w1)))).
Proof.
  intros Hsk Hacq Hby Hpid. unfold release_client. rewrite Hsk. cbn [cfg add_log].
  rewrite Hby, Hacq. cbn [negb].
  erewrite (lookup_pool_frame _ w) by reflexivity. by rewrite Hpid.
Qed.

Lemma sockend_pooled name sid w pid p :
  lookup_pool name w = Some pid ->
  pools w !! pid = Some p ->
  sockend name sid w
  = pool_serve pid
      (factory_destroy p sid
         (upd_pool pid (fun p => set_busy (filter (fun x => x <> sid) (p_busy p))
                                   (set_idle (filter (fun x => x <> sid) (p_idle p)) p))
                   (upd_sock sid (set_fromPool false) w))).
Proof.
  intros Hpid Hp. unfold sockend.
  erewrite (lookup_pool_frame _ w) by reflexivity. rewrite Hpid.
  unfold pool_destroy. cbn [pools upd_sock set_sockets]. by rewrite Hp.
Qed.

(** With the pool still in the table, a release with [error] set, or
    with [pool_timeout] at zero, hands the socket to the pool's [destroy]:
    the flags are cleared, the termination command is written if the
    transport is writable, the transport is half-closed, the listener that
    destroys it on the peer's end-of-stream is armed, and the socket is in
    neither the idle nor the busy connections of its pool. *)
Lemma release_tears_down sid port host local_addr error w sk pid p :
  sockets w !! sid = Some sk ->
  s_acquired sk = true ->
  negb (str_truthy (s_pool_name sk)) && Z.eqb (pool_concurrency_max (cfg w)) 0 = false ->
  lookup_pool (s_pool_name sk) w = Some pid ->
  pools w !! pid = Some p ->
  error = true \/ pool_timeout (cfg w) = 0 ->
  let w' := release_client sid port host local_addr error w in
  (exists sk',
     sockets w' !! sid = Some sk' /\
     s_pool_name sk' = s_pool_name sk /\
     s_acquired sk' = false /\ s_fromPool sk' = false /\
     s_ops sk' = s_ops sk
                 ++ (if s_writable sk then [op_write QUIT_command] else [])
                 ++ [op_end] /\
     s_listeners sk' = teardown_listeners) /\
  (exists p',
     pools w' !! pid = Some p' /\
     p_idle p' = filter (fun x => x <> sid) (p_idle p) /\
     p_busy p' = filter (fun x => x <> sid) (p_busy p)).
Proof.
  intros Hsk Hacq Hby Hpid Hp Hwhy w'.
  set (w0 := upd_sock sid (set_fromPool false)
               (upd_sock sid (set_acquired false)
                  (add_log (log_release_client (s_sock_idx sk) host port local_addr) w))).
  set (tear := fun w1 : world =>
         pool_serve pid
           (factory_destroy p sid
              (upd_pool pid (fun p => set_busy (filter (fun x => x <> sid) (p_busy p))
                                        (set_idle (filter (fun x => x <> sid) (p_idle p)) p))
                        w1))).
  assert (Hw' : w' = tear w0 \/ w' = tear (add_log log_timeout_zero w0)).
  { subst w'. rewrite (release_client_pooled _ _ _ _ _ _ sk pid) by done.
    cbv zeta. destruct error.
    - left. by rewrite (sockend_pooled _ _ _ pid p).
    - right. destruct Hwhy as [|Hz]; [discriminate|]. rewrite Hz. cbn [Z.eqb].
      by rewrite (sockend_pooled _ _ _ pid p). }
  assert (Hs0 : forall w1, sockets w1 = sockets w0 -> pools w1 = pools w ->
            (exists sk', sockets (tear w1) !! sid = Some sk' /\
               s_pool_name sk' = s_pool_name sk /\
               s_acquired sk' = false /\ s_fromPool sk' = false /\
               s_ops sk' = s_ops sk
                  ++ (if s_writable sk then [op_write QUIT_command] else [])
                  ++ [op_end] /\
               s_listeners sk' = teardown_listeners) /\
            (exists p', pools (tear w1) !! pid = Some p' /\
               p_idle p' = filter (fun x => x <> sid) (p_idle p) /\
               p_busy p' = filter (fun x => x <> sid) (p_busy p))).
  { intros w1 Hs Hpl. split.
    - exists (destroy_socket (set_fromPool false (set_acquired false sk))).
      split.
      + unfold tear. apply pool_serve_lookup, factory_destroy_lookup.
        cbn [upd_pool set_pools sockets]. rewrite Hs. unfold w0.
        rewrite !lookup_upd_sock. cbn [add_log sockets]. by rewrite Hsk.
      + destruct sk as [c n i a f [] ls os]; cbn; repeat split; by rewrite <- ?app_assoc.
    - unfold tear.
      edestruct (pool_serve_pools_fwd pid) as (p' & Hp' & Hi & Hb & _);
        [ rewrite factory_destroy_pools, lookup_upd_pool, Hpl, Hp; reflexivity |].
      exists p'. by rewrite Hi, Hb. }
  destruct Hw' as [-> | ->]; apply Hs0; reflexivity.
Qed.

(** Once torn down, the peer's end-of-stream makes the module destroy
    the transport. *)
Lemma teardown_end_destroys sid arg w sk :
  sockets w !! sid = Some sk ->
  s_listeners sk = teardown_listeners ->
  exists sk', sockets (emit sid ev_end arg w) !! sid = Some sk' /\
              s_ops sk' = s_ops sk ++ [op_destroy] /\
              log (emit sid ev_end arg w) = log w ++ [log_remote_half_closed].
Proof.
  intros Hsk Hls. unfold emit, run_handlers, fired, drop_once. rewrite Hsk, Hls. cbn.
  eexists. rewrite !list_lookup_alter_eq, Hsk. simpl. by repeat split.
Qed.

(** ** Releasing what is not acquired *)

Lemma release_client_unacquired sid port host local_addr error w sk :
  sockets w !! sid = Some sk ->
  s_acquired sk = false ->
  pooled_release sk w ->
  release_client sid port host local_addr error w
  = add_log log_warn_unacquired
      (add_log (log_release_client (s_sock_idx sk) host port local_addr) w).
Proof.
  intros Hsk Hacq Hby. unfold release_client. rewrite Hsk. cbn [cfg add_log].
  unfold pooled_release in Hby. by rewrite Hby, Hacq.
Qed.

(** *** The acquired flag along a run *)

Lemma marks_refl w : marks w w.
Proof.
  exists []. split; [by rewrite app_nil_r|]. intros sid sk Hsk.
  exists sk. split; [exact Hsk|]. split; [reflexivity | by left].
Qed.

Lemma marks_trans w1 w2 w3 : marks w1 w2 -> marks w2 w3 -> marks w1 w3.
Proof.
  intros (e1 & C1 & H1) (e2 & C2 & H2). exists (e1 ++ e2).
  split; [by rewrite C2, C1, app_assoc|]. intros sid sk Hsk.
  destruct (H1 sid sk Hsk) as (sk2 & Hsk2 & Hn2 & Ha2).
  destruct (H2 sid sk2 Hsk2) as (sk3 & Hsk3 & Hn3 & Ha3).
  exists sk3. split; [exact Hsk3|]. split; [congruence|].
  intros Ha. rewrite existsb_app.
  destruct (Ha3 Ha) as [Hb | Hb]; [|right; by rewrite Hb, orb_true_r].
  destruct (Ha2 Hb) as [Hc | Hc]; [by left | right; by rewrite Hc].
Qed.

Lemma marks_same w w' :
  sockets w' = sockets w -> calls w' = calls w -> marks w w'.
Proof.
  intros Hs Hc. exists []. split; [by rewrite Hc, app_nil_r|].
  intros sid sk Hsk. exists sk. rewrite Hs. split; [exact Hsk|].
  split; [reflexivity | by left].
Qed.

Lemma marks_add_call c w : marks w (add_call c w).
Proof.
  exists [c]. split; [reflexivity|]. intros sid sk Hsk. exists sk.
  split; [exact Hsk|]. split; [reflexivity | by left].
Qed.

Lemma marks_upd_sock sid f w : keeps_mark f -> marks w (upd_sock sid f w).
Proof.
  intros Hf. exists []. split; [by rewrite app_nil_r|]. intros sid' sk Hsk.
  destruct (decide (sid = sid')) as [<-|Hne].
  - exists (f sk). rewrite lookup_upd_sock, Hsk. split; [reflexivity|].
    destruct (Hf sk) as [Hn Ha]. split; [exact Hn|]. intros H. left. by apply Ha.
  - exists sk. rewrite lookup_upd_sock_ne by done. split; [exact Hsk|].
    split; [reflexivity | by left].
Qed.

Lemma marks_create_socket pool_name port host local_addr is_unix_socket cb w :
  marks w (_create_socket pool_name port host local_addr is_unix_socket cb w).
Proof.
  exists []. split; [by rewrite app_nil_r|]. intros sid sk Hsk. exists sk.
  rewrite create_socket_sockets. split; [by apply lookup_app_l_Some|].
  split; [reflexivity | by left].
Qed.

Ltac mark_tac :=
  let s := fresh "s" in intros s; destruct s; split; cbn; try done.

Lemma mark_set_acquired_false : keeps_mark (set_acquired false).
Proof. mark_tac. Qed.
Lemma mark_set_fromPool b : keeps_mark (set_fromPool b).
Proof. mark_tac. Qed.
Lemma mark_set_writable b : keeps_mark (set_writable b).
Proof. mark_tac. Qed.
Lemma mark_drop_once ev : keeps_mark (drop_once ev).
Proof. mark_tac. Qed.
Lemma mark_removeAllListenersOf ev : keeps_mark (removeAllListenersOf ev).
Proof. mark_tac. Qed.
Lemma mark_strip_listeners : keeps_mark strip_listeners.
Proof. mark_tac. Qed.
Lemma mark_strip_listeners_inline :
  keeps_mark (fun s => removeAllListenersOf ev_line
                         (removeAllListenersOf ev_timeout
                            (removeAllListenersOf ev_end
                               (removeAllListenersOf ev_error
                                  (removeAllListenersOf ev_close s))))).
Proof. mark_tac. Qed.
Lemma mark_sock_once ev h : keeps_mark (sock_once ev h).
Proof. mark_tac. Qed.
Lemma mark_sock_on ev h : keeps_mark (sock_on ev h).
Proof. mark_tac. Qed.
Lemma mark_sock_end : keeps_mark sock_end.
Proof. mark_tac. Qed.
Lemma mark_sock_destroy : keeps_mark sock_destroy.
Proof. mark_tac. Qed.
Lemma mark_direct_close : keeps_mark (fun s => sock_destroy (removeAllListeners s)).
Proof. mark_tac. Qed.
Lemma mark_destroy_socket : keeps_mark destroy_socket.
Proof. intros s. destruct s as [c n i a f [] ls os]; split; cbn; done. Qed.

Create HintDb marked discriminated.
#[local] Hint Resolve mark_set_acquired_false mark_set_fromPool mark_set_writable
  mark_drop_once mark_removeAllListenersOf mark_strip_listeners
  mark_strip_listeners_inline mark_sock_once mark_sock_on mark_sock_end
  mark_sock_destroy mark_direct_close mark_destroy_socket : marked.

Create HintDb marks_db discriminated.

Ltac mrk :=
  repeat first
    [ apply marks_refl
    | apply marks_create_socket
    | match goal with
      | |- marks _ (upd_sock _ _ _) =>
          eapply marks_trans; [|apply marks_upd_sock; solve [auto with marked]]
      | |- marks ?a (add_log _ ?x) =>
          apply (marks_trans a x); [|apply marks_same; reflexivity]
      | |- marks ?a (add_call _ ?x) =>
          apply (marks_trans a x); [|apply marks_add_call]
      | |- marks ?a (upd_pool _ _ ?x) =>
          apply (marks_trans a x); [|apply marks_same; reflexivity]
      | |- marks ?a (set_pools _ ?x) =>
          apply (marks_trans a x); [|apply marks_same; reflexivity]
      | |- marks ?a (set_notes_pool _ ?x) =>
          apply (marks_trans a x); [|apply marks_same; reflexivity]
      | |- marks _ (_create_socket _ _ _ _ _ _ _) =>
          eapply marks_trans; [|apply marks_create_socket]
      | |- marks _ _ =>
          eapply marks_trans; [|solve [auto with marks_db]]
      end ].

Lemma marks_factory_destroy p sid w : marks w (factory_destroy p sid w).
Proof. unfold factory_destroy. repeat break_match; mrk. Qed.
#[local] Hint Resolve marks_factory_destroy : marks_db.

(** The one place that marks a socket acquired: the callback given to
    [pool.acquire], which hands the socket to its caller at once. *)
Lemma marks_acquire_cb k err sid w : marks w (acquire_cb k err sid w).
Proof.
  unfold acquire_cb. destruct err as [e|]; [mrk|].
  destruct (sockets w !! sid) as [sk0|] eqn:Hsk0; [|apply marks_refl].
  exists [Call k None (Some sid)]. split; [reflexivity|].
  intros sid' sk Hsk. cbn [sockets add_call add_log].
  destruct (decide (sid = sid')) as [<-|Hne].
  - rewrite lookup_upd_sock, Hsk. eexists. split; [reflexivity|].
    split; [by destruct sk|]. intros _. right. simpl. unfold hands. simpl.
    by rewrite Nat.eqb_refl.
  - rewrite lookup_upd_sock_ne by done. exists sk. split; [exact Hsk|].
    split; [reflexivity | by left].
Qed.
#[local] Hint Resolve marks_acquire_cb : marks_db.

Lemma marks_pool_serve pid w : marks w (pool_serve pid w).
Proof. unfold pool_serve, factory_create. repeat break_match; mrk. Qed.
#[local] Hint Resolve marks_pool_serve : marks_db.

Lemma marks_pool_acquire pid k w : marks w (pool_acquire pid k w).
Proof. unfold pool_acquire, factory_create. repeat break_match; mrk. Qed.
#[local] Hint Resolve marks_pool_acquire : marks_db.

Lemma marks_pool_release pid sid w : marks w (pool_release pid sid w).
Proof. unfold pool_release. repeat break_match; mrk. Qed.
#[local] Hint Resolve marks_pool_release : marks_db.

Lemma marks_pool_destroy pid sid w : marks w (pool_destroy pid sid w).
Proof. unfold pool_destroy. repeat break_match; mrk. Qed.
#[local] Hint Resolve marks_pool_destroy : marks_db.

Lemma marks_pool_done pid k err sid w : marks w (pool_done pid k err sid w).
Proof. unfold pool_done. repeat break_match; mrk. Qed.
#[local] Hint Resolve marks_pool_done : marks_db.

Lemma marks_sockend name sid w : marks w (sockend name sid w).
Proof. unfold sockend. repeat break_match; mrk. Qed.
#[local] Hint Resolve marks_sockend : marks_db.

Lemma marks_release_client sid port host local_addr error w :
  marks w (release_client sid port host local_addr error w).
Proof. unfold release_client. repeat break_match; mrk. Qed.

Lemma marks_invoke cb err sid w : marks w (invoke cb err sid w).
Proof. destruct cb; simpl; mrk. Qed.
#[local] Hint Resolve marks_invoke : marks_db.

Lemma marks_run_handler sid h arg w : marks w (run_handler sid h arg w).
Proof. destruct h; simpl; mrk. Qed.

Lemma marks_run_handlers sid hs arg w : marks w (run_handlers sid hs arg w).
Proof.
  unfold run_handlers. revert w.
  induction hs as [|l hs IH]; intros w; simpl; [apply marks_refl|].
  eapply marks_trans; [apply marks_run_handler | apply IH].
Qed.

Lemma marks_emit sid ev arg w : marks w (emit sid ev arg w).
Proof.
  unfold emit. break_match; [|apply marks_refl].
  eapply marks_trans; [|apply marks_run_handlers]. mrk.
Qed.

Lemma marks_get_pool port host local_addr is_unix_socket max w :
  marks w (get_pool port host local_addr is_unix_socket max w).2.
Proof. unfold get_pool. repeat break_match; simpl; mrk. Qed.

Lemma marks_get_client port host local_addr is_unix_socket k w :
  marks w (get_client port host local_addr is_unix_socket k w).
Proof.
  unfold get_client. break_match; [mrk|].
  pose proof (marks_get_pool port host local_addr is_unix_socket
                (pool_concurrency_max (cfg w)) w) as H1.
  destruct (get_pool port host local_addr is_unix_socket
              (pool_concurrency_max (cfg w)) w) as [pid w1].
  cbn [snd] in H1.
  repeat break_match; try exact H1; (eapply marks_trans; [exact H1|]); mrk.
Qed.

Lemma marks_step a w : marks w (step a w).
Proof.
  destruct a; simpl.
  - apply marks_get_client.
  - apply marks_release_client.
  - apply marks_emit.
  - mrk.
  - mrk.
Qed.

Lemma marks_run l w : marks w (run l w).
Proof.
  revert w. induction l as [|a l IH]; intros w; [apply marks_refl|].
  change (run (a :: l) w) with (run l (step a w)).
  eapply marks_trans; [apply marks_step | apply IH].
Qed.

(** A valid release, seen from the socket released: it keeps its place
    and pool name, and it is marked acquired afterwards only if the
    release itself handed it to a caller. *)
Lemma release_client_marks sid port host local_addr error w sk :
  sockets w !! sid = Some sk ->
  s_acquired sk = true ->
  pooled_release sk w ->
  exists extra sk1,
    calls (release_client sid port host local_addr error w) = calls w ++ extra /\
    sockets (release_client sid port host local_addr error w) !! sid = Some sk1 /\
    s_pool_name sk1 = s_pool_name sk /\
    (s_acquired sk1 = true -> existsb (hands sid) extra = true).
Proof.
  intros Hsk Hacq Hby. unfold release_client. rewrite Hsk. cbn [cfg add_log].
  unfold pooled_release in Hby. rewrite Hby, Hacq. cbn [negb].
  set (w0 := upd_sock sid (set_acquired false)
               (add_log (log_release_client (s_sock_idx sk) host port local_addr) w)).
  assert (H0 : sockets w0 !! sid = Some (set_acquired false sk)).
  { unfold w0. rewrite lookup_upd_sock. cbn [sockets add_log]. by rewrite Hsk. }
  match goal with |- context [calls ?r = _] => assert (Hm : marks w0 r) end.
  { repeat break_match; mrk. }
  destruct Hm as (extra & Hc & Hs).
  destruct (Hs sid _ H0) as (sk1 & Hsk1 & Hn & Ha).
  exists extra, sk1. split; [exact Hc|]. split; [exact Hsk1|].
  split; [by destruct sk|]. intros H. destruct (Ha H) as [Hf|Hh]; [|exact Hh].
  by destruct sk.
Qed.

(** C6 (amended): for a release to which pooling applies, a socket not
    marked acquired gets the release trace line and the warning and
    nothing else changes; on a valid release the acquired flag is cleared
    before sockend or the pool's release runs, and from then on, whatever
    the module is made to do, a further release of the socket meets the
    cleared flag and only logs the warning for as long as no callback has
    been handed the socket since the valid release began. *)
Theorem release_unacquired_only_warns sid port host local_addr error w sk :
  sockets w !! sid = Some sk ->
  pooled_release sk w ->
  (s_acquired sk = false ->
     release_client sid port host local_addr error w
     = add_log log_warn_unacquired
         (add_log (log_release_client (s_sock_idx sk) host port local_addr) w)) /\
  (s_acquired sk = true ->
     forall pid, lookup_pool (s_pool_name sk) w = Some pid ->
     release_client sid port host local_addr error w
     = let name := s_pool_name sk in
       let w1 := upd_sock sid (set_acquired false)
                   (add_log (log_release_client (s_sock_idx sk) host port local_addr) w) in
       if error then sockend name sid w1
       else if Z.eqb (pool_timeout (cfg w)) 0
       then sockend name sid (add_log log_timeout_zero w1)
       else pool_release pid sid
              (upd_sock sid (sock_once ev_end (on_pool_end name))
                 (upd_sock sid (sock_once ev_error (on_pool_error name))
                    (upd_sock sid (set_fromPool true)
                       (upd_sock sid strip_listeners w1))))) /\
  (s_acquired sk = true ->
     forall l port' host' local_addr' error',
       let w2 := run l (release_client sid port host local_addr error w) in
       existsb (hands sid) (drop (length (calls w)) (calls w2)) = false ->
       exists sk2,
         sockets w2 !! sid = Some sk2 /\ s_acquired sk2 = false /\
         release_client sid port' host' local_addr' error' w2
         = add_log log_warn_unacquired
             (add_log (log_release_client (s_sock_idx sk2) host' port' local_addr') w2)).
Proof.
  intros Hsk Hby. split; [|split].
  - intros Hacq. by apply release_client_unacquired.
  - intros Hacq pid Hpid. by apply release_client_pooled.
  - intros Hacq l port' host' local_addr' error' w2 Hno.
    destruct (release_client_marks sid port host local_addr error w sk Hsk Hacq Hby)
      as (e1 & sk1 & Hc1 & Hsk1 & Hn1 & Ha1).
    destruct (marks_run l (release_client sid port host local_addr error w))
      as (e2 & Hc2 & Hs2).
    destruct (Hs2 sid sk1 Hsk1) as (sk2 & Hsk2 & Hn2 & Ha2).
    fold w2 in Hc2, Hsk2.
    rewrite Hc2, Hc1, <- app_assoc, drop_app_length, existsb_app in Hno.
    apply orb_false_iff in Hno as [Hno1 Hno2].
    assert (Hacq2 : s_acquired sk2 = false).
    { destruct (s_acquired sk2); [|reflexivity].
      destruct (Ha2 eq_refl) as [H|H]; [|congruence].
      rewrite (Ha1 H) in Hno1. discriminate. }
    exists sk2. split; [exact Hsk2|]. split; [exact Hacq2|].
    apply release_client_unacquired; [exact Hsk2 | exact Hacq2 |].
    unfold pooled_release in *. rewrite Hn2, Hn1. unfold w2.
    rewrite cfg_run, (cfg_of_static _ _ (static_release_client _ _ _ _ _ _)).
    exact Hby.
Qed.

Lemma release_unacquired_only_warns_witness :
  let w2 := run [do_get_client (Some 25) (Some "mx.example.com"%string) None false 2%nat;
                 do_emit 0%nat ev_line "250 ok"%string]
                (release_client 0 (Some 25) (Some "mx.example.com"%string) None true
                                held_world) in
  exists sk2,
    sockets w2 !! 0%nat = Some sk2 /\ s_acquired sk2 = false /\
    release_client 0 (Some 25) (Some "mx.example.com"%string) None false w2
    = add_log log_warn_unacquired
        (add_log (log_release_client (s_sock_idx sk2) (Some "mx.example.com"%string)
                                     (Some 25) None) w2).
Proof.
  assert (Hsk : sockets held_world !! 0%nat = Some held_socket)
    by (vm_compute; reflexivity).
  assert (Hby : pooled_release held_socket held_world)
    by (vm_compute; reflexivity).
  destruct (release_unacquired_only_warns 0 (Some 25) (Some "mx.example.com"%string)
              None true held_world held_socket Hsk Hby) as (_ & _ & H).
  apply (H eq_refl
           [do_get_client (Some 25) (Some "mx.example.com"%string) None false 2%nat;
            do_emit 0%nat ev_line "250 ok"%string]).
  vm_compute. reflexivity.
Defined.

(** C6 as stated fails for such a socket: it is not marked acquired, yet
    its release logs no warning and destroys the transport. *)
Lemma unacquired_bypass_release_destroys :
  let w' := release_client 0 (Some 25) (Some "mx.example.com"%string) None false
                           bypass_world in
  (exists sk, sockets bypass_world !! 0%nat = Some sk /\ s_acquired sk = false) /\
  (exists sk', sockets w' !! 0%nat = Some sk' /\
               s_ops sk' = [op_setTimeout 30000; op_destroy] /\ s_writable sk' = false) /\
  Forall (fun e => is_warn e = false) (log w') /\
  w' <> add_log log_warn_unacquired
          (add_log (log_release_client 1 (Some "mx.example.com"%string) (Some 25) None)
                   bypass_world).
Proof.
  cbv zeta. split; [|split; [|split]].
  - eexists. split; vm_compute; reflexivity.
  - eexists. split; [vm_compute; reflexivity|]. split; reflexivity.
  - vm_compute. repeat constructor.
  - intros H. apply (f_equal log) in H. vm_compute in H. discriminate H.
Qed.

(** The first release hands the socket to the waiter, whose acquire
    callback marks it acquired again; the repeated release by the old
    holder therefore passes the guard and moves the socket, still in use
    by the waiter, to the idle connections. *)
Lemma repeated_release_after_handoff :
  let w1 := release_client 0 (Some 25) (Some "mx.example.com"%string) None false
                           handoff_world in
  let w2 := release_client 0 (Some 25) (Some "mx.example.com"%string) None false w1 in
  (p_idle <$> pools handoff_world, p_busy <$> pools handoff_world,
   p_waiters <$> pools handoff_world) = ([[]], [[0%nat]], [[2%nat]]) /\
  (p_idle <$> pools w1, p_busy <$> pools w1, p_waiters <$> pools w1)
    = ([[]], [[0%nat]], [[]]) /\
  calls w1 = [Call 1 None (Some 0%nat); Call 2 None (Some 0%nat)] /\
  (p_idle <$> pools w2, p_busy <$> pools w2, p_waiters <$> pools w2)
    = ([[0%nat]], [[]], [[]]).
Proof. cbv zeta. repeat split; vm_compute; reflexivity. Qed.

(** The flag belongs to the socket, not to its holder.  A socket is
    released and goes idle, a second caller is given it from the idle
    connections, and the first holder releases it once more: the flag is
    set again, so this release is accepted, no warning is logged, and the
    socket goes back to the idle connections while the second caller
    holds it. *)
Lemma repeated_release_after_reuse :
  let w1 := run [do_get_client (Some 25) (Some "mx.example.com"%string) None false 2%nat]
                released_world in
  let w2 := release_client 0 (Some 25) (Some "mx.example.com"%string) None false w1 in
  (p_idle <$> pools released_world, p_busy <$> pools released_world)
    = ([[0%nat]], [[]]) /\
  (p_idle <$> pools w1, p_busy <$> pools w1) = ([[]], [[0%nat]]) /\
  calls w1 = [Call 1 None (Some 0%nat); Call 2 None (Some 0%nat)] /\
  (p_idle <$> pools w2, p_busy <$> pools w2) = ([[0%nat]], [[]]) /\
  Forall (fun e => is_warn e = false) (log w2).
Proof. cbv zeta. repeat split; try (vm_compute; reflexivity). vm_compute. repeat constructor. Qed.

(** ** Validation after teardown *)

Lemma unwritable_upd_sock sid' f w sid :
  keeps_unwritable f -> unwritable w sid -> unwritable (upd_sock sid' f w) sid.
Proof.
  intros Hf (sk & Hsk & Hw). destruct (decide (sid' = sid)) as [->|Hne].
  - exists (f sk). rewrite lookup_upd_sock, Hsk. split; [reflexivity | by apply Hf].
  - exists sk. by rewrite lookup_upd_sock_ne.
Qed.

Lemma unwritable_sockets w w' sid :
  sockets w' = sockets w -> unwritable w sid -> unwritable w' sid.
Proof. unfold unwritable. by intros ->. Qed.

Lemma unwritable_app w w' sid extra :
  sockets w' = sockets w ++ extra -> unwritable w sid -> unwritable w' sid.
Proof.
  intros Hs (sk & Hsk & Hw). exists sk. rewrite Hs. split; [|exact Hw].
  by apply lookup_app_l_Some.
Qed.

Ltac keep_tac :=
  let s := fresh "s" in
  intros s; destruct s; cbn; try done; try (by intros ->).

Lemma keeps_set_acquired b : keeps_unwritable (set_acquired b).
Proof. keep_tac. Qed.
Lemma keeps_set_fromPool b : keeps_unwritable (set_fromPool b).
Proof. keep_tac. Qed.
Lemma keeps_set_writable_false : keeps_unwritable (set_writable false).
Proof. keep_tac. Qed.
Lemma keeps_set_listeners g : keeps_unwritable (fun s => set_listeners (g s) s).
Proof. keep_tac. Qed.
Lemma keeps_removeAllListenersOf ev : keeps_unwritable (removeAllListenersOf ev).
Proof. keep_tac. Qed.
Lemma keeps_strip_listeners : keeps_unwritable strip_listeners.
Proof. keep_tac. Qed.
Lemma keeps_sock_once ev h : keeps_unwritable (sock_once ev h).
Proof. keep_tac. Qed.
Lemma keeps_sock_on ev h : keeps_unwritable (sock_on ev h).
Proof. keep_tac. Qed.
Lemma keeps_sock_end : keeps_unwritable sock_end.
Proof. keep_tac. Qed.
Lemma keeps_sock_destroy : keeps_unwritable sock_destroy.
Proof. keep_tac. Qed.
Lemma keeps_direct_close : keeps_unwritable (fun s => sock_destroy (removeAllListeners s)).
Proof. keep_tac. Qed.
Lemma keeps_destroy_socket : keeps_unwritable destroy_socket.
Proof. intros s _. apply destroy_socket_flags. Qed.

Create HintDb keeps discriminated.
#[local] Hint Resolve keeps_set_acquired keeps_set_fromPool keeps_set_writable_false
  keeps_set_listeners keeps_removeAllListenersOf keeps_strip_listeners
  keeps_sock_once keeps_sock_on keeps_sock_end keeps_sock_destroy
  keeps_direct_close keeps_destroy_socket : keeps.

Ltac unw :=
  repeat first
    [ assumption
    | apply unwritable_upd_sock; [solve [auto with keeps] |]
    | match goal with
      | |- unwritable (add_log _ _) _ => eapply unwritable_sockets; [reflexivity|]
      | |- unwritable (add_call _ _) _ => eapply unwritable_sockets; [reflexivity|]
      | |- unwritable (upd_pool _ _ _) _ => eapply unwritable_sockets; [reflexivity|]
      | |- unwritable (set_pools _ _) _ => eapply unwritable_sockets; [reflexivity|]
      | |- unwritable (set_notes_pool _ _) _ => eapply unwritable_sockets; [reflexivity|]
      | |- unwritable (_create_socket _ _ _ _ _ _ _) _ =>
          eapply unwritable_app; [apply create_socket_sockets|]
      end ].

Lemma unwritable_factory_destroy p sid' w sid :
  unwritable w sid -> unwritable (factory_destroy p sid' w) sid.
Proof. intros H. unfold factory_destroy. repeat break_match; unw. Qed.

Lemma unwritable_acquire_cb k err sid' w sid :
  unwritable w sid -> unwritable (acquire_cb k err sid' w) sid.
Proof. intros H. unfold acquire_cb. repeat break_match; unw. Qed.

Lemma unwritable_pool_serve pid w sid :
  unwritable w sid -> unwritable (pool_serve pid w) sid.
Proof. intros H. unfold pool_serve, factory_create. repeat break_match; unw. Qed.

Lemma unwritable_pool_acquire pid k w sid :
  unwritable w sid -> unwritable (pool_acquire pid k w) sid.
Proof.
  intros H. unfold pool_acquire, factory_create.
  repeat break_match; try apply unwritable_acquire_cb; unw.
Qed.

Lemma unwritable_pool_release pid sid' w sid :
  unwritable w sid -> unwritable (pool_release pid sid' w) sid.
Proof.
  intros H. unfold pool_release.
  repeat break_match; try apply unwritable_acquire_cb; unw.
Qed.

Lemma unwritable_pool_destroy pid sid' w sid :
  unwritable w sid -> unwritable (pool_destroy pid sid' w) sid.
Proof.
  intros H. unfold pool_destroy. break_match; [|assumption].
  apply unwritable_pool_serve, unwritable_factory_destroy. unw.
Qed.

Lemma unwritable_pool_done pid k err sid' w sid :
  unwritable w sid -> unwritable (pool_done pid k err sid' w) sid.
Proof.
  intros H. unfold pool_done.
  repeat break_match;
    try apply unwritable_pool_serve; try apply unwritable_acquire_cb; unw.
Qed.

Lemma unwritable_sockend name sid' w sid :
  unwritable w sid -> unwritable (sockend name sid' w) sid.
Proof.
  intros H. unfold sockend. break_match; [apply unwritable_pool_destroy|]; unw.
Qed.

Lemma unwritable_release_client sid' port host local_addr error w sid :
  unwritable w sid -> unwritable (release_client sid' port host local_addr error w) sid.
Proof.
  intros H. unfold release_client.
  repeat break_match;
    try apply unwritable_sockend; try apply unwritable_pool_release; unw.
Qed.

Lemma unwritable_invoke cb err sid' w sid :
  unwritable w sid -> unwritable (invoke cb err sid' w) sid.
Proof. intros H. destruct cb; simpl; [unw | by apply unwritable_pool_done]. Qed.

Lemma unwritable_run_handler sid' h arg w sid :
  unwritable w sid -> unwritable (run_handler sid' h arg w) sid.
Proof.
  intros H. destruct h; simpl;
    try apply unwritable_invoke; try apply unwritable_sockend; unw.
Qed.

Lemma unwritable_emit sid' ev arg w sid :
  unwritable w sid -> unwritable (emit sid' ev arg w) sid.
Proof.
  intros H. unfold emit, run_handlers, fired, drop_once. break_match; [|assumption].
  match goal with |- unwritable (foldl _ ?w0 ?hs) _ =>
    assert (H0 : unwritable w0 sid) by unw; revert H0; generalize w0; generalize hs end.
  intros hs. induction hs as [|h hs IH]; intros w0 H0; simpl; [assumption|].
  by apply IH, unwritable_run_handler.
Qed.

Lemma get_pool_sockets port host local_addr is_unix_socket max w :
  sockets (get_pool port host local_addr is_unix_socket max w).2 = sockets w.
Proof. unfold get_pool. repeat break_match; reflexivity. Qed.

Lemma unwritable_get_client port host local_addr is_unix_socket k w sid :
  unwritable w sid -> unwritable (get_client port host local_addr is_unix_socket k w) sid.
Proof.
  intros H. unfold get_client. break_match; [unw|].
  destruct (get_pool port host local_addr is_unix_socket
              (pool_concurrency_max (cfg w)) w) as [pid w1] eqn:Hg.
  assert (H1 : unwritable w1 sid).
  { eapply unwritable_sockets; [|exact H].
    change w1 with (pid, w1).2. rewrite <- Hg. apply get_pool_sockets. }
  repeat break_match; try apply unwritable_pool_acquire; unw.
Qed.

Lemma unwritable_step a w sid : unwritable w sid -> unwritable (step a w) sid.
Proof.
  intros H. destruct a; simpl.
  - by apply unwritable_get_client.
  - by apply unwritable_release_client.
  - by apply unwritable_emit.
  - unw.
  - unw.
Qed.

(** No run of the module makes a transport writable again. *)
Lemma unwritable_run l w sid : unwritable w sid -> unwritable (run l w) sid.
Proof.
  revert w. induction l as [|a l IH]; intros w H; simpl; [assumption|].
  by apply IH, unwritable_step.
Qed.

(** What [pool.acquire] reports to callers: nothing yet, or one idle
    socket of the pool that passed validation. *)
Lemma pool_acquire_calls pid k w :
  calls (pool_acquire pid k w) = calls w \/
  exists sid p, pools w !! pid = Some p /\ In sid (p_idle p) /\
                valid_in w sid = true /\
                calls (pool_acquire pid k w) = calls w ++ [Call k None (Some sid)].
Proof.
  unfold pool_acquire.
  destruct (pools w !! pid) as [p|] eqn:Hp; [|by left].
  destruct (List.find (valid_in w) (p_idle p)) as [sid|] eqn:Hfind.
  - right. exists sid, p. apply find_some in Hfind as [Hin Hv].
    split; [reflexivity|]. split; [exact Hin|]. split; [exact Hv|].
    unfold acquire_cb. cbn [upd_pool set_pools sockets].
    unfold valid_in in Hv. destruct (sockets w !! sid); [reflexivity | discriminate].
  - left. by destruct (pool_size p <? p_max p).
Qed.

Lemma unwritable_not_valid w sid : unwritable w sid -> valid_in w sid = false.
Proof.
  intros (sk & Hsk & Hw). unfold valid_in, validate. rewrite Hsk, Hw.
  apply andb_false_r.
Qed.

(** *** Sockets out of service *)

Lemma quiet_refl sid w : retired w sid -> quiet sid w w.
Proof. intros H. split; [exact H|]. exists []. by rewrite app_nil_r. Qed.

Lemma quiet_same sid w0 w w' :
  sockets w' = sockets w -> pools w' = pools w -> calls w' = calls w ->
  quiet sid w0 w -> quiet sid w0 w'.
Proof.
  intros Hs Hp Hc [[Hsk Hout] Hq]. unfold quiet, retired, out_of_pools.
  by rewrite Hs, Hp, Hc.
Qed.

Lemma quiet_add_call sid c w0 w :
  hands sid c = false -> quiet sid w0 w -> quiet sid w0 (add_call c w).
Proof.
  intros Hc [Hr (extra & He & Hh)]. split; [exact Hr|].
  exists (extra ++ [c]). cbn [calls add_call]. rewrite He, app_assoc.
  split; [reflexivity|]. rewrite existsb_app, Hh. simpl. by rewrite Hc.
Qed.

Lemma quiet_upd_sock sid sid' f w0 w :
  keeps_out f -> quiet sid w0 w -> quiet sid w0 (upd_sock sid' f w).
Proof.
  intros Hf [[(sk & Hsk & Hout) Hp] Hq]. split; [|exact Hq]. split; [|exact Hp].
  destruct (decide (sid' = sid)) as [->|Hne].
  - exists (f sk). rewrite lookup_upd_sock, Hsk. split; [reflexivity | by apply Hf].
  - exists sk. by rewrite lookup_upd_sock_ne.
Qed.

Lemma forallb_alter {A} (P : A -> bool) (f : A -> A) (i : nat) (l : list A) :
  (forall x, P x = true -> P (f x) = true) ->
  forallb P l = true -> forallb P (alter f i l) = true.
Proof.
  intros Hf. revert i. induction l as [|x l IH]; intros [|i]; simpl; try done.
  - intros [Hx Hl]%andb_true_iff. by rewrite (Hf x Hx), Hl.
  - intros [Hx Hl]%andb_true_iff. rewrite Hx. by apply IH.
Qed.

Lemma quiet_upd_pool sid pid f w0 w :
  keeps_away sid f -> quiet sid w0 w -> quiet sid w0 (upd_pool pid f w).
Proof.
  intros Hf [[Hsk Hp] Hq]. split; [|exact Hq]. split; [exact Hsk|].
  unfold out_of_pools, upd_pool. cbn [pools set_pools].
  apply forallb_alter; [|exact Hp].
  intros p Hin. apply negb_true_iff in Hin. apply negb_true_iff. by apply Hf.
Qed.

Lemma quiet_create_socket sid pool_name port host local_addr is_unix_socket cb w0 w :
  quiet sid w0 w ->
  quiet sid w0 (_create_socket pool_name port host local_addr is_unix_socket cb w).
Proof.
  intros [[(sk & Hsk & Hout) Hp] Hq].
  destruct (create_socket_frame pool_name port host local_addr is_unix_socket cb w)
    as (Hpools & Hnp & Hcalls & _).
  split; [|by rewrite Hcalls]. split.
  - exists sk. rewrite create_socket_sockets. split; [by apply lookup_app_l_Some | exact Hout].
  - unfold out_of_pools. by rewrite Hpools.
Qed.

Lemma Forall_lfilter {A} (P : A -> Prop) (f : A -> bool) (l : list A) :
  Forall P l -> Forall P (List.filter f l).
Proof.
  induction 1 as [|x l Hx Hl IH]; simpl; [constructor|].
  destruct (f x); [by constructor | exact IH].
Qed.

Ltac out_tac :=
  let s := fresh "s" in
  intros s [? ?]; destruct s; split; cbn in *; try done;
  try (by apply Forall_lfilter);
  try (apply Forall_app_2; [assumption | by repeat constructor]).

Lemma out_set_acquired b : keeps_out (set_acquired b).
Proof. out_tac. Qed.
Lemma out_set_fromPool b : keeps_out (set_fromPool b).
Proof. out_tac. Qed.
Lemma out_set_writable_false : keeps_out (set_writable false).
Proof. out_tac. Qed.
Lemma out_drop_once ev : keeps_out (drop_once ev).
Proof. out_tac. Qed.
Lemma out_removeAllListenersOf ev : keeps_out (removeAllListenersOf ev).
Proof. out_tac. Qed.
Lemma out_strip_listeners : keeps_out strip_listeners.
Proof.
  intros s H. unfold strip_listeners. by repeat apply out_removeAllListenersOf.
Qed.
Lemma out_strip_listeners_inline :
  keeps_out (fun s => removeAllListenersOf ev_line
                        (removeAllListenersOf ev_timeout
                           (removeAllListenersOf ev_end
                              (removeAllListenersOf ev_error
                                 (removeAllListenersOf ev_close s))))).
Proof. exact out_strip_listeners. Qed.
Lemma out_sock_once ev h : is_connect h = false -> keeps_out (sock_once ev h).
Proof. intros Hh. out_tac. Qed.
Lemma out_sock_on ev h : is_connect h = false -> keeps_out (sock_on ev h).
Proof. intros Hh. out_tac. Qed.
Lemma out_sock_end : keeps_out sock_end.
Proof. out_tac. Qed.
Lemma out_sock_destroy : keeps_out sock_destroy.
Proof. out_tac. Qed.
Lemma out_direct_close : keeps_out (fun s => sock_destroy (removeAllListeners s)).
Proof. out_tac. Qed.

(** Teardown puts any socket out of service. *)
Lemma destroy_socket_out sk : out (destroy_socket sk).
Proof.
  split; [apply destroy_socket_flags|].
  rewrite destroy_socket_listeners. by repeat constructor.
Qed.

Lemma out_destroy_socket : keeps_out destroy_socket.
Proof. intros s _. apply destroy_socket_out. Qed.

Create HintDb outs discriminated.
#[local] Hint Resolve out_set_acquired out_set_fromPool out_set_writable_false
  out_drop_once out_removeAllListenersOf out_strip_listeners
  out_strip_listeners_inline out_sock_once out_sock_on out_sock_end
  out_sock_destroy out_direct_close out_destroy_socket : outs.
#[local] Hint Extern 1 (is_connect _ = false) => reflexivity : outs.

(** *** Pool mutations *)

Lemma existsb_lfilter {A} (f : A -> bool) (P : A -> Prop) `{!forall x, Decision (P x)}
    (l : list A) :
  existsb f l = false -> existsb f (filter P l) = false.
Proof.
  induction l as [|x l IH]; simpl; [done|].
  intros [Hx Hl]%orb_false_iff. rewrite filter_cons.
  destruct (decide (P x)); simpl; [by rewrite Hx, IH | by apply IH].
Qed.

Lemma in_pool_not sid p sid' :
  in_pool sid p = false -> In sid' (p_idle p) \/ In sid' (p_busy p) -> sid' <> sid.
Proof.
  unfold in_pool. intros [Hi Hb]%orb_false_iff Hin ->.
  assert (H : forall l, existsb (Nat.eqb sid) l = false -> ~ In sid l).
  { intros l Hl Hc. assert (existsb (Nat.eqb sid) l = true); [|congruence].
    apply existsb_exists. exists sid. split; [exact Hc | apply Nat.eqb_refl]. }
  destruct Hin as [Hin|Hin]; [by apply (H _ Hi) | by apply (H _ Hb)].
Qed.

Lemma away_set_waiters sid ws : keeps_away sid (set_waiters ws).
Proof. by intros p H. Qed.

Lemma away_take sid sid' :
  sid' <> sid ->
  keeps_away sid (fun p => set_busy (p_busy p ++ [sid'])
                             (set_idle (filter (fun x => x <> sid') (p_idle p)) p)).
Proof.
  intros Hne p. unfold in_pool. cbn [p_idle p_busy set_busy set_idle].
  intros [Hi Hb]%orb_false_iff. rewrite existsb_app, Hb, existsb_lfilter by done.
  simpl. rewrite orb_false_r. apply Nat.eqb_neq. congruence.
Qed.

Lemma away_give_back sid sid' :
  sid' <> sid ->
  keeps_away sid (fun p => set_idle (p_idle p ++ [sid'])
                             (set_busy (filter (fun x => x <> sid') (p_busy p)) p)).
Proof.
  intros Hne p. unfold in_pool. cbn [p_idle p_busy set_busy set_idle].
  intros [Hi Hb]%orb_false_iff. rewrite existsb_app, Hi, existsb_lfilter by done.
  simpl. rewrite !orb_false_r. apply Nat.eqb_neq. congruence.
Qed.

Lemma away_drop sid sid' :
  keeps_away sid (fun p => set_busy (filter (fun x => x <> sid') (p_busy p))
                             (set_idle (filter (fun x => x <> sid') (p_idle p)) p)).
Proof.
  intros p. unfold in_pool. cbn [p_idle p_busy set_busy set_idle].
  intros [Hi Hb]%orb_false_iff. by rewrite !existsb_lfilter.
Qed.

Lemma away_add_busy sid sid' :
  sid' <> sid -> keeps_away sid (fun p => set_busy (p_busy p ++ [sid']) p).
Proof.
  intros Hne p. unfold in_pool. cbn [p_idle p_busy set_busy set_idle].
  intros [Hi Hb]%orb_false_iff. rewrite existsb_app, Hi, Hb.
  simpl. rewrite orb_false_r. apply Nat.eqb_neq. congruence.
Qed.

Lemma away_enqueue sid k :
  keeps_away sid (fun p => set_waiters (p_waiters p ++ [k]) p).
Proof. by intros p H. Qed.

(** What a pool of a quiet world holds is some other socket. *)
Lemma quiet_pool_member sid w0 w pid p sid' :
  quiet sid w0 w -> pools w !! pid = Some p ->
  In sid' (p_idle p) \/ In sid' (p_busy p) -> sid' <> sid.
Proof.
  intros [[_ Hp] _] Hpid. apply in_pool_not.
  unfold out_of_pools in Hp. rewrite forallb_forall in Hp.
  apply negb_true_iff, Hp. apply list_elem_of_In. by eapply list_elem_of_lookup_2.
Qed.

(** *** The operations *)

Ltac qui :=
  repeat first
    [ assumption
    | apply quiet_upd_sock; [solve [auto with outs] |]
    | apply quiet_create_socket
    | match goal with
      | |- quiet ?s ?a (add_log _ ?x) => apply (quiet_same s a x); [reflexivity..|]
      | |- quiet ?s ?a (set_notes_pool _ ?x) =>
          apply (quiet_same s a x); [reflexivity..|]
      | |- quiet _ _ (upd_pool _ (set_waiters _) _) =>
          apply quiet_upd_pool; [apply away_set_waiters|]
      | |- quiet _ _ (upd_pool _ (fun p => set_waiters (p_waiters p ++ _) p) _) =>
          apply quiet_upd_pool; [apply away_enqueue|]
      end ].

Lemma quiet_factory_destroy sid p sid' w0 w :
  quiet sid w0 w -> quiet sid w0 (factory_destroy p sid' w).
Proof. intros H. unfold factory_destroy. repeat break_match; qui. Qed.

Lemma quiet_acquire_cb sid k err sid' w0 w :
  err <> None \/ sid' <> sid ->
  quiet sid w0 w -> quiet sid w0 (acquire_cb k err sid' w).
Proof.
  intros Hc H. unfold acquire_cb. destruct err as [e|].
  - by apply quiet_add_call.
  - destruct Hc as [Hc|Hc]; [done|]. break_match; [|assumption].
    apply quiet_add_call; [|qui].
    unfold hands. simpl. apply Nat.eqb_neq. congruence.
Qed.

Lemma quiet_pool_serve sid pid w0 w :
  quiet sid w0 w -> quiet sid w0 (pool_serve pid w).
Proof. intros H. unfold pool_serve, factory_create. repeat break_match; qui. Qed.

Lemma quiet_pool_acquire sid pid k w0 w :
  quiet sid w0 w -> quiet sid w0 (pool_acquire pid k w).
Proof.
  intros H. unfold pool_acquire, factory_create.
  destruct (pools w !! pid) as [p|] eqn:Hp; [|assumption].
  destruct (List.find (valid_in w) (p_idle p)) as [sid'|] eqn:Hfind.
  - apply find_some in Hfind as [Hin _].
    assert (Hne : sid' <> sid) by (eapply quiet_pool_member; eauto).
    apply quiet_acquire_cb; [by right|].
    apply quiet_upd_pool; [by apply away_take | assumption].
  - break_match; qui.
Qed.

Lemma quiet_pool_release sid pid sid' w0 w :
  quiet sid w0 w -> quiet sid w0 (pool_release pid sid' w).
Proof.
  intros H. unfold pool_release.
  destruct (pools w !! pid) as [p|] eqn:Hp; [|assumption].
  destruct (bool_decide_reflect (sid' ∈ p_busy p)) as [Hin|]; [|assumption].
  assert (Hne : sid' <> sid).
  { eapply quiet_pool_member; eauto. right. by apply list_elem_of_In. }
  destruct (p_waiters p) as [|k ws].
  - apply quiet_upd_pool; [by apply away_give_back | assumption].
  - apply quiet_acquire_cb; [by right|]. qui.
Qed.

Lemma quiet_pool_destroy sid pid sid' w0 w :
  quiet sid w0 w -> quiet sid w0 (pool_destroy pid sid' w).
Proof.
  intros H. unfold pool_destroy. break_match; [|assumption].
  apply quiet_pool_serve, quiet_factory_destroy.
  apply quiet_upd_pool; [apply away_drop | assumption].
Qed.

Lemma quiet_pool_done sid pid k err sid' w0 w :
  err <> None \/ sid' <> sid ->
  quiet sid w0 w -> quiet sid w0 (pool_done pid k err sid' w).
Proof.
  intros Hc H. unfold pool_done. break_match; [|assumption].
  destruct err as [e|].
  - apply quiet_pool_serve. by apply quiet_acquire_cb.
  - destruct Hc as [Hc|Hc]; [done|].
    apply quiet_acquire_cb; [by right|].
    apply quiet_upd_pool; [by apply away_add_busy | assumption].
Qed.

Lemma quiet_sockend sid name sid' w0 w :
  quiet sid w0 w -> quiet sid w0 (sockend name sid' w).
Proof.
  intros H. unfold sockend. break_match; [apply quiet_pool_destroy|]; qui.
Qed.

Lemma quiet_release_client sid sid' port host local_addr error w0 w :
  quiet sid w0 w -> quiet sid w0 (release_client sid' port host local_addr error w).
Proof.
  intros H. unfold release_client.
  repeat break_match;
    try apply quiet_sockend; try apply quiet_pool_release; qui.
Qed.

Lemma quiet_invoke sid cb err sid' w0 w :
  err <> None \/ sid' <> sid ->
  quiet sid w0 w -> quiet sid w0 (invoke cb err sid' w).
Proof.
  intros Hc H. destruct cb as [k|pid k]; simpl; [|by apply quiet_pool_done].
  apply quiet_add_call; [|assumption]. unfold hands.
  destruct err as [e|]; simpl; [reflexivity|].
  destruct Hc as [Hc|Hc]; [done|]. apply Nat.eqb_neq. congruence.
Qed.

Lemma quiet_run_handler sid sid' h arg w0 w :
  is_connect h = false \/ sid' <> sid ->
  quiet sid w0 w -> quiet sid w0 (run_handler sid' h arg w).
Proof.
  intros Hc H. destruct h; simpl;
    try (apply quiet_sockend); try (apply quiet_invoke; [by left|]); qui.
  destruct Hc as [Hc|Hc]; [discriminate|].
  apply quiet_invoke; [by right|]. qui.
Qed.

Lemma quiet_run_handlers sid sid' hs arg w0 w :
  Forall (fun l => is_connect (l_handler l) = false) hs \/ sid' <> sid ->
  quiet sid w0 w -> quiet sid w0 (run_handlers sid' hs arg w).
Proof.
  unfold run_handlers. revert w.
  induction hs as [|l hs IH]; intros w Hc H; simpl; [assumption|].
  apply IH.
  - destruct Hc as [Hc|Hc]; [left; by inversion Hc | by right].
  - apply quiet_run_handler; [|assumption].
    destruct Hc as [Hc|Hc]; [left; by inversion Hc | by right].
Qed.

Lemma quiet_emit sid sid' ev arg w0 w :
  quiet sid w0 w -> quiet sid w0 (emit sid' ev arg w).
Proof.
  intros H. unfold emit. destruct (sockets w !! sid') as [sk|] eqn:Hsk; [|assumption].
  apply quiet_run_handlers; [|qui].
  destruct (decide (sid' = sid)) as [->|Hne]; [left | by right].
  destruct H as [[(sk0 & Hsk0 & _ & Hls) _] _].
  rewrite Hsk in Hsk0. injection Hsk0 as <-. by apply Forall_lfilter.
Qed.

Lemma quiet_get_pool sid port host local_addr is_unix_socket max w0 w :
  quiet sid w0 w ->
  quiet sid w0 (get_pool port host local_addr is_unix_socket max w).2.
Proof.
  intros H. unfold get_pool.
  assert (Hnew : forall p w1, quiet sid w0 w1 -> in_pool sid p = false ->
                   quiet sid w0 (set_pools (pools w1 ++ [p]) w1)).
  { intros p w1 [[Hsk Hp] Hq] Hin. split; [|exact Hq]. split; [exact Hsk|].
    unfold out_of_pools in *. cbn [pools set_pools]. rewrite forallb_app, Hp. simpl.
    by rewrite Hin. }
  repeat break_match; cbn [snd]; qui;
    match goal with
    | |- quiet _ _ (set_pools (_ ++ [?p]) ?x) => apply (Hnew p x); [qui | reflexivity]
    end.
Qed.

Lemma quiet_get_client sid port host local_addr is_unix_socket k w0 w :
  quiet sid w0 w -> quiet sid w0 (get_client port host local_addr is_unix_socket k w).
Proof.
  intros H. unfold get_client. break_match; [qui|].
  pose proof (quiet_get_pool sid port host local_addr is_unix_socket
                (pool_concurrency_max (cfg w)) w0 w H) as H1.
  destruct (get_pool port host local_addr is_unix_socket
              (pool_concurrency_max (cfg w)) w) as [pid w1].
  cbn [snd] in H1.
  repeat break_match; try exact H1.
  - by apply quiet_add_call.
  - by apply quiet_pool_acquire.
Qed.

Lemma quiet_step sid a w0 w : quiet sid w0 w -> quiet sid w0 (step a w).
Proof.
  intros H. destruct a; simpl.
  - by apply quiet_get_client.
  - by apply quiet_release_client.
  - by apply quiet_emit.
  - qui.
  - qui.
Qed.

Lemma quiet_run sid l w0 w : quiet sid w0 w -> quiet sid w0 (run l w).
Proof.
  revert w. induction l as [|a l IH]; intros w H; simpl; [assumption|].
  by apply IH, quiet_step.
Qed.

Lemma pool_destroy_calls pid sid w : calls (pool_destroy pid sid w) = calls w.
Proof.
  unfold pool_destroy, pool_serve, factory_destroy, factory_create.
  repeat break_match; reflexivity.
Qed.

Lemma get_pool_calls port host local_addr is_unix_socket max w :
  calls (get_pool port host local_addr is_unix_socket max w).2 = calls w.
Proof. unfold get_pool. repeat break_match; reflexivity. Qed.

Lemma get_pool_old_pool port host local_addr is_unix_socket max w pid p sid :
  pools (get_pool port host local_addr is_unix_socket max w).2 !! pid = Some p ->
  In sid (p_idle p) -> pools w !! pid = Some p.
Proof.
  unfold get_pool. repeat break_match; cbn [snd pools set_pools set_notes_pool];
    try done.
  all: intros [Hp | [_ Hp]]%lookup_app_Some Hin; try done.
  all: destruct (pid - _)%nat; [|by destruct n]; injection Hp as <-; destruct Hin.
Qed.

(** What [get_client] hands to a callback before it returns was idle in
    a pool and passed validation. *)
Lemma get_client_hands_valid port host local_addr is_unix_socket k w sid :
  existsb (hands sid)
          (drop (length (calls w))
                (calls (get_client port host local_addr is_unix_socket k w))) = true ->
  valid_in w sid = true /\
  exists pid p, pools w !! pid = Some p /\ In sid (p_idle p).
Proof.
  unfold get_client. destruct (Z.eqb (pool_concurrency_max (cfg w)) 0).
  { cbn [calls _create_socket set_sockets add_log set_socket_idx].
    by rewrite drop_all. }
  pose proof (get_pool_calls port host local_addr is_unix_socket
                (pool_concurrency_max (cfg w)) w) as Hc.
  pose proof (get_pool_sockets port host local_addr is_unix_socket
                (pool_concurrency_max (cfg w)) w) as Hs.
  pose proof (get_pool_old_pool port host local_addr is_unix_socket
                (pool_concurrency_max (cfg w)) w) as Ho.
  destruct (get_pool port host local_addr is_unix_socket
              (pool_concurrency_max (cfg w)) w) as [pid w1].
  cbn [snd] in Hc, Hs, Ho.
  assert (Hv : valid_in w1 sid = valid_in w sid) by (unfold valid_in; by rewrite Hs).
  destruct (pools w1 !! pid) as [p|]; [|by rewrite Hc, drop_all].
  destruct (waitingClientsCount p >=? _).
  { cbn [calls add_call]. rewrite Hc, drop_app_length. discriminate. }
  destruct (pool_acquire_calls pid k w1) as [He | (sid' & p' & Hp' & Hin & Hv' & He)];
    rewrite He, Hc; [by rewrite drop_all|].
  rewrite drop_app_length. simpl. unfold hands. simpl. rewrite orb_false_r.
  intros ->%Nat.eqb_eq. split; [by rewrite <- Hv|].
  exists pid, p'. split; [by apply (Ho pid p' sid) | exact Hin].
Qed.

(** *** Names along a run *)

Lemma grows_refl w : grows w w.
Proof. split; [intros sid sk H; by exists sk | intros pid p H; by exists p]. Qed.

Lemma grows_trans w1 w2 w3 : grows w1 w2 -> grows w2 w3 -> grows w1 w3.
Proof.
  intros [S1 P1] [S2 P2]. split.
  - intros sid sk H. destruct (S1 sid sk H) as (sk2 & H2 & N2).
    destruct (S2 sid sk2 H2) as (sk3 & H3 & N3). exists sk3. split; [done | congruence].
  - intros pid p H. destruct (P1 pid p H) as (p2 & H2 & N2).
    destruct (P2 pid p2 H2) as (p3 & H3 & N3). exists p3. split; [done | congruence].
Qed.

Lemma grows_same w w' :
  sockets w' = sockets w -> pools w' = pools w -> grows w w'.
Proof. intros Hs Hp. unfold grows. rewrite Hs, Hp. apply grows_refl. Qed.

Lemma grows_upd_sock sid f w : keeps_sname f -> grows w (upd_sock sid f w).
Proof.
  intros Hf. split; [|intros pid p H; by exists p].
  intros sid' sk Hsk. destruct (decide (sid = sid')) as [<-|Hne].
  - exists (f sk). by rewrite lookup_upd_sock, Hsk.
  - exists sk. by rewrite lookup_upd_sock_ne.
Qed.

Lemma grows_upd_pool pid f w : keeps_pname f -> grows w (upd_pool pid f w).
Proof.
  intros Hf. split; [intros sid sk H; by exists sk|].
  intros pid' p Hp. destruct (decide (pid = pid')) as [<-|Hne].
  - exists (f p). by rewrite lookup_upd_pool, Hp.
  - exists p. by rewrite lookup_upd_pool_ne.
Qed.

Lemma grows_create_socket pool_name port host local_addr is_unix_socket cb w :
  grows w (_create_socket pool_name port host local_addr is_unix_socket cb w).
Proof.
  split; [|intros pid p H; by exists p].
  intros sid sk Hsk. exists sk. rewrite create_socket_sockets.
  split; [by apply lookup_app_l_Some | reflexivity].
Qed.

Lemma grows_new_pool p w : grows w (set_pools (pools w ++ [p]) w).
Proof.
  split; [intros sid sk H; by exists sk|].
  intros pid p0 H. exists p0. split; [by apply lookup_app_l_Some | reflexivity].
Qed.

Ltac sname_tac := let s := fresh "s" in intros s; by destruct s.

Lemma sname_set_acquired b : keeps_sname (set_acquired b).
Proof. sname_tac. Qed.
Lemma sname_set_fromPool b : keeps_sname (set_fromPool b).
Proof. sname_tac. Qed.
Lemma sname_set_writable b : keeps_sname (set_writable b).
Proof. sname_tac. Qed.
Lemma sname_drop_once ev : keeps_sname (drop_once ev).
Proof. sname_tac. Qed.
Lemma sname_removeAllListenersOf ev : keeps_sname (removeAllListenersOf ev).
Proof. sname_tac. Qed.
Lemma sname_strip_listeners : keeps_sname strip_listeners.
Proof. sname_tac. Qed.
Lemma sname_strip_listeners_inline :
  keeps_sname (fun s => removeAllListenersOf ev_line
                          (removeAllListenersOf ev_timeout
                             (removeAllListenersOf ev_end
                                (removeAllListenersOf ev_error
                                   (removeAllListenersOf ev_close s))))).
Proof. sname_tac. Qed.
Lemma sname_sock_once ev h : keeps_sname (sock_once ev h).
Proof. sname_tac. Qed.
Lemma sname_sock_on ev h : keeps_sname (sock_on ev h).
Proof. sname_tac. Qed.
Lemma sname_sock_end : keeps_sname sock_end.
Proof. sname_tac. Qed.
Lemma sname_sock_destroy : keeps_sname sock_destroy.
Proof. sname_tac. Qed.
Lemma sname_direct_close : keeps_sname (fun s => sock_destroy (removeAllListeners s)).
Proof. sname_tac. Qed.
Lemma sname_destroy_socket : keeps_sname destroy_socket.
Proof. intros s. by destruct s as [c n i a f [] ls os]. Qed.

Create HintDb snames discriminated.
#[local] Hint Resolve sname_set_acquired sname_set_fromPool sname_set_writable
  sname_drop_once sname_removeAllListenersOf sname_strip_listeners
  sname_strip_listeners_inline sname_sock_once sname_sock_on sname_sock_end
  sname_sock_destroy sname_direct_close sname_destroy_socket : snames.

Create HintDb grown discriminated.

Ltac grw :=
  repeat first
    [ apply grows_refl
    | apply grows_create_socket
    | match goal with
      | |- grows _ (upd_sock _ _ _) =>
          eapply grows_trans; [|apply grows_upd_sock; solve [auto with snames]]
      | |- grows _ (upd_pool _ _ _) =>
          eapply grows_trans; [|apply grows_upd_pool; let p := fresh "p" in intros p; by destruct p]
      | |- grows ?a (add_log _ ?x) =>
          apply (grows_trans a x); [|apply grows_same; reflexivity]
      | |- grows ?a (add_call _ ?x) =>
          apply (grows_trans a x); [|apply grows_same; reflexivity]
      | |- grows ?a (set_notes_pool _ ?x) =>
          apply (grows_trans a x); [|apply grows_same; reflexivity]
      | |- grows ?a (set_pools (pools ?x ++ [_]) ?x) =>
          apply (grows_trans a x); [|apply grows_new_pool]
      | |- grows _ (_create_socket _ _ _ _ _ _ _) =>
          eapply grows_trans; [|apply grows_create_socket]
      | |- grows _ _ =>
          eapply grows_trans; [|solve [auto with grown]]
      end ].

Lemma grows_factory_destroy p sid w : grows w (factory_destroy p sid w).
Proof. unfold factory_destroy. repeat break_match; grw. Qed.
#[local] Hint Resolve grows_factory_destroy : grown.

Lemma grows_acquire_cb k err sid w : grows w (acquire_cb k err sid w).
Proof. unfold acquire_cb. repeat break_match; grw. Qed.
#[local] Hint Resolve grows_acquire_cb : grown.

Lemma grows_pool_serve pid w : grows w (pool_serve pid w).
Proof. unfold pool_serve, factory_create. repeat break_match; grw. Qed.
#[local] Hint Resolve grows_pool_serve : grown.

Lemma grows_pool_acquire pid k w : grows w (pool_acquire pid k w).
Proof. unfold pool_acquire, factory_create. repeat break_match; grw. Qed.
#[local] Hint Resolve grows_pool_acquire : grown.

Lemma grows_pool_release pid sid w : grows w (pool_release pid sid w).
Proof. unfold pool_release. repeat break_match; grw. Qed.
#[local] Hint Resolve grows_pool_release : grown.

Lemma grows_pool_destroy pid sid w : grows w (pool_destroy pid sid w).
Proof. unfold pool_destroy. repeat break_match; grw. Qed.
#[local] Hint Resolve grows_pool_destroy : grown.

Lemma grows_pool_done pid k err sid w : grows w (pool_done pid k err sid w).
Proof. unfold pool_done. repeat break_match; grw. Qed.
#[local] Hint Resolve grows_pool_done : grown.

Lemma grows_sockend name sid w : grows w (sockend name sid w).
Proof. unfold sockend. repeat break_match; grw. Qed.
#[local] Hint Resolve grows_sockend : grown.

Lemma grows_release_client sid port host local_addr error w :
  grows w (release_client sid port host local_addr error w).
Proof. unfold release_client. repeat break_match; grw. Qed.

Lemma grows_invoke cb err sid w : grows w (invoke cb err sid w).
Proof. destruct cb; simpl; grw. Qed.
#[local] Hint Resolve grows_invoke : grown.

Lemma grows_run_handler sid h arg w : grows w (run_handler sid h arg w).
Proof. destruct h; simpl; grw. Qed.

Lemma grows_get_pool port host local_addr is_unix_socket max w :
  grows w (get_pool port host local_addr is_unix_socket max w).2.
Proof. unfold get_pool. repeat break_match; cbn [snd]; grw. Qed.

(** *** The table, the pools and the sockets agree *)

Lemma named_grows w w' sid pid : grows w w' -> named w sid pid -> named w' sid pid.
Proof.
  intros [Hs Hp] (sk & p & Hsk & Hpp & Hn).
  destruct (Hs sid sk Hsk) as (sk' & Hsk' & Hn').
  destruct (Hp pid p Hpp) as (p' & Hpp' & Hpn').
  exists sk', p'. split; [done|]. split; [done | congruence].
Qed.

Lemma table_refers_grows w w' :
  notes_pool w' = notes_pool w -> grows w w' -> table_refers w -> table_refers w'.
Proof.
  intros Hn [_ Hp] H t key pid Ht Hk. rewrite Hn in Ht.
  destruct (H t key pid Ht Hk) as (p & Hpp & Hname).
  destruct (Hp pid p Hpp) as (p' & Hpp' & Hname'). exists p'. split; [done | congruence].
Qed.

Lemma connect_pool_is_connect h pid : connect_pool h = Some pid -> is_connect h = true.
Proof. by destruct h. Qed.

Lemma cons_same w w' :
  sockets w' = sockets w -> pools w' = pools w -> notes_pool w' = notes_pool w ->
  consistent w -> consistent w'.
Proof.
  intros Hs Hp Hn. unfold consistent, table_refers, named, lookup_pool.
  by rewrite Hs, Hp, Hn.
Qed.

Lemma cons_upd_sock sid f w :
  keeps_cons f -> consistent w -> consistent (upd_sock sid f w).
Proof.
  intros Hf (HT & HR & HB & HA).
  assert (Hg : grows w (upd_sock sid f w)).
  { apply grows_upd_sock. intros s. apply Hf. }
  split; [exact HT|]. split; [by apply (table_refers_grows w)|]. split.
  - intros pid p sid' Hp Hin. apply (named_grows w); [exact Hg|]. by apply (HB pid p).
  - intros sid' sk' l pid Hsk' Hl Hc. apply (named_grows w); [exact Hg|].
    destruct (decide (sid = sid')) as [<-|Hne].
    + rewrite lookup_upd_sock in Hsk'.
      destruct (sockets w !! sid) as [sk|] eqn:Hsk; [|discriminate].
      injection Hsk' as <-. apply (HA sid sk l pid); [done| |done].
      apply Hf; [exact Hl | by eapply connect_pool_is_connect].
    + rewrite lookup_upd_sock_ne in Hsk' by done. by apply (HA sid' sk' l pid).
Qed.

Lemma cons_upd_pool pid f w :
  (forall p, pools w !! pid = Some p ->
     p_name (f p) = p_name p /\
     forall sid, in_pool sid (f p) = true -> in_pool sid p = true) ->
  consistent w -> consistent (upd_pool pid f w).
Proof.
  intros Hf (HT & HR & HB & HA).
  assert (Hg : grows w (upd_pool pid f w)).
  { split; [intros sid sk H; by exists sk|].
    intros pid' p Hp. destruct (decide (pid = pid')) as [<-|Hne].
    - exists (f p). rewrite lookup_upd_pool, Hp. split; [reflexivity | by apply Hf].
    - exists p. by rewrite lookup_upd_pool_ne. }
  split; [|split; [by apply (table_refers_grows w)|split]].
  - intros pid' p' Hp'. change (lookup_pool (Some (p_name p')) w = Some pid').
    destruct (decide (pid = pid')) as [<-|Hne].
    + rewrite lookup_upd_pool in Hp'.
      destruct (pools w !! pid) as [p|] eqn:Hp; [|discriminate].
      injection Hp' as <-. rewrite (proj1 (Hf p eq_refl)). by apply HT.
    + rewrite lookup_upd_pool_ne in Hp' by done. by apply HT.
  - intros pid' p' sid Hp' Hin. apply (named_grows w); [exact Hg|].
    destruct (decide (pid = pid')) as [<-|Hne].
    + rewrite lookup_upd_pool in Hp'.
      destruct (pools w !! pid) as [p|] eqn:Hp; [|discriminate].
      injection Hp' as <-. apply (HB pid p); [done|]. by apply (Hf p).
    + rewrite lookup_upd_pool_ne in Hp' by done. by apply (HB pid' p').
  - intros sid sk l pid' Hsk Hl Hc. apply (named_grows w); [exact Hg|].
    by apply (HA sid sk l pid').
Qed.

(** The pool's [done] takes a socket in: one created for that pool. *)
Lemma cons_add_busy pid sid w :
  named w sid pid -> consistent w ->
  consistent (upd_pool pid (fun p => set_busy (p_busy p ++ [sid]) p) w).
Proof.
  intros Hn (HT & HR & HB & HA).
  assert (Hg : grows w (upd_pool pid (fun p => set_busy (p_busy p ++ [sid]) p) w)).
  { apply grows_upd_pool. intros p. by destruct p. }
  split; [|split; [by apply (table_refers_grows w)|split]].
  - intros pid' p' Hp'.
    change (lookup_pool (Some (p_name p')) w = Some pid').
    destruct (decide (pid = pid')) as [<-|Hne].
    + rewrite lookup_upd_pool in Hp'.
      destruct (pools w !! pid) as [p|] eqn:Hp; [|discriminate].
      injection Hp' as <-. exact (HT pid p Hp).
    + rewrite lookup_upd_pool_ne in Hp' by done. by apply HT.
  - intros pid' p' sid' Hp' Hin. apply (named_grows w); [exact Hg|].
    destruct (decide (pid = pid')) as [<-|Hne].
    + rewrite lookup_upd_pool in Hp'.
      destruct (pools w !! pid) as [p|] eqn:Hp; [|discriminate].
      injection Hp' as <-. unfold in_pool in Hin. cbn [p_idle p_busy set_busy] in Hin.
      rewrite existsb_app in Hin. simpl in Hin. rewrite orb_false_r in Hin.
      apply orb_true_iff in Hin as [Hin|Hin];
        [|apply orb_true_iff in Hin as [Hin|Hin]].
      * apply (HB pid p); [done|]. unfold in_pool. by rewrite Hin.
      * apply (HB pid p); [done|]. unfold in_pool. by rewrite Hin, orb_true_r.
      * apply Nat.eqb_eq in Hin as ->. exact Hn.
    + rewrite lookup_upd_pool_ne in Hp' by done. by apply (HB pid' p').
  - intros sid' sk l pid' Hsk Hl Hc. apply (named_grows w); [exact Hg|].
    by apply (HA sid' sk l pid').
Qed.

Lemma cons_create_socket pool_name port host local_addr is_unix_socket cb w :
  (forall pid, connect_pool (on_connect cb) = Some pid ->
     exists p, pools w !! pid = Some p /\ pool_name = Some (p_name p)) ->
  consistent w ->
  consistent (_create_socket pool_name port host local_addr is_unix_socket cb w).
Proof.
  intros Hcb (HT & HR & HB & HA).
  pose proof (grows_create_socket pool_name port host local_addr is_unix_socket cb w)
    as Hg.
  destruct (create_socket_frame pool_name port host local_addr is_unix_socket cb w)
    as (Hpools & Hnp & _).
  split; [|split; [by apply (table_refers_grows w)|split]].
  - intros pid p Hp. rewrite Hpools in Hp. unfold lookup_pool. rewrite Hnp.
    by apply HT.
  - intros pid p sid Hp Hin. rewrite Hpools in Hp. apply (named_grows w); [exact Hg|].
    by apply (HB pid p).
  - intros sid sk l pid Hsk Hl Hc. rewrite create_socket_sockets in Hsk.
    apply lookup_app_Some in Hsk as [Hsk | [Hge Hsk]].
    + apply (named_grows w); [exact Hg|]. by apply (HA sid sk l pid).
    + destruct (sid - length (sockets w))%nat eqn:E; [|by destruct n].
      injection Hsk as <-. cbn in Hl.
      destruct Hl as [<-|[<-|[<-|[]]]]; try discriminate Hc.
      destruct (Hcb pid Hc) as (p & Hp & ->).
      eexists _, p. rewrite create_socket_sockets, Hpools.
      assert (sid = length (sockets w)) as -> by lia.
      split; [by apply list_lookup_middle|]. split; [exact Hp | reflexivity].
Qed.

Ltac cons_tac :=
  let s := fresh "s" in let l := fresh "l" in
  intros s; destruct s; split; [reflexivity|]; cbn; intros l Hl Hc;
  try done;
  try (by apply filter_In in Hl as [? _]);
  try (apply in_app_or in Hl as [Hl|[<-|[]]]; [assumption | simpl in Hc; congruence]).

Lemma cons_set_acquired b : keeps_cons (set_acquired b).
Proof. cons_tac. Qed.
Lemma cons_set_fromPool b : keeps_cons (set_fromPool b).
Proof. cons_tac. Qed.
Lemma cons_set_writable b : keeps_cons (set_writable b).
Proof. cons_tac. Qed.
Lemma cons_drop_once ev : keeps_cons (drop_once ev).
Proof. cons_tac. Qed.
Lemma cons_removeAllListenersOf ev : keeps_cons (removeAllListenersOf ev).
Proof. cons_tac. Qed.
Lemma cons_strip_listeners_inline :
  keeps_cons (fun s => removeAllListenersOf ev_line
                         (removeAllListenersOf ev_timeout
                            (removeAllListenersOf ev_end
                               (removeAllListenersOf ev_error
                                  (removeAllListenersOf ev_close s))))).
Proof.
  intros s. split; [by destruct s|]. intros l Hl Hc.
  repeat (apply cons_removeAllListenersOf in Hl; [|exact Hc]). exact Hl.
Qed.
Lemma cons_sock_once ev h : is_connect h = false -> keeps_cons (sock_once ev h).
Proof. intros Hh. cons_tac. Qed.
Lemma cons_sock_on ev h : is_connect h = false -> keeps_cons (sock_on ev h).
Proof. intros Hh. cons_tac. Qed.
Lemma cons_sock_end : keeps_cons sock_end.
Proof. cons_tac. Qed.
Lemma cons_sock_destroy : keeps_cons sock_destroy.
Proof. cons_tac. Qed.
Lemma cons_direct_close : keeps_cons (fun s => sock_destroy (removeAllListeners s)).
Proof. cons_tac. Qed.
Lemma cons_destroy_socket : keeps_cons destroy_socket.
Proof.
  intros s. split; [by destruct s as [c n i a f [] ls os]|].
  rewrite destroy_socket_listeners. intros l [<-|[<-|[<-|[]]]]; discriminate.
Qed.

Create HintDb conss discriminated.
#[local] Hint Resolve cons_set_acquired cons_set_fromPool cons_set_writable
  cons_drop_once cons_removeAllListenersOf cons_strip_listeners_inline
  cons_sock_once cons_sock_on cons_sock_end cons_sock_destroy
  cons_direct_close cons_destroy_socket : conss.
#[local] Hint Extern 1 (is_connect _ = false) => reflexivity : conss.

(** *** Pool mutations *)

Lemma existsb_lfilter_true {A} (f : A -> bool) (P : A -> Prop)
    `{!forall x, Decision (P x)} (l : list A) :
  existsb f (filter P l) = true -> existsb f l = true.
Proof.
  intros Hf. destruct (existsb f l) eqn:E; [reflexivity|].
  by rewrite (existsb_lfilter f P l E) in Hf.
Qed.

Lemma existsb_eqb_In sid l : In sid l -> existsb (Nat.eqb sid) l = true.
Proof.
  intros H. apply existsb_exists. exists sid. split; [exact H | apply Nat.eqb_refl].
Qed.

Lemma members_take sid p :
  In sid (p_idle p) ->
  forall sid', in_pool sid' (set_busy (p_busy p ++ [sid])
                              (set_idle (filter (fun x => x <> sid) (p_idle p)) p)) = true ->
               in_pool sid' p = true.
Proof.
  intros Hin sid'. unfold in_pool. cbn [p_idle p_busy set_busy set_idle].
  rewrite existsb_app. simpl. rewrite orb_false_r.
  intros [H|[H|H]%orb_true_iff]%orb_true_iff.
  - by rewrite (existsb_lfilter_true _ _ _ H).
  - by rewrite H, orb_true_r.
  - apply Nat.eqb_eq in H as ->. by rewrite existsb_eqb_In.
Qed.

Lemma members_give_back sid p :
  In sid (p_busy p) ->
  forall sid', in_pool sid' (set_idle (p_idle p ++ [sid])
                              (set_busy (filter (fun x => x <> sid) (p_busy p)) p)) = true ->
               in_pool sid' p = true.
Proof.
  intros Hin sid'. unfold in_pool. cbn [p_idle p_busy set_busy set_idle].
  rewrite existsb_app. simpl. rewrite orb_false_r.
  intros [[H|H]%orb_true_iff|H]%orb_true_iff.
  - by rewrite H.
  - apply Nat.eqb_eq in H as ->. by rewrite (existsb_eqb_In _ (p_busy p)), orb_true_r.
  - by rewrite (existsb_lfilter_true _ _ _ H), orb_true_r.
Qed.

Lemma members_drop sid p :
  forall sid', in_pool sid' (set_busy (filter (fun x => x <> sid) (p_busy p))
                              (set_idle (filter (fun x => x <> sid) (p_idle p)) p)) = true ->
               in_pool sid' p = true.
Proof.
  intros sid'. unfold in_pool. cbn [p_idle p_busy set_busy set_idle].
  intros [H|H]%orb_true_iff; rewrite (existsb_lfilter_true _ _ _ H);
    [reflexivity | apply orb_true_r].
Qed.

(** *** The operations *)

Ltac cns :=
  repeat first
    [ assumption
    | apply cons_upd_sock; [solve [auto with conss] |]
    | match goal with
      | |- consistent (add_log _ ?x) => apply (cons_same x); [reflexivity..|]
      | |- consistent (add_call _ ?x) => apply (cons_same x); [reflexivity..|]
      | |- consistent (upd_pool _ (set_waiters _) _) =>
          apply cons_upd_pool; [intros ? _; by split|]
      | |- consistent (upd_pool _ (fun p => set_waiters (p_waiters p ++ _) p) _) =>
          apply cons_upd_pool; [intros ? _; by split|]
      end ].

Lemma cons_factory_destroy p sid w :
  consistent w -> consistent (factory_destroy p sid w).
Proof. intros H. unfold factory_destroy. repeat break_match; cns. Qed.

Lemma cons_acquire_cb k err sid w :
  consistent w -> consistent (acquire_cb k err sid w).
Proof. intros H. unfold acquire_cb. repeat break_match; cns. Qed.

Lemma cons_factory_create pid p k w :
  pools w !! pid = Some p -> consistent w -> consistent (factory_create pid p k w).
Proof.
  intros Hp H. unfold factory_create. apply cons_create_socket; [|exact H].
  intros pid' [= <-]. by exists p.
Qed.

Lemma cons_pool_serve pid w : consistent w -> consistent (pool_serve pid w).
Proof.
  intros H. unfold pool_serve.
  destruct (pools w !! pid) as [p|] eqn:Hp; [|assumption].
  destruct (p_waiters p) as [|k ws]; [assumption|].
  break_match; [|assumption].
  destruct (grows_upd_pool pid (set_waiters ws) w) as [_ Hg]; [by intros []|].
  destruct (Hg pid p Hp) as (p' & Hp' & Hn).
  unfold factory_create. apply cons_create_socket; [|cns].
  intros pid' [= <-]. exists p'. split; [exact Hp' | by rewrite Hn].
Qed.

Lemma cons_pool_acquire pid k w : consistent w -> consistent (pool_acquire pid k w).
Proof.
  intros H. unfold pool_acquire.
  destruct (pools w !! pid) as [p|] eqn:Hp; [|assumption].
  destruct (List.find (valid_in w) (p_idle p)) as [sid|] eqn:Hfind.
  - apply find_some in Hfind as [Hin _]. apply cons_acquire_cb.
    apply cons_upd_pool; [|exact H].
    intros p0 Hp0. rewrite Hp in Hp0. injection Hp0 as <-.
    split; [reflexivity | by apply members_take].
  - break_match; [by apply cons_factory_create | cns].
Qed.

Lemma cons_pool_release pid sid w : consistent w -> consistent (pool_release pid sid w).
Proof.
  intros H. unfold pool_release.
  destruct (pools w !! pid) as [p|] eqn:Hp; [|assumption].
  destruct (bool_decide_reflect (sid ∈ p_busy p)) as [Hin|]; [|assumption].
  destruct (p_waiters p) as [|k ws].
  - apply cons_upd_pool; [|exact H].
    intros p0 Hp0. rewrite Hp in Hp0. injection Hp0 as <-.
    split; [reflexivity|]. apply members_give_back. by apply list_elem_of_In.
  - apply cons_acquire_cb. cns.
Qed.

Lemma cons_pool_destroy pid sid w : consistent w -> consistent (pool_destroy pid sid w).
Proof.
  intros H. unfold pool_destroy. break_match; [|assumption].
  apply cons_pool_serve, cons_factory_destroy.
  apply cons_upd_pool; [|exact H].
  intros p0 _. split; [reflexivity | apply members_drop].
Qed.

Lemma cons_pool_done pid k err sid w :
  (err = None -> named w sid pid) ->
  consistent w -> consistent (pool_done pid k err sid w).
Proof.
  intros Hn H. unfold pool_done. break_match; [|assumption].
  destruct err as [e|].
  - by apply cons_pool_serve, cons_acquire_cb.
  - apply cons_acquire_cb, cons_add_busy; [by apply Hn | exact H].
Qed.

Lemma cons_sockend name sid w : consistent w -> consistent (sockend name sid w).
Proof.
  intros H. unfold sockend. break_match; [apply cons_pool_destroy|]; cns.
Qed.

Lemma cons_release_client sid port host local_addr error w :
  consistent w -> consistent (release_client sid port host local_addr error w).
Proof.
  intros H. unfold release_client.
  repeat break_match; try apply cons_sockend; try apply cons_pool_release; cns.
Qed.

Lemma cons_invoke cb err sid w :
  (err = None -> forall pid, connect_pool (on_connect cb) = Some pid -> named w sid pid) ->
  consistent w -> consistent (invoke cb err sid w).
Proof.
  intros Hn H. destruct cb as [k|pid k]; simpl; [cns|].
  apply cons_pool_done; [|exact H]. intros He. by apply Hn.
Qed.

Lemma cons_run_handler sid h arg w :
  (forall pid, connect_pool h = Some pid -> named w sid pid) ->
  consistent w -> consistent (run_handler sid h arg w).
Proof.
  intros Hn H. destruct h; simpl; try apply cons_sockend; cns.
  - apply cons_invoke; [|cns]. intros _ pid Hc.
    eapply named_grows; [|by apply Hn]. grw.
  - apply cons_invoke; [discriminate | cns].
  - apply cons_invoke; [discriminate | cns].
Qed.

Lemma cons_run_handlers sid hs arg w :
  (forall l pid, In l hs -> connect_pool (l_handler l) = Some pid -> named w sid pid) ->
  consistent w -> consistent (run_handlers sid hs arg w).
Proof.
  unfold run_handlers. revert w.
  induction hs as [|l hs IH]; intros w Hn H; simpl; [assumption|].
  apply IH.
  - intros l' pid Hl' Hc. apply (named_grows w); [apply grows_run_handler|].
    apply (Hn l' pid); [by right | exact Hc].
  - apply cons_run_handler; [|exact H]. intros pid Hc. apply (Hn l pid); [by left | exact Hc].
Qed.

Lemma cons_emit sid ev arg w : consistent w -> consistent (emit sid ev arg w).
Proof.
  intros H. unfold emit. destruct (sockets w !! sid) as [sk|] eqn:Hsk; [|assumption].
  apply cons_run_handlers; [|cns].
  intros l pid Hl Hc. apply (named_grows w); [grw|].
  destruct H as (_ & _ & _ & HA). apply (HA sid sk l pid Hsk); [|exact Hc].
  unfold fired in Hl. by apply filter_In in Hl as [? _].
Qed.

Lemma cons_get_pool port host local_addr is_unix_socket max w :
  consistent w ->
  consistent (get_pool port host local_addr is_unix_socket max w).2.
Proof.
  intros H.
  destruct (lookup_pool (Some (pool_key (or_port port) (or_host host) local_addr
                                        (pool_timeout (cfg w)))) w) as [pid|] eqn:Hl.
  - unfold lookup_pool in Hl. destruct (notes_pool w) as [t|] eqn:Ht; [|discriminate].
    simpl in Hl. by rewrite (get_pool_existing _ _ _ _ _ _ t pid Ht Hl).
  - rewrite get_pool_fresh by exact Hl. cbn [snd].
    set (name := pool_key (or_port port) (or_host host) local_addr (pool_timeout (cfg w))).
    fold name in Hl.
    set (w' := set_notes_pool _ _).
    assert (Hg : grows w w') by (unfold w'; grw).
    destruct H as (HT & HR & HB & HA). split; [|split; [|split]].
    + intros pid p Hp. unfold w' in Hp. cbn [pools set_pools set_notes_pool] in Hp.
      unfold lookup_pool, w'. cbn [notes_pool set_notes_pool key_of].
      apply lookup_app_Some in Hp as [Hp | [Hge Hp]].
      * pose proof (HT pid p Hp) as Hlk.
        destruct (decide (p_name p = name)) as [E|E]; [congruence|].
        rewrite lookup_insert_ne by done. unfold lookup_pool in Hlk.
        destruct (notes_pool w); [exact Hlk | discriminate].
      * destruct (pid - length (pools w))%nat eqn:E; [|by destruct n].
        injection Hp as <-. cbn [new_pool p_name]. fold name.
        rewrite lookup_insert_eq. f_equal. lia.
    + intros t key pid. unfold w'. cbn [notes_pool pools set_pools set_notes_pool].
      intros [= <-] Hk. destruct (decide (name = key)) as [<-|Hne].
      * rewrite lookup_insert_eq in Hk. injection Hk as <-.
        exists (new_pool port host local_addr is_unix_socket max w).
        split; [by apply list_lookup_middle | reflexivity].
      * rewrite lookup_insert_ne in Hk by done.
        destruct (notes_pool w) as [t0|] eqn:Ht0; simpl in Hk;
          [|by rewrite lookup_empty in Hk].
        destruct (HR t0 key pid Ht0 Hk) as (p & Hp & Hkey).
        exists p. split; [by apply lookup_app_l_Some | exact Hkey].
    + intros pid p sid Hp Hin. unfold w' in Hp. cbn [pools set_pools set_notes_pool] in Hp.
      apply lookup_app_Some in Hp as [Hp | [Hge Hp]].
      * apply (named_grows w); [exact Hg|]. by apply (HB pid p).
      * destruct (pid - length (pools w))%nat eqn:E; [|by destruct n].
        injection Hp as <-. discriminate Hin.
    + intros sid sk l pid Hsk Hl' Hc. apply (named_grows w); [exact Hg|].
      by apply (HA sid sk l pid).
Qed.

Lemma cons_get_client port host local_addr is_unix_socket k w :
  consistent w -> consistent (get_client port host local_addr is_unix_socket k w).
Proof.
  intros H. unfold get_client. break_match.
  { apply cons_create_socket; [discriminate | exact H]. }
  pose proof (cons_get_pool port host local_addr is_unix_socket
                (pool_concurrency_max (cfg w)) w H) as H1.
  destruct (get_pool port host local_addr is_unix_socket
              (pool_concurrency_max (cfg w)) w) as [pid w1].
  cbn [snd] in H1.
  repeat break_match; try exact H1; try (by apply cons_pool_acquire); cns.
Qed.

Lemma cons_step a w : consistent w -> consistent (step a w).
Proof.
  intros H. destruct a; simpl.
  - by apply cons_get_client.
  - by apply cons_release_client.
  - by apply cons_emit.
  - cns.
  - cns.
Qed.

Lemma cons_run l w : consistent w -> consistent (run l w).
Proof.
  revert w. induction l as [|a l IH]; intros w H; simpl; [assumption|].
  by apply IH, cons_step.
Qed.

Lemma cons_init c : consistent (init c).
Proof.
  split; [|split; [|split]].
  - intros pid p H. discriminate H.
  - intros t key pid H. discriminate H.
  - intros pid p sid H. discriminate H.
  - intros sid sk l pid H. discriminate H.
Qed.

(** *** Teardown retires the socket *)

Lemma out_of_pools_intro w sid :
  (forall pid p, pools w !! pid = Some p -> in_pool sid p = false) ->
  out_of_pools w sid = true.
Proof.
  intros H. unfold out_of_pools. apply forallb_forall. intros p Hin.
  apply list_elem_of_In, list_elem_of_lookup in Hin as [pid Hp].
  by rewrite (H pid p Hp).
Qed.

Lemma existsb_eqb_filter sid l :
  existsb (Nat.eqb sid) (filter (fun x => x <> sid) l) = false.
Proof.
  induction l as [|x l IH]; [reflexivity|]. rewrite filter_cons.
  destruct (decide (x <> sid)) as [Hne|_]; [|exact IH].
  simpl. rewrite IH, orb_false_r. apply Nat.eqb_neq. congruence.
Qed.

(** A pool that has the socket is the one the socket's name leads to. *)
Lemma member_of_own_pool w sid sk pid p :
  consistent w -> sockets w !! sid = Some sk ->
  pools w !! pid = Some p -> in_pool sid p = true ->
  lookup_pool (s_pool_name sk) w = Some pid.
Proof.
  intros (HT & _ & HB & _) Hsk Hp Hin.
  destruct (HB pid p sid Hp Hin) as (sk' & p' & Hsk' & Hp' & Hn).
  rewrite Hsk in Hsk'. injection Hsk' as <-. rewrite Hp in Hp'. injection Hp' as <-.
  rewrite Hn. by apply HT.
Qed.

(** [sockend] leaves the socket out of service and out of every pool,
    and calls nobody back. *)
Lemma sockend_retires w sid sk :
  consistent w -> sockets w !! sid = Some sk ->
  retired (sockend (s_pool_name sk) sid w) sid /\
  calls (sockend (s_pool_name sk) sid w) = calls w.
Proof.
  intros Hc Hsk. unfold sockend.
  set (w0 := upd_sock sid (set_fromPool false) w).
  assert (Hsk0 : sockets w0 !! sid = Some (set_fromPool false sk))
    by (unfold w0; by rewrite lookup_upd_sock, Hsk).
  assert (Hl0 : lookup_pool (s_pool_name sk) w0 = lookup_pool (s_pool_name sk) w)
    by reflexivity.
  rewrite Hl0.
  destruct (lookup_pool (s_pool_name sk) w) as [pid|] eqn:Hl.
  - assert (Hp : exists p, pools w !! pid = Some p).
    { destruct Hc as (_ & HR & _). unfold lookup_pool in Hl.
      destruct (notes_pool w) as [t|] eqn:Ht; [|discriminate].
      destruct (HR t _ pid Ht Hl) as (p & Hp & _). by exists p. }
    destruct Hp as [p Hp]. split; [|by rewrite pool_destroy_calls].
    unfold pool_destroy. cbn [pools w0 upd_sock set_sockets]. rewrite Hp. split.
    + exists (destroy_socket (set_fromPool false sk)).
      split; [|apply destroy_socket_out].
      apply pool_serve_lookup, factory_destroy_lookup. exact Hsk0.
    + apply out_of_pools_intro. intros pid' p' Hp'.
      apply pool_serve_pools in Hp' as (p0 & Hp0 & Hi & Hb & _).
      rewrite factory_destroy_pools in Hp0.
      unfold in_pool. rewrite Hi, Hb.
      destruct (decide (pid = pid')) as [<-|Hne].
      * rewrite lookup_upd_pool in Hp0. cbn [pools w0 upd_sock set_sockets] in Hp0.
        rewrite Hp in Hp0. injection Hp0 as <-. cbn [p_idle p_busy set_busy set_idle].
        by rewrite !existsb_eqb_filter.
      * rewrite lookup_upd_pool_ne in Hp0 by done.
        cbn [pools w0 upd_sock set_sockets] in Hp0.
        destruct (in_pool sid p0) eqn:Hin; [|exact Hin].
        pose proof (member_of_own_pool w sid sk pid' p0 Hc Hsk Hp0 Hin). congruence.
  - split; [|reflexivity]. split.
    + eexists. rewrite lookup_upd_sock, Hsk0. split; [reflexivity|].
      split; [by destruct sk | constructor].
    + apply out_of_pools_intro. intros pid' p' Hp'.
      cbn [pools w0 upd_sock set_sockets] in Hp'.
      destruct (in_pool sid p') eqn:Hin; [|reflexivity].
      pose proof (member_of_own_pool w sid sk pid' p' Hc Hsk Hp' Hin). congruence.
Qed.

Lemma sockend_quiet w sid sk l :
  consistent w -> sockets w !! sid = Some sk ->
  let w2 := run l (sockend (s_pool_name sk) sid w) in
  existsb (hands sid) (drop (length (calls w)) (calls w2)) = false /\
  out_of_pools w2 sid = true /\ unwritable w2 sid /\ valid_in w2 sid = false.
Proof.
  intros Hc Hsk w2. destruct (sockend_retires w sid sk Hc Hsk) as [Hr Hcalls].
  destruct (quiet_run sid l _ _ (quiet_refl _ _ Hr))
    as [[(sk2 & Hsk2 & Hw2 & _) Hout2] (extra & He & Hh)].
  fold w2 in Hsk2, Hout2, He. rewrite He, Hcalls, drop_app_length.
  assert (Hu : unwritable w2 sid) by by exists sk2.
  split; [exact Hh|]. split; [exact Hout2|]. split; [exact Hu|].
  by apply unwritable_not_valid.
Qed.

(** C9 (amended): validation asks for both the pool-membership flag and
    a writable transport, and what [get_client] hands to a callback
    before it returns, which is what the pool takes from its idle
    connections, has passed it; a normal release sets the flag on the
    socket it then hands to the pool's release; teardown clears the flag
    and half-closes the transport, after which, whatever the module is
    made to do, the transport is never writable again, so the socket
    never passes validation again and no [get_client] hands it out before
    returning.  Where the table, the pools and the sockets agree, as
    they do in every world reachable from process start, a socket that
    [sockend] has run on is in no pool's idle or busy connections, stays
    out of them, and no callback at all is handed it again; so it is
    after every release that takes the error or the zero-timeout path. *)
Theorem torn_down_never_valid_again :
  (forall sk, validate sk = s_fromPool sk && s_writable sk) /\
  (forall port host local_addr is_unix_socket k w sid,
     existsb (hands sid)
             (drop (length (calls w))
                   (calls (get_client port host local_addr is_unix_socket k w))) = true ->
     valid_in w sid = true /\
     exists pid p, pools w !! pid = Some p /\ In sid (p_idle p)) /\
  (forall sid port host local_addr w sk pid,
     sockets w !! sid = Some sk -> s_acquired sk = true -> pooled_release sk w ->
     lookup_pool (s_pool_name sk) w = Some pid -> pool_timeout (cfg w) <> 0 ->
     exists w2 sk2,
       release_client sid port host local_addr false w = pool_release pid sid w2 /\
       sockets w2 !! sid = Some sk2 /\ s_fromPool sk2 = true) /\
  (forall p sid w sk,
     sockets w !! sid = Some sk ->
     (exists sk0, sockets (factory_destroy p sid w) !! sid = Some sk0 /\
                  s_fromPool sk0 = false /\ s_writable sk0 = false /\
                  validate sk0 = false /\ last (s_ops sk0) = Some op_end) /\
     forall l,
       let w1 := run l (factory_destroy p sid w) in
       unwritable w1 sid /\ valid_in w1 sid = false /\
       forall port host local_addr is_unix_socket k,
         existsb (hands sid)
                 (drop (length (calls w1))
                       (calls (get_client port host local_addr is_unix_socket k w1)))
         = false) /\
  (forall c l, consistent (run l (init c))) /\
  (forall w sid sk,
     consistent w -> sockets w !! sid = Some sk ->
     forall l,
       let w2 := run l (sockend (s_pool_name sk) sid w) in
       existsb (hands sid) (drop (length (calls w)) (calls w2)) = false /\
       out_of_pools w2 sid = true /\ unwritable w2 sid /\ valid_in w2 sid = false) /\
  (forall c l0 sid port host local_addr error sk pid,
     let w := run l0 (init c) in
     sockets w !! sid = Some sk -> s_acquired sk = true -> pooled_release sk w ->
     lookup_pool (s_pool_name sk) w = Some pid ->
     error = true \/ pool_timeout (cfg w) = 0 ->
     forall l,
       let w2 := run l (release_client sid port host local_addr error w) in
       existsb (hands sid) (drop (length (calls w)) (calls w2)) = false /\
       out_of_pools w2 sid = true /\ unwritable w2 sid /\ valid_in w2 sid = false).
Proof.
  split; [reflexivity|]. split; [|split; [|split; [|split; [|split]]]].
  - apply get_client_hands_valid.
  - intros sid port host local_addr w sk pid Hsk Hacq Hby Hpid Hnz.
    rewrite (release_client_pooled _ _ _ _ _ _ sk pid) by done. cbv zeta.
    destruct (Z.eqb_spec (pool_timeout (cfg w)) 0) as [|_]; [done|].
    eexists _, _. split; [reflexivity|].
    cbn [sockets upd_sock set_sockets add_log].
    rewrite !list_lookup_alter_eq, Hsk. split; reflexivity.
  - intros p sid w sk Hsk.
    assert (H0 : sockets (factory_destroy p sid w) !! sid = Some (destroy_socket sk))
      by by apply factory_destroy_lookup.
    destruct (destroy_socket_flags sk) as [Hf Hw].
    split.
    + exists (destroy_socket sk). split; [exact H0|]. split; [exact Hf|].
      split; [exact Hw|]. split; [unfold validate; by rewrite Hf|].
      rewrite destroy_socket_ops, app_assoc. apply last_snoc.
    + intros l w1.
      assert (Hu : unwritable w1 sid).
      { apply unwritable_run. by exists (destroy_socket sk). }
      pose proof (unwritable_not_valid _ _ Hu) as Hnv.
      split; [exact Hu|]. split; [exact Hnv|].
      intros port host local_addr is_unix_socket k.
      destruct (existsb (hands sid) _) eqn:E; [|reflexivity].
      apply get_client_hands_valid in E as [E _]. congruence.
  - intros c l. apply cons_run, cons_init.
  - intros w sid sk Hc Hsk l. by apply sockend_quiet.
  - intros c l0 sid port host local_addr error sk pid w Hsk Hacq Hby Hpid Hpath l.
    rewrite (release_client_pooled _ _ _ _ _ _ sk pid) by done. cbv zeta.
    assert (Hc : consistent w) by apply cons_run, cons_init.
    set (w1 := upd_sock sid (set_acquired false)
                 (add_log (log_release_client (s_sock_idx sk) host port local_addr) w)).
    assert (Hc1 : consistent w1) by (unfold w1; cns).
    assert (Hsk1 : sockets w1 !! sid = Some (set_acquired false sk)).
    { unfold w1. rewrite lookup_upd_sock. cbn [sockets add_log]. by rewrite Hsk. }
    assert (Hn : s_pool_name (set_acquired false sk) = s_pool_name sk) by by destruct sk.
    rewrite <- Hn.
    destruct error.
    + apply (sockend_quiet w1 sid _ l Hc1 Hsk1).
    + destruct Hpath as [|Hz]; [discriminate|]. rewrite Hz. cbn [Z.eqb].
      apply (sockend_quiet (add_log log_timeout_zero w1) sid _ l); [cns | exact Hsk1].
Qed.

Lemma torn_down_never_valid_again_witness :
  let w := run [do_get_client (Some 25) (Some "mx.example.com"%string) None false 1%nat;
                do_emit 0%nat ev_connect ""%string;
                do_release_client 0 (Some 25) (Some "mx.example.com"%string) None false;
                do_get_client (Some 25) (Some "mx.example.com"%string) None false 2%nat;
                do_get_client (Some 25) (Some "mx.example.com"%string) None false 3%nat]
               (init (Config 30 30 1)) in
  let w2 := run [do_emit 1%nat ev_connect ""%string;
                 do_release_client 0 (Some 25) (Some "mx.example.com"%string) None false;
                 do_get_client (Some 25) (Some "mx.example.com"%string) None false 4%nat;
                 do_emit 0%nat ev_connect ""%string]
                (release_client 0 (Some 25) (Some "mx.example.com"%string) None true w) in
  existsb (hands 0) (drop (length (calls w)) (calls w2)) = false /\
  out_of_pools w2 0 = true /\ unwritable w2 0 /\ valid_in w2 0 = false.
Proof.
  destruct torn_down_never_valid_again as (_ & _ & _ & _ & _ & _ & H).
  apply (H (Config 30 30 1) _ 0%nat (Some 25) (Some "mx.example.com"%string) None true
           (set_acquired true released_socket) 0%nat);
    first [by left | vm_compute; reflexivity].
Defined.

(** C9 as stated gives the flag as the reason, and that fails: a caller
    is given the idle socket, the peer half-closes it, the pool's end
    listener tears it down, and the caller then releases it.  The
    release sets the flag again on the torn-down socket, which no pool
    holds; from then on validation turns it down for its transport
    alone. *)
Lemma torn_down_socket_flagged_again :
  let w := run [do_get_client (Some 25) (Some "mx.example.com"%string) None false 2%nat;
                do_emit 0%nat ev_end ""%string] released_world in
  let w' := release_client 0 (Some 25) (Some "mx.example.com"%string) None false w in
  (exists sk, sockets w !! 0%nat = Some sk /\
     s_ops sk = [op_setTimeout 30000; op_end] /\ s_listeners sk = teardown_listeners /\
     s_fromPool sk = false /\ s_writable sk = false /\ s_acquired sk = true) /\
  (exists sk', sockets w' !! 0%nat = Some sk' /\
     s_ops sk' = [op_setTimeout 30000; op_end] /\
     s_fromPool sk' = true /\ s_writable sk' = false /\ validate sk' = false) /\
  out_of_pools w' 0 = true.
Proof.
  cbv zeta. split; [|split].
  - eexists. split; [vm_compute; reflexivity|]. by repeat split.
  - eexists. split; [vm_compute; reflexivity|]. by repeat split.
  - vm_compute. reflexivity.
Qed.

(** ** Capacity *)

(** C8: the bound on idle plus busy connections is broken by a connect
    attempt that outlives its timeout.  On a pool of size one, the first
    factory call times out and its caller is told so; the connect
    listener that the timeout listener of [_create_socket] leaves
    registered later reports the same socket to the pool as a success,
    after a second caller has been given a factory call of its own: both
    sockets end up busy, two against a maximum of one, and the first
    caller has been called back twice. *)
Theorem late_connect_exceeds_max :
  let w := run late_connect_run (init (Config 30 30 1)) in
  exists p,
    pools w = [p] /\
    p_max p = effective_max (pool_concurrency_max (cfg w)) /\ p_max p = 1 /\
    p_idle p = [] /\ p_busy p = [0%nat; 1%nat] /\
    p_max p < Z.of_nat (length (p_idle p) + length (p_busy p)) /\
    calls w = [Call 1 (Some (connection_timed_out (Some "mx.example.com"%string) (Some 25))) None;
               Call 1 None (Some 0%nat);
               Call 2 None (Some 1%nat)].
Proof.
  cbv zeta. eexists. split; [vm_compute; reflexivity|].
  repeat split; vm_compute; reflexivity.
Qed.

(** * Further properties of the pool front end *)

(** ** The pool table as a map *)

(** [get_pool] is a get-or-create: whatever it returns for a destination
    it returns again, in an unchanged world, for any later call with the
    same port, host and local address, even one with a different
    [is_unix_socket] or [max]; the pool object keeps the unix-socket flag
    and the maximum of the call that created it. *)
Theorem get_pool_idempotent port host local_addr is_unix_socket max
    is_unix_socket' max' w :
  let r := get_pool port host local_addr is_unix_socket max w in
  get_pool port host local_addr is_unix_socket' max' r.2 = r /\
  lookup_pool (Some (pool_key (or_port port) (or_host host) local_addr
                              (pool_timeout (cfg w)))) r.2 = Some r.1.
Proof.
  intros r. subst r.
  destruct (lookup_pool (Some (pool_key (or_port port) (or_host host) local_addr
                                        (pool_timeout (cfg w)))) w) as [pid|] eqn:Hl.
  - pose proof Hl as Hl'. unfold lookup_pool in Hl'.
    destruct (notes_pool w) as [t|] eqn:Ht; [|discriminate]. simpl in Hl'.
    rewrite (get_pool_existing _ _ _ _ _ _ t pid Ht Hl'). cbn [fst snd].
    split; [by apply (get_pool_existing _ _ _ _ _ _ t pid) | exact Hl].
  - rewrite (get_pool_fresh port host local_addr is_unix_socket max w Hl).
    cbn [fst snd]. split.
    + eapply get_pool_existing; [reflexivity|]. cbn [cfg set_notes_pool set_pools].
      apply lookup_insert_eq.
    + unfold lookup_pool. cbn [notes_pool set_notes_pool key_of].
      apply lookup_insert_eq.
Qed.
(** ** Socket identity *)

Lemma idxs_app (n a b : nat) :
  idxs n (a + b) = idxs n a ++ idxs (idx_after n a) b /\
  idx_after n (a + b) = idx_after (idx_after n a) b.
Proof.
  revert n. induction a as [|a IH]; intros n; simpl; [done|].
  destruct (IH (next_idx n)) as [-> ->]. done.
Qed.

Lemma extends_refl w : extends w w.
Proof. exists []. by rewrite app_nil_r. Qed.

Lemma extends_trans w1 w2 w3 : extends w1 w2 -> extends w2 w3 -> extends w1 w3.
Proof.
  intros (e1 & H1 & S1 & C1) (e2 & H2 & S2 & C2). exists (e1 ++ e2).
  rewrite H2, H1, <- app_assoc. split; [reflexivity|].
  destruct (idxs_app (socket_idx w1) (length e1) (length e2)) as [Hi Ha].
  by rewrite fmap_app, length_app, S1, S2, C2, C1, Hi, Ha.
Qed.

Lemma extends_same w w' :
  ident <$> sockets w' = ident <$> sockets w -> socket_idx w' = socket_idx w ->
  extends w w'.
Proof. intros Hs Hc. exists []. by rewrite app_nil_r. Qed.

Lemma fmap_alter_ident (f : socket -> socket) (sid : nat) (l : list socket) :
  keeps_ident f -> ident <$> alter f sid l = ident <$> l.
Proof.
  intros Hf. revert sid. induction l as [|x l IH]; intros [|sid]; simpl; try done.
  - by rewrite Hf.
  - f_equal. apply IH.
Qed.

Lemma extends_upd_sock sid f w : keeps_ident f -> extends w (upd_sock sid f w).
Proof.
  intros Hf. apply extends_same; [|reflexivity].
  unfold upd_sock. simpl. by apply fmap_alter_ident.
Qed.

Lemma extends_create_socket pool_name port host local_addr is_unix_socket cb w :
  extends w (_create_socket pool_name port host local_addr is_unix_socket cb w).
Proof.
  eexists [_]. rewrite create_socket_sockets, fmap_app. split; [reflexivity|].
  split; reflexivity.
Qed.

Ltac ident_tac :=
  let s := fresh "s" in intros s; destruct s; reflexivity.

Lemma ident_set_acquired b : keeps_ident (set_acquired b).
Proof. ident_tac. Qed.
Lemma ident_set_fromPool b : keeps_ident (set_fromPool b).
Proof. ident_tac. Qed.
Lemma ident_set_writable b : keeps_ident (set_writable b).
Proof. ident_tac. Qed.
Lemma ident_drop_once ev : keeps_ident (drop_once ev).
Proof. ident_tac. Qed.
Lemma ident_removeAllListenersOf ev : keeps_ident (removeAllListenersOf ev).
Proof. ident_tac. Qed.
Lemma ident_strip_listeners : keeps_ident strip_listeners.
Proof. ident_tac. Qed.
Lemma ident_strip_listeners_inline :
  keeps_ident (fun s => removeAllListenersOf ev_line
                          (removeAllListenersOf ev_timeout
                             (removeAllListenersOf ev_end
                                (removeAllListenersOf ev_error
                                   (removeAllListenersOf ev_close s))))).
Proof. ident_tac. Qed.
Lemma ident_sock_once ev h : keeps_ident (sock_once ev h).
Proof. ident_tac. Qed.
Lemma ident_sock_on ev h : keeps_ident (sock_on ev h).
Proof. ident_tac. Qed.
Lemma ident_sock_end : keeps_ident sock_end.
Proof. ident_tac. Qed.
Lemma ident_sock_destroy : keeps_ident sock_destroy.
Proof. ident_tac. Qed.
Lemma ident_direct_close : keeps_ident (fun s => sock_destroy (removeAllListeners s)).
Proof. ident_tac. Qed.
Lemma ident_destroy_socket : keeps_ident destroy_socket.
Proof. intros s. destruct s as [c n i a f [] ls os]; reflexivity. Qed.

Create HintDb idents discriminated.
#[local] Hint Resolve ident_set_acquired ident_set_fromPool ident_set_writable
  ident_drop_once ident_removeAllListenersOf ident_strip_listeners
  ident_strip_listeners_inline ident_sock_once ident_sock_on ident_sock_end
  ident_sock_destroy ident_direct_close ident_destroy_socket : idents.

Create HintDb exts discriminated.

(** Chains of socket mutations and bookkeeping that create no socket. *)
Ltac ext :=
  repeat first
    [ apply extends_refl
    | apply extends_create_socket
    | match goal with
      | |- extends _ (upd_sock _ _ _) =>
          eapply extends_trans; [|apply extends_upd_sock; solve [auto with idents]]
      | |- extends ?a (add_log _ ?x) =>
          apply (extends_trans a x); [|apply extends_same; reflexivity]
      | |- extends ?a (add_call _ ?x) =>
          apply (extends_trans a x); [|apply extends_same; reflexivity]
      | |- extends ?a (upd_pool _ _ ?x) =>
          apply (extends_trans a x); [|apply extends_same; reflexivity]
      | |- extends ?a (set_pools _ ?x) =>
          apply (extends_trans a x); [|apply extends_same; reflexivity]
      | |- extends ?a (set_notes_pool _ ?x) =>
          apply (extends_trans a x); [|apply extends_same; reflexivity]
      | |- extends _ (_create_socket _ _ _ _ _ _ _) =>
          eapply extends_trans; [|apply extends_create_socket]
      | |- extends _ _ =>
          eapply extends_trans; [|solve [auto with exts]]
      end ].

Lemma extends_factory_destroy p sid w : extends w (factory_destroy p sid w).
Proof. unfold factory_destroy. repeat break_match; ext. Qed.
#[local] Hint Resolve extends_factory_destroy : exts.

Lemma extends_acquire_cb k err sid w : extends w (acquire_cb k err sid w).
Proof. unfold acquire_cb. repeat break_match; ext. Qed.
#[local] Hint Resolve extends_acquire_cb : exts.

Lemma extends_pool_serve pid w : extends w (pool_serve pid w).
Proof. unfold pool_serve, factory_create. repeat break_match; ext. Qed.
#[local] Hint Resolve extends_pool_serve : exts.

Lemma extends_pool_acquire pid k w : extends w (pool_acquire pid k w).
Proof. unfold pool_acquire, factory_create. repeat break_match; ext. Qed.
#[local] Hint Resolve extends_pool_acquire : exts.

Lemma extends_pool_release pid sid w : extends w (pool_release pid sid w).
Proof. unfold pool_release. repeat break_match; ext. Qed.
#[local] Hint Resolve extends_pool_release : exts.

Lemma extends_pool_destroy pid sid w : extends w (pool_destroy pid sid w).
Proof. unfold pool_destroy. repeat break_match; ext. Qed.
#[local] Hint Resolve extends_pool_destroy : exts.

Lemma extends_pool_done pid k err sid w : extends w (pool_done pid k err sid w).
Proof. unfold pool_done. repeat break_match; ext. Qed.
#[local] Hint Resolve extends_pool_done : exts.

Lemma extends_sockend name sid w : extends w (sockend name sid w).
Proof. unfold sockend. repeat break_match; ext. Qed.
#[local] Hint Resolve extends_sockend : exts.

Lemma extends_release_client sid port host local_addr error w :
  extends w (release_client sid port host local_addr error w).
Proof. unfold release_client. repeat break_match; ext. Qed.

Lemma extends_invoke cb err sid w : extends w (invoke cb err sid w).
Proof. destruct cb; simpl; ext. Qed.
#[local] Hint Resolve extends_invoke : exts.

Lemma extends_run_handler sid h arg w : extends w (run_handler sid h arg w).
Proof. destruct h; simpl; ext. Qed.

Lemma extends_run_handlers sid hs arg w : extends w (run_handlers sid hs arg w).
Proof.
  unfold run_handlers. revert w.
  induction hs as [|l hs IH]; intros w; simpl; [apply extends_refl|].
  eapply extends_trans; [apply extends_run_handler | apply IH].
Qed.

Lemma extends_emit sid ev arg w : extends w (emit sid ev arg w).
Proof.
  unfold emit. break_match; [|apply extends_refl].
  eapply extends_trans; [|apply extends_run_handlers]. ext.
Qed.

Lemma extends_get_pool port host local_addr is_unix_socket max w :
  extends w (get_pool port host local_addr is_unix_socket max w).2.
Proof. unfold get_pool. repeat break_match; simpl; ext. Qed.

Lemma extends_get_client port host local_addr is_unix_socket k w :
  extends w (get_client port host local_addr is_unix_socket k w).
Proof.
  unfold get_client. break_match; [ext|].
  pose proof (extends_get_pool port host local_addr is_unix_socket
                (pool_concurrency_max (cfg w)) w) as H1.
  destruct (get_pool port host local_addr is_unix_socket
              (pool_concurrency_max (cfg w)) w) as [pid w1].
  cbn [snd] in H1.
  repeat break_match; try exact H1; (eapply extends_trans; [exact H1|]); ext.
Qed.

Lemma extends_step a w : extends w (step a w).
Proof.
  destruct a; simpl.
  - apply extends_get_client.
  - apply extends_release_client.
  - apply extends_emit.
  - ext.
  - ext.
Qed.

Lemma extends_run l w : extends w (run l w).
Proof.
  revert w. induction l as [|a l IH]; intros w; [apply extends_refl|].
  change (run (a :: l) w) with (run l (step a w)).
  eapply extends_trans; [apply extends_step | apply IH].
Qed.

Lemma extends_lookup w w' sid sk :
  extends w w' -> sockets w !! sid = Some sk ->
  exists sk', sockets w' !! sid = Some sk' /\ ident sk' = ident sk.
Proof.
  intros (extra & He & _ & _) Hsk.
  assert (H : (ident <$> sockets w') !! sid = Some (ident sk)).
  { rewrite He. apply lookup_app_l_Some. by rewrite list_lookup_fmap, Hsk. }
  rewrite list_lookup_fmap in H.
  destruct (sockets w' !! sid) as [sk'|]; [|discriminate].
  exists sk'. split; [reflexivity|]. simpl in H. congruence.
Qed.

Lemma next_idx_limit (n m : nat) :
  Z.of_nat n = Z.min (Z.of_nat m) idx_limit ->
  Z.of_nat (next_idx n) = Z.min (Z.of_nat (S m)) idx_limit.
Proof.
  unfold next_idx, idx_limit. intros H.
  destruct (Z.ltb_spec (Z.of_nat n) 9007199254740992); lia.
Qed.

Lemma idxs_limit (n m k : nat) :
  Z.of_nat n = Z.min (Z.of_nat m) idx_limit ->
  Z.of_nat (idx_after n k) = Z.min (Z.of_nat (m + k)) idx_limit /\
  forall i x, idxs n k !! i = Some x ->
    Z.of_nat x = Z.min (Z.of_nat (S (m + i))) idx_limit.
Proof.
  revert n m. induction k as [|k IH]; intros n m H; simpl.
  - split; [by rewrite Nat.add_0_r | intros i x Hx; by destruct i].
  - destruct (IH (next_idx n) (S m) (next_idx_limit n m H)) as [Ha Hi].
    split; [by rewrite Nat.add_succ_r|].
    intros [|i] x Hx; simpl in Hx.
    + injection Hx as <-. rewrite Nat.add_0_r. by apply next_idx_limit.
    + rewrite Nat.add_succ_r. by apply Hi.
Qed.

Lemma extends_numbered w w' : extends w w' -> numbered w -> numbered w'.
Proof.
  intros (extra & He & Hs & Hc) [Hi Hn].
  assert (Hlen : length (sockets w') = (length (sockets w) + length extra)%nat).
  { apply (f_equal length) in He. by rewrite length_app, !length_fmap in He. }
  destruct (idxs_limit (socket_idx w) (length (sockets w)) (length extra) Hi)
    as [Ha Hx].
  split; [by rewrite Hc, Hlen|].
  intros sid sk Hsk.
  assert (H : (ident <$> sockets w') !! sid = Some (ident sk))
    by by rewrite list_lookup_fmap, Hsk.
  rewrite He in H. apply lookup_app_Some in H as [H | [Hge H]].
  - rewrite list_lookup_fmap in H.
    destruct (sockets w !! sid) as [sk0|] eqn:Hsk0; [|discriminate].
    simpl in H. rewrite <- (Hn sid sk0 Hsk0).
    unfold ident in H. by injection H as _ _ ->.
  - rewrite length_fmap in Hge, H.
    assert (Hs' : idxs (socket_idx w) (length extra) !! (sid - length (sockets w))%nat
                  = Some (s_sock_idx sk)).
    { rewrite <- Hs, list_lookup_fmap, H. reflexivity. }
    apply Hx in Hs'. rewrite Hs'. f_equal. lia.
Qed.

(** A socket's connect options, pool name and sequence number are fixed
    at creation: whatever the module is made to do afterwards, the socket
    is still in the store with the same three. *)
Theorem socket_identity_is_stable l w sid sk :
  sockets w !! sid = Some sk ->
  exists sk', sockets (run l w) !! sid = Some sk' /\
    s_conn sk' = s_conn sk /\ s_pool_name sk' = s_pool_name sk /\
    s_sock_idx sk' = s_sock_idx sk.
Proof.
  intros Hsk.
  destruct (extends_lookup w (run l w) sid sk (extends_run l w) Hsk)
    as (sk' & Hsk' & Hid).
  exists sk'. split; [exact Hsk'|]. unfold ident in Hid. by injection Hid.
Qed.

Lemma socket_identity_is_stable_witness :
  exists sk', sockets (run [do_emit 0%nat ev_error "reset"%string;
                            do_release_client 0%nat None None None true]
                           released_world) !! 0%nat = Some sk' /\
    s_conn sk' = s_conn released_socket /\
    s_pool_name sk' = s_pool_name released_socket /\
    s_sock_idx sk' = s_sock_idx released_socket.
Proof.
  apply (socket_identity_is_stable _ released_world 0%nat released_socket).
  vm_compute. reflexivity.
Defined.

(** From process start on, sockets are numbered 1, 2, 3, ... in order of
    creation for as long as the counter can count, which is up to 2^53;
    there it stays, and every later socket is numbered 2^53.  So
    [socket_idx] is the number of sockets created or 2^53, whichever is
    less, and two sockets share a sequence number only if it is 2^53. *)
Theorem sock_idx_is_unique l c :
  let w := run l (init c) in
  Z.of_nat (socket_idx w) = Z.min (Z.of_nat (length (sockets w))) idx_limit /\
  (forall sid sk, sockets w !! sid = Some sk ->
     Z.of_nat (s_sock_idx sk) = Z.min (Z.of_nat (S sid)) idx_limit) /\
  (forall i j si sj, sockets w !! i = Some si -> sockets w !! j = Some sj ->
     s_sock_idx si = s_sock_idx sj -> Z.of_nat (s_sock_idx si) < idx_limit ->
     i = j) /\
  idx_limit = 2 ^ 53.
Proof.
  intros w.
  assert (Hn : numbered w).
  { apply (extends_numbered (init c)); [apply extends_run|].
    split; [reflexivity | intros sid sk H; discriminate H]. }
  destruct Hn as [Hidx Hat].
  split; [exact Hidx|]. split; [exact Hat|]. split; [|reflexivity].
  intros i j si sj Hi Hj Heq Hlt.
  apply Hat in Hi. apply Hat in Hj. lia.
Qed.

(** ** The waiter queue *)

Lemma queues_refl pid0 w : queues_grow pid0 0 w w.
Proof.
  split; [reflexivity|]. intros pid p Hp. exists p. split; [exact Hp|].
  destruct (decide (pid = pid0)); lia.
Qed.

Lemma queues_trans pid0 n w1 w2 w3 :
  queues_grow pid0 n w1 w2 -> queues_grow pid0 0 w2 w3 -> queues_grow pid0 n w1 w3.
Proof.
  intros [L12 H12] [L23 H23]. split; [congruence|]. intros pid p Hp.
  destruct (H12 pid p Hp) as (p2 & Hp2 & Hl2).
  destruct (H23 pid p2 Hp2) as (p3 & Hp3 & Hl3).
  exists p3. split; [exact Hp3|]. destruct (decide (pid = pid0)); lia.
Qed.

Lemma queues_pools pid0 w w' : pools w' = pools w -> queues_grow pid0 0 w w'.
Proof. intros Hp. split; [by rewrite Hp|]. rewrite Hp. apply queues_refl. Qed.

Lemma queues_upd_pool pid0 pid f w :
  (forall p, pools w !! pid = Some p ->
             (length (p_waiters (f p)) <= length (p_waiters p))%nat) ->
  queues_grow pid0 0 w (upd_pool pid f w).
Proof.
  intros Hf. split; [apply length_alter|]. intros pid' p Hp.
  destruct (decide (pid = pid')) as [<-|Hne].
  - exists (f p). rewrite lookup_upd_pool, Hp. split; [reflexivity|].
    specialize (Hf p Hp). destruct (decide (pid = pid0)); lia.
  - exists p. rewrite lookup_upd_pool_ne by done. split; [exact Hp|].
    destruct (decide (pid' = pid0)); lia.
Qed.

Create HintDb queues discriminated.

Ltac que :=
  repeat first
    [ apply queues_refl
    | match goal with
      | |- queues_grow ?i 0 ?a (upd_sock _ _ ?x) =>
          apply (queues_trans i 0 a x); [|apply queues_pools; reflexivity]
      | |- queues_grow ?i 0 ?a (add_log _ ?x) =>
          apply (queues_trans i 0 a x); [|apply queues_pools; reflexivity]
      | |- queues_grow ?i 0 ?a (add_call _ ?x) =>
          apply (queues_trans i 0 a x); [|apply queues_pools; reflexivity]
      | |- queues_grow ?i 0 ?a (_create_socket _ _ _ _ _ _ ?x) =>
          apply (queues_trans i 0 a x); [|apply queues_pools; reflexivity]
      | |- queues_grow ?i 0 ?a (upd_pool _ _ ?x) =>
          apply (queues_trans i 0 a x);
          [|apply queues_upd_pool;
            let p0 := fresh "p" in let H0 := fresh "H" in
            intros p0 H0; simpl in H0;
            repeat match goal with
                   | H1 : ?l = Some _, H2 : ?l = Some _ |- _ =>
                       rewrite H1 in H2; injection H2 as <-
                   end;
            simpl;
            repeat match goal with
                   | H1 : p_waiters _ = _ |- _ => rewrite H1
                   end;
            simpl; lia]
      | |- queues_grow _ 0 _ _ =>
          eapply queues_trans; [|solve [auto with queues]]
      end ].

Lemma queues_factory_destroy i p sid w : queues_grow i 0 w (factory_destroy p sid w).
Proof. unfold factory_destroy. repeat break_match; que. Qed.
#[local] Hint Resolve queues_factory_destroy : queues.

Lemma queues_acquire_cb i k err sid w : queues_grow i 0 w (acquire_cb k err sid w).
Proof. unfold acquire_cb. repeat break_match; que. Qed.
#[local] Hint Resolve queues_acquire_cb : queues.

Lemma queues_pool_serve i pid w : queues_grow i 0 w (pool_serve pid w).
Proof. unfold pool_serve, factory_create. repeat break_match; que. Qed.
#[local] Hint Resolve queues_pool_serve : queues.

Lemma queues_pool_release i pid sid w : queues_grow i 0 w (pool_release pid sid w).
Proof. unfold pool_release. repeat break_match; que. Qed.
#[local] Hint Resolve queues_pool_release : queues.

Lemma queues_pool_destroy i pid sid w : queues_grow i 0 w (pool_destroy pid sid w).
Proof. unfold pool_destroy. repeat break_match; que. Qed.
#[local] Hint Resolve queues_pool_destroy : queues.

Lemma queues_pool_done i pid k err sid w : queues_grow i 0 w (pool_done pid k err sid w).
Proof. unfold pool_done. repeat break_match; que. Qed.
#[local] Hint Resolve queues_pool_done : queues.

Lemma queues_sockend i name sid w : queues_grow i 0 w (sockend name sid w).
Proof. unfold sockend. repeat break_match; que. Qed.
#[local] Hint Resolve queues_sockend : queues.

Lemma queues_release_client i sid port host local_addr error w :
  queues_grow i 0 w (release_client sid port host local_addr error w).
Proof. unfold release_client. repeat break_match; que. Qed.

Lemma queues_invoke i cb err sid w : queues_grow i 0 w (invoke cb err sid w).
Proof. destruct cb; simpl; que. Qed.
#[local] Hint Resolve queues_invoke : queues.

Lemma queues_run_handler i sid h arg w : queues_grow i 0 w (run_handler sid h arg w).
Proof. destruct h; simpl; que. Qed.

Lemma queues_emit i sid ev arg w : queues_grow i 0 w (emit sid ev arg w).
Proof.
  unfold emit. break_match; [|apply queues_refl]. unfold run_handlers.
  match goal with |- queues_grow _ _ _ (foldl _ ?w0 ?hs) =>
    apply (queues_trans i 0 w w0); [que|]; generalize w0; generalize hs end.
  intros hs. induction hs as [|l hs IH]; intros w0; simpl; [apply queues_refl|].
  eapply queues_trans; [apply queues_run_handler | apply IH].
Qed.

Lemma queues_pool_acquire pid k w : queues_grow pid 1 w (pool_acquire pid k w).
Proof.
  unfold pool_acquire, factory_create.
  destruct (pools w !! pid) as [p|] eqn:Hp;
    [|split; [reflexivity|]; intros i q Hq; exists q; split;
      [exact Hq | destruct (decide (i = pid)); lia]].
  assert (Hweak : forall w', queues_grow pid 0 w w' -> queues_grow pid 1 w w').
  { intros w' [Hl H]. split; [exact Hl|]. intros i q Hq.
    destruct (H i q Hq) as (q' & Hq' & Hle). exists q'. split; [exact Hq'|].
    destruct (decide (i = pid)); lia. }
  repeat break_match; try solve [apply Hweak; que].
  split; [apply length_alter|]. intros i q Hq.
  destruct (decide (pid = i)) as [<-|Hne].
  - eexists. rewrite lookup_upd_pool, Hq. split; [reflexivity|].
    simpl. rewrite length_app. simpl. destruct (decide (pid = pid)); [lia|done].
  - exists q. rewrite lookup_upd_pool_ne by done. split; [exact Hq|].
    destruct (decide (i = pid)); lia.
Qed.

Lemma waiters_ok_quiet i w w' :
  cfg w' = cfg w -> queues_grow i 0 w w' -> waiters_ok w -> waiters_ok w'.
Proof.
  intros Hcfg [Hlen Hq] Hok pid p' Hp'.
  assert (Hlt : (pid < length (pools w))%nat)
    by (rewrite <- Hlen; by eapply lookup_lt_Some).
  destruct (lookup_lt_is_Some_2 _ _ Hlt) as [p Hp].
  destruct (Hq pid p Hp) as (p'' & Hp'' & Hle).
  rewrite Hp' in Hp''. injection Hp'' as <-.
  specialize (Hok pid p Hp). rewrite Hcfg.
  destruct (decide (pid = i)); lia.
Qed.

Lemma waiters_ok_get_pool port host local_addr is_unix_socket max w :
  waiters_ok w -> waiters_ok (get_pool port host local_addr is_unix_socket max w).2.
Proof.
  intros Hok.
  destruct (lookup_pool (Some (pool_key (or_port port) (or_host host) local_addr
                                        (pool_timeout (cfg w)))) w) as [pid|] eqn:Hl.
  - unfold lookup_pool in Hl. destruct (notes_pool w) as [t|] eqn:Ht; [|discriminate].
    simpl in Hl. by rewrite (get_pool_existing _ _ _ _ _ _ t pid Ht Hl).
  - rewrite get_pool_fresh by exact Hl. cbn [snd].
    intros pid p. cbn [pools set_pools set_notes_pool cfg].
    intros Hp. apply lookup_app_Some in Hp as [Hp | [_ Hp]]; [by apply (Hok pid p)|].
    destruct (pid - length (pools w))%nat as [|n]; [|by destruct n].
    injection Hp as <-. simpl. lia.
Qed.

Lemma waiters_ok_step a w : waiters_ok w -> waiters_ok (step a w).
Proof.
  intros Hok.
  destruct a as [port host local_addr is_unix_socket k | sid port host local_addr error
                 | sid ev arg | sid | sid ev k].
  - simpl. unfold get_client. break_match.
    { eapply (waiters_ok_quiet 0%nat); [| |exact Hok];
        [reflexivity | by apply queues_pools]. }
    pose proof (waiters_ok_get_pool port host local_addr is_unix_socket
                  (pool_concurrency_max (cfg w)) w Hok) as H1.
    pose proof (get_pool_cfg port host local_addr is_unix_socket
                  (pool_concurrency_max (cfg w)) w) as Hc.
    destruct (get_pool port host local_addr is_unix_socket
                (pool_concurrency_max (cfg w)) w) as [pid w1].
    cbn [snd] in H1, Hc.
    destruct (pools w1 !! pid) as [p|] eqn:Hp; [|exact H1].
    destruct (Z.geb_spec (waitingClientsCount p) (pool_concurrency_max (cfg w1)))
      as [|Hlt].
    + eapply (waiters_ok_quiet 0%nat); [| |exact H1];
        [reflexivity | by apply queues_pools].
    + destruct (queues_pool_acquire pid k w1) as [Hlen Hq].
      assert (Hcfg : cfg (pool_acquire pid k w1) = cfg w1)
        by apply cfg_of_static, static_pool_acquire.
      intros i q' Hq'. rewrite Hcfg.
      assert (Hi : (i < length (pools w1))%nat)
        by (rewrite <- Hlen; by eapply lookup_lt_Some).
      destruct (lookup_lt_is_Some_2 _ _ Hi) as [q Hq0].
      destruct (Hq i q Hq0) as (q'' & Hq'' & Hle).
      rewrite Hq' in Hq''. injection Hq'' as <-.
      pose proof (H1 i q Hq0) as Hb.
      destruct (decide (i = pid)) as [->|_]; [|lia].
      rewrite Hp in Hq0. injection Hq0 as <-.
      unfold waitingClientsCount in Hlt. lia.
  - eapply (waiters_ok_quiet 0%nat); [| |exact Hok];
      [apply (cfg_step (do_release_client _ _ _ _ _)) | apply queues_release_client].
  - eapply (waiters_ok_quiet 0%nat); [| |exact Hok];
      [apply (cfg_step (do_emit _ _ _)) | apply queues_emit].
  - eapply (waiters_ok_quiet 0%nat); [| |exact Hok];
      [reflexivity | by apply queues_pools].
  - eapply (waiters_ok_quiet 0%nat); [| |exact Hok];
      [reflexivity | by apply queues_pools].
Qed.

(** The admission check of [get_client] bounds every waiter queue: from
    a world whose queues are within [pool_concurrency_max] (in
    particular from process start), no run ever leaves a pool with more
    queued waiters than that. *)
Theorem waiter_queue_is_bounded l w :
  waiters_ok w ->
  forall pid p, pools (run l w) !! pid = Some p ->
    Z.of_nat (length (p_waiters p)) <= Z.max 0 (pool_concurrency_max (cfg w)).
Proof.
  intros Hok.
  assert (H : waiters_ok (run l w)).
  { revert w Hok. induction l as [|a l IH]; intros w Hok; [exact Hok|].
    change (run (a :: l) w) with (run l (step a w)). by apply IH, waiters_ok_step. }
  intros pid p Hp. specialize (H pid p Hp). by rewrite cfg_run in H.
Qed.

Lemma waiter_queue_is_bounded_witness :
  exists p, pools (run [do_get_client None None None false 4%nat] saturated_world)
              !! 0%nat = Some p /\
            Z.of_nat (length (p_waiters p)) <= Z.max 0 1.
Proof.
  assert (Hok : waiters_ok (init (Config 30 30 1)))
    by (intros pid p Hp; discriminate Hp).
  eexists. split; [vm_compute; reflexivity|].
  refine (waiter_queue_is_bounded
            ([do_get_client (Some 25) (Some "mx.example.com"%string) None false 1%nat;
              do_emit 0%nat ev_connect ""%string;
              do_get_client (Some 25) (Some "mx.example.com"%string) None false 2%nat]
             ++ [do_get_client None None None false 4%nat])
            (init (Config 30 30 1)) Hok 0%nat _ _).
  vm_compute. reflexivity.
Defined.

(** ** Events on a pooled socket *)

(** [sockend] with the pool in the table: the socket goes through the
    pool's [destroy] and leaves the pool's idle and busy connections. *)
Lemma sockend_tears_down name sid w sk pid p :
  sockets w !! sid = Some sk ->
  lookup_pool name w = Some pid ->
  pools w !! pid = Some p ->
  sockets (sockend name sid w) !! sid = Some (destroy_socket (set_fromPool false sk)) /\
  exists p', pools (sockend name sid w) !! pid = Some p' /\
             p_idle p' = filter (fun x => x <> sid) (p_idle p) /\
             p_busy p' = filter (fun x => x <> sid) (p_busy p).
Proof.
  intros Hsk Hpid Hp. rewrite (sockend_pooled _ _ _ pid p Hpid Hp). split.
  - apply pool_serve_lookup, factory_destroy_lookup.
    cbn [upd_pool set_pools sockets]. by rewrite lookup_upd_sock, Hsk.
  - set (F := fun p : pool => set_busy (filter (fun x => x <> sid) (p_busy p))
                                (set_idle (filter (fun x => x <> sid) (p_idle p)) p)).
    destruct (pool_serve_pools_fwd pid
                (factory_destroy p sid
                   (upd_pool pid F (upd_sock sid (set_fromPool false) w)))
                pid (F p)) as (p' & Hp' & Hi & Hb & _).
    { rewrite factory_destroy_pools, lookup_upd_pool.
      cbn [upd_sock set_sockets pools]. by rewrite Hp. }
    exists p'. split; [exact Hp'|]. rewrite Hi, Hb. by split.
Qed.

(** When the peer half-closes a socket that sits in its pool with only
    the pool's own end listener, the socket is torn down and leaves the
    pool, and because the listener marks the transport not writable
    before the teardown, no termination command is written: the only
    call made on the transport is the half-close. *)
Theorem peer_end_tears_down_without_quit sid arg w sk name pid p :
  sockets w !! sid = Some sk ->
  fired ev_end sk = [Listener ev_end true (on_pool_end name)] ->
  lookup_pool name w = Some pid ->
  pools w !! pid = Some p ->
  let w' := emit sid ev_end arg w in
  (exists sk', sockets w' !! sid = Some sk' /\
     s_ops sk' = s_ops sk ++ [op_end] /\
     s_fromPool sk' = false /\ s_writable sk' = false /\
     s_listeners sk' = teardown_listeners) /\
  (exists p', pools w' !! pid = Some p' /\
     p_idle p' = filter (fun x => x <> sid) (p_idle p) /\
     p_busy p' = filter (fun x => x <> sid) (p_busy p)).
Proof.
  intros Hsk Hfired Hpid Hp w'. subst w'. unfold emit. rewrite Hsk, Hfired.
  cbn [run_handlers foldl l_handler run_handler].
  edestruct (sockend_tears_down name sid
               (upd_sock sid (set_writable false)
                  (add_log (log_pool_fin name) (upd_sock sid (drop_once ev_end) w))))
    as [Hs Hpl]; [| exact Hpid | exact Hp |].
  { cbn [sockets upd_sock set_sockets add_log].
    rewrite !list_lookup_alter_eq, Hsk. reflexivity. }
  split; [|exact Hpl]. eexists. split; [exact Hs|].
  rewrite destroy_socket_ops, destroy_socket_listeners.
  destruct sk as [c n i a f wr ls os]. cbn. by repeat split.
Qed.

Lemma peer_end_tears_down_without_quit_witness :
  let w' := emit 0%nat ev_end ""%string released_world in
  (exists sk', sockets w' !! 0%nat = Some sk' /\
     s_ops sk' = s_ops released_socket ++ [op_end] /\
     s_fromPool sk' = false /\ s_writable sk' = false /\
     s_listeners sk' = teardown_listeners) /\
  (exists p', pools w' !! 0%nat = Some p' /\
     p_idle p' = filter (fun x => x <> 0%nat) [0%nat] /\
     p_busy p' = filter (fun x => x <> 0%nat) []).
Proof.
  apply (peer_end_tears_down_without_quit 0%nat ""%string released_world released_socket
           (Some "outbound::25:mx.example.com:undefined:30"%string) 0%nat
           (Pool "outbound::25:mx.example.com:undefined:30" (Some 25)
                 (Some "mx.example.com"%string) None false 1 30000 [] [0%nat] []));
    vm_compute; reflexivity.
Defined.

(** An error on such a socket tears it down the same way, but here the
    termination command is written first if the transport is still
    writable. *)
Theorem idle_error_tears_down sid arg w sk name pid p :
  sockets w !! sid = Some sk ->
  fired ev_error sk = [Listener ev_error true (on_pool_error name)] ->
  lookup_pool name w = Some pid ->
  pools w !! pid = Some p ->
  let w' := emit sid ev_error arg w in
  (exists sk', sockets w' !! sid = Some sk' /\
     s_ops sk' = s_ops sk
                 ++ (if s_writable sk then [op_write QUIT_command] else [])
                 ++ [op_end] /\
     s_fromPool sk' = false /\ s_listeners sk' = teardown_listeners) /\
  (exists p', pools w' !! pid = Some p' /\
     p_idle p' = filter (fun x => x <> sid) (p_idle p) /\
     p_busy p' = filter (fun x => x <> sid) (p_busy p)).
Proof.
  intros Hsk Hfired Hpid Hp w'. subst w'. unfold emit. rewrite Hsk, Hfired.
  cbn [run_handlers foldl l_handler run_handler].
  edestruct (sockend_tears_down name sid
               (add_log (log_pool_error name arg) (upd_sock sid (drop_once ev_error) w)))
    as [Hs Hpl]; [| exact Hpid | exact Hp |].
  { cbn [sockets upd_sock set_sockets add_log].
    rewrite !list_lookup_alter_eq, Hsk. reflexivity. }
  split; [|exact Hpl]. eexists. split; [exact Hs|].
  rewrite destroy_socket_ops, destroy_socket_listeners.
  destruct sk as [c n i a f [] ls os]; cbn; by repeat split.
Qed.

Lemma idle_error_tears_down_witness :
  let w' := emit 0%nat ev_error "ECONNRESET"%string released_world in
  (exists sk', sockets w' !! 0%nat = Some sk' /\
     s_ops sk' = s_ops released_socket ++ [op_write QUIT_command] ++ [op_end] /\
     s_fromPool sk' = false /\ s_listeners sk' = teardown_listeners) /\
  (exists p', pools w' !! 0%nat = Some p' /\
     p_idle p' = filter (fun x => x <> 0%nat) [0%nat] /\
     p_busy p' = filter (fun x => x <> 0%nat) []).
Proof.
  apply (idle_error_tears_down 0%nat "ECONNRESET"%string released_world released_socket
           (Some "outbound::25:mx.example.com:undefined:30"%string) 0%nat
           (Pool "outbound::25:mx.example.com:undefined:30" (Some 25)
                 (Some "mx.example.com"%string) None false 1 30000 [] [0%nat] []));
    vm_compute; reflexivity.
Defined.

(** If the pool has left the table by the time the error arrives,
    [sockend] takes its other branch: the listeners are removed and the
    transport is destroyed outright, with no termination command and no
    half-close, and no pool object is touched. *)
Theorem idle_error_without_pool_destroys sid arg w sk name :
  sockets w !! sid = Some sk ->
  fired ev_error sk = [Listener ev_error true (on_pool_error name)] ->
  lookup_pool name w = None ->
  let w' := emit sid ev_error arg w in
  pools w' = pools w /\
  log w' = log w ++ [log_pool_error name arg] /\
  exists sk', sockets w' !! sid = Some sk' /\
    s_ops sk' = s_ops sk ++ [op_destroy] /\ s_listeners sk' = [] /\
    s_fromPool sk' = false /\ s_writable sk' = false.
Proof.
  intros Hsk Hfired Hno w'. subst w'. unfold emit. rewrite Hsk, Hfired.
  cbn [run_handlers foldl l_handler run_handler]. unfold sockend.
  erewrite (lookup_pool_frame _ w) by reflexivity. rewrite Hno.
  split; [reflexivity|]. split; [reflexivity|].
  eexists. cbn [sockets upd_sock set_sockets add_log].
  rewrite !list_lookup_alter_eq, Hsk. split; [reflexivity|].
  destruct sk; by repeat split.
Qed.

Lemma idle_error_without_pool_destroys_witness :
  let w := set_notes_pool (Some ∅) released_world in
  let w' := emit 0%nat ev_error "ECONNRESET"%string w in
  pools w' = pools w /\
  log w' = log w ++ [log_pool_error
                       (Some "outbound::25:mx.example.com:undefined:30"%string)
                       "ECONNRESET"%string] /\
  exists sk', sockets w' !! 0%nat = Some sk' /\
    s_ops sk' = s_ops released_socket ++ [op_destroy] /\ s_listeners sk' = [] /\
    s_fromPool sk' = false /\ s_writable sk' = false.
Proof.
  apply (idle_error_without_pool_destroys 0%nat "ECONNRESET"%string
           (set_notes_pool (Some ∅) released_world) released_socket
           (Some "outbound::25:mx.example.com:undefined:30"%string));
    vm_compute; reflexivity.
Defined.

(** ** Events during teardown *)

Lemma alter_fixed {A} (f : A -> A) (i : nat) (l : list A) (x : A) :
  l !! i = Some x -> f x = x -> alter f i l = l.
Proof.
  intros Hx Hf. transitivity (alter id i l); [|by apply list_alter_id].
  apply list_alter_ext; [|reflexivity]. intros y Hy.
  rewrite Hx in Hy. injection Hy as <-. exact Hf.
Qed.

(** While a socket is being torn down an error is only logged as a
    warning: the transport is not destroyed, nothing is written and no
    pool or caller hears of it.  A line from the peer is logged and the
    line listener stays; the error listener is gone after one use. *)
Theorem teardown_error_only_logs sid arg w sk :
  sockets w !! sid = Some sk ->
  s_listeners sk = teardown_listeners ->
  emit sid ev_error arg w
  = add_log (log_shutdown_error arg)
      (upd_sock sid (set_listeners [Listener ev_line false on_destroy_line;
                                    Listener ev_end true on_destroy_end]) w) /\
  emit sid ev_line arg w = add_log (log_protocol_S arg) w.
Proof.
  intros Hsk Hls. unfold emit, fired, run_handlers. rewrite Hsk, Hls. cbn. split.
  - f_equal. unfold upd_sock. f_equal.
    apply list_alter_ext; [|reflexivity]. intros sk0 Hsk0.
    rewrite Hsk in Hsk0. injection Hsk0 as <-. unfold drop_once. by rewrite Hls.
  - f_equal. destruct w as [c n ss ps t lg cs]. unfold upd_sock, set_sockets. cbn.
    f_equal. apply alter_fixed with (x := sk); [exact Hsk|].
    unfold drop_once. rewrite Hls. cbn. destruct sk. cbn in *. by subst.
Qed.

Lemma teardown_error_only_logs_witness :
  emit 0%nat ev_error "EPIPE"%string torn_world
  = add_log (log_shutdown_error "EPIPE"%string)
      (upd_sock 0%nat (set_listeners [Listener ev_line false on_destroy_line;
                                      Listener ev_end true on_destroy_end])
                torn_world) /\
  emit 0%nat ev_line "EPIPE"%string torn_world
  = add_log (log_protocol_S "EPIPE"%string) torn_world.
Proof.
  apply (teardown_error_only_logs 0%nat "EPIPE"%string torn_world torn_socket);
    vm_compute; reflexivity.
Defined.

(** ** Listeners across a release *)

(** A normal release hands the socket to the pool's release with every
    listener for close, error, end, timeout and line removed, whoever
    registered it, and with exactly one error and one end listener, the
    pool's own, added; listeners for other events stay. *)
Theorem release_replaces_listeners sid port host local_addr w sk pid :
  sockets w !! sid = Some sk ->
  s_acquired sk = true ->
  pooled_release sk w ->
  lookup_pool (s_pool_name sk) w = Some pid ->
  pool_timeout (cfg w) <> 0 ->
  exists sk',
    sockets (release_client sid port host local_addr false w) !! sid = Some sk' /\
    s_listeners sk'
    = List.filter (fun l => event_eqb (l_event l) ev_connect) (s_listeners sk)
      ++ [Listener ev_error true (on_pool_error (s_pool_name sk));
          Listener ev_end true (on_pool_end (s_pool_name sk))] /\
    s_fromPool sk' = true /\ s_ops sk' = s_ops sk.
Proof.
  intros Hsk Hacq Hby Hpid Hnz.
  rewrite (release_client_pooled _ _ _ _ _ _ sk pid) by done. cbv zeta.
  destruct (Z.eqb_spec (pool_timeout (cfg w)) 0) as [|_]; [done|].
  set (sk0 := sock_once ev_end (on_pool_end (s_pool_name sk))
                (sock_once ev_error (on_pool_error (s_pool_name sk))
                   (set_fromPool true (strip_listeners (set_acquired false sk))))).
  assert (Hls : s_listeners sk0
                = List.filter (fun l => event_eqb (l_event l) ev_connect) (s_listeners sk)
                  ++ [Listener ev_error true (on_pool_error (s_pool_name sk));
                      Listener ev_end true (on_pool_end (s_pool_name sk))]).
  { subst sk0. destruct sk as [c n i a f wr ls os]. cbn. rewrite <- app_assoc. cbn.
    f_equal. clear. induction ls as [|[[] o h] ls IH]; cbn; try done. by rewrite IH. }
  match goal with |- context [pool_release pid sid ?w0] => set (w1 := w0) end.
  assert (H1 : sockets w1 !! sid = Some sk0).
  { subst w1. cbn [sockets upd_sock set_sockets add_log].
    rewrite !list_lookup_alter_eq, Hsk. reflexivity. }
  clearbody w1. unfold pool_release.
  destruct (pools w1 !! pid) as [p|]; [|by exists sk0].
  destruct (bool_decide (sid ∈ p_busy p)); [|by exists sk0].
  destruct (p_waiters p) as [|k ws]; [by exists sk0|].
  unfold acquire_cb. cbn [upd_pool set_pools sockets].
  assert (H2 : sockets (upd_pool pid (set_waiters ws) w1) !! sid = Some sk0) by exact H1.
  cbn [upd_pool set_pools sockets] in H2.
  destruct (sockets w1 !! sid) as [s0|] eqn:E; [|discriminate]. injection H2 as ->.
  exists (set_acquired true sk0). cbn [sockets upd_sock set_sockets add_log add_call].
  rewrite list_lookup_alter_eq. cbn [upd_pool set_pools sockets]. rewrite E.
  split; [reflexivity|]. split; [exact Hls|]. by destruct sk.
Qed.

Lemma release_replaces_listeners_witness :
  exists sk',
    sockets (release_client 0%nat (Some 25) (Some "mx.example.com"%string) None false
                            held_world) !! 0%nat = Some sk' /\
    s_listeners sk'
    = List.filter (fun l => event_eqb (l_event l) ev_connect) (s_listeners held_socket)
      ++ [Listener ev_error true (on_pool_error (s_pool_name held_socket));
          Listener ev_end true (on_pool_end (s_pool_name held_socket))] /\
    s_fromPool sk' = true /\ s_ops sk' = s_ops held_socket.
Proof.
  apply (release_replaces_listeners 0%nat _ _ _ held_world held_socket 0%nat);
    try (vm_compute; reflexivity).
  vm_compute. discriminate.
Defined.

(** ** Reuse *)

(** With pooling enabled, when the destination's pool has room in its
    waiter queue and an idle socket that passes validation, [get_client]
    opens no socket: it hands the first such idle socket to the caller,
    marked acquired, with the acquisition logged, and the pool counts it
    as busy. *)
Theorem get_client_reuses_idle port host local_addr is_unix_socket k w t pid p sid sk :
  pool_concurrency_max (cfg w) <> 0 ->
  notes_pool w = Some t ->
  t !! pool_key (or_port port) (or_host host) local_addr (pool_timeout (cfg w))
    = Some pid ->
  pools w !! pid = Some p ->
  waitingClientsCount p < pool_concurrency_max (cfg w) ->
  List.find (valid_in w) (p_idle p) = Some sid ->
  sockets w !! sid = Some sk ->
  let w' := get_client port host local_addr is_unix_socket k w in
  calls w' = calls w ++ [Call k None (Some sid)] /\
  sockets w' = alter (set_acquired true) sid (sockets w) /\
  socket_idx w' = socket_idx w /\
  log w' = log w ++ [log_acquired (s_sock_idx sk) (s_pool_name sk)] /\
  pools w' = alter (fun p => set_busy (p_busy p ++ [sid])
                               (set_idle (filter (fun x => x <> sid) (p_idle p)) p))
                   pid (pools w).
Proof.
  intros Hmax Ht Hkey Hp Hwait Hfind Hsk w'. subst w'. unfold get_client.
  destruct (Z.eqb_spec (pool_concurrency_max (cfg w)) 0) as [|_]; [done|].
  rewrite (get_pool_existing _ _ _ _ _ _ t pid Ht Hkey). rewrite Hp.
  destruct (Z.geb_spec (waitingClientsCount p) (pool_concurrency_max (cfg w)));
    [lia|].
  unfold pool_acquire. rewrite Hp, Hfind. unfold acquire_cb.
  cbn [upd_pool set_pools sockets]. rewrite Hsk. by repeat split.
Qed.

Lemma get_client_reuses_idle_witness :
  let w' := get_client (Some 25) (Some "mx.example.com"%string) None false 2%nat
                       released_world in
  calls w' = calls released_world ++ [Call 2 None (Some 0%nat)] /\
  sockets w' = alter (set_acquired true) 0%nat (sockets released_world) /\
  socket_idx w' = socket_idx released_world /\
  log w' = log released_world
           ++ [log_acquired (s_sock_idx released_socket) (s_pool_name released_socket)] /\
  pools w' = alter (fun p => set_busy (p_busy p ++ [0%nat])
                               (set_idle (filter (fun x => x <> 0%nat) (p_idle p)) p))
                   0%nat (pools released_world).
Proof.
  apply (get_client_reuses_idle _ _ _ _ _ released_world
           (<[pool_key (Some 25) (Some "mx.example.com"%string) None 30 := 0%nat]> ∅)
           0%nat
           (Pool "outbound::25:mx.example.com:undefined:30" (Some 25)
                 (Some "mx.example.com"%string) None false 1 30000 [] [0%nat] [])
           0%nat released_socket);
    try (vm_compute; reflexivity).
  vm_compute. discriminate.
Defined.

(** ** The pool's log filter *)

Lemma regex_test_app pat pre s :
  match_here pat s = true -> regex_test pat (pre ++ s)%string = true.
Proof.
  intros H. induction pre as [|c pre IH]; simpl.
  - destruct s; simpl; rewrite H; reflexivity.
  - rewrite IH. apply orb_true_r.
Qed.

Lemma regex_test_inv pat s :
  regex_test pat s = true ->
  exists pre s', s = (pre ++ s')%string /\ match_here pat s' = true.
Proof.
  induction s as [|c s IH]; simpl; intros H.
  - rewrite orb_false_r in H. by exists ""%string, ""%string.
  - apply orb_true_iff in H as [H|H].
    + by exists ""%string, (String c s).
    + destruct (IH H) as (pre & s' & -> & Hm). by exists (String c pre), s'.
Qed.

Ltac eat_atom H s :=
  destruct s as [|? s]; [discriminate H|];
  cbn [match_here atom_matches] in H;
  apply andb_true_iff in H as [?Hc H];
  try match goal with
      | Hc : Ascii.eqb _ _ = true |- _ => apply Ascii.eqb_eq in Hc; subst
      end.

Lemma match_here_availableObjects s :
  match_here availableObjects_re s = true <->
  exists c1 c2 post,
    is_line_terminator c1 = false /\ is_line_terminator c2 = false /\
    s = availableObjects_text c1 c2 post.
Proof.
  let p := eval cbv in availableObjects_re in change availableObjects_re with p.
  split.
  - intros H. do 30 (eat_atom H s).
    repeat match goal with
           | Hn : negb _ = true |- _ => apply negb_true_iff in Hn
           end.
    match goal with
    | Ha : is_line_terminator ?x = false, Hb : is_line_terminator ?y = false |- _ =>
        first [ by exists x, y, s | by exists y, x, s ]
    end.
  - intros (c1 & c2 & post & H1 & H2 & ->).
    cbv -[is_line_terminator]. by rewrite H1, H2.
Qed.

(** The pool's log lines reach the logger unless they contain the text
    this, any one character, _availableObjects, any one character,
    length= (the character being anything but a line break, so the
    literal dots in particular): exactly those are dropped.  A line that
    gets through is prefixed with the pool's name, and goes to the method
    named after its level, with verbose renamed to debug: [logverbose] is
    never called. *)
Theorem pool_log_filter (name str level : string) :
  (pool_log name str level = None <->
   exists pre c1 c2 post,
     is_line_terminator c1 = false /\ is_line_terminator c2 = false /\
     str = (pre ++ availableObjects_text c1 c2 post)%string) /\
  (forall method message,
     pool_log name str level = Some (method, message) ->
     message = ("[outbound] [" ++ name ++ "] " ++ str)%string /\
     method = ("log" ++ (if String.eqb level "verbose" then "debug" else level))%string /\
     method <> "logverbose"%string).
Proof.
  unfold pool_log. split.
  - split.
    + destruct (regex_test availableObjects_re str) eqn:Hre; [intros _|discriminate].
      apply regex_test_inv in Hre as (pre & s' & -> & Hm).
      apply match_here_availableObjects in Hm as (c1 & c2 & post & H1 & H2 & ->).
      by exists pre, c1, c2, post.
    + intros (pre & c1 & c2 & post & H1 & H2 & ->).
      rewrite regex_test_app; [reflexivity|].
      apply match_here_availableObjects. by exists c1, c2, post.
  - intros method message H.
    destruct (regex_test availableObjects_re str); [discriminate|].
    injection H as <- <-. split; [reflexivity|]. split; [reflexivity|].
    destruct (String.eqb_spec level "verbose") as [->|Hne]; [discriminate|].
    intros [= Heq]. by apply Hne.
Qed.

(** ** Draining *)

Lemma pool_destroy_idle pid sid w p :
  pools w !! pid = Some p ->
  exists p', pools (pool_destroy pid sid w) !! pid = Some p' /\
             p_idle p' = filter (fun x => x <> sid) (p_idle p).
Proof.
  intros Hp. unfold pool_destroy. rewrite Hp.
  set (F := fun p : pool => set_busy (filter (fun x => x <> sid) (p_busy p))
                              (set_idle (filter (fun x => x <> sid) (p_idle p)) p)).
  destruct (pool_serve_pools_fwd pid (factory_destroy p sid (upd_pool pid F w)) pid (F p))
    as (p' & Hp' & Hi & _).
  { by rewrite factory_destroy_pools, lookup_upd_pool, Hp. }
  exists p'. split; [exact Hp'|]. by rewrite Hi.
Qed.

Lemma pool_destroy_unwritable pid sid w p sk :
  pools w !! pid = Some p -> sockets w !! sid = Some sk ->
  unwritable (pool_destroy pid sid w) sid.
Proof.
  intros Hp Hsk. unfold pool_destroy. rewrite Hp.
  apply unwritable_pool_serve. exists (destroy_socket sk). split.
  - apply factory_destroy_lookup. cbn [upd_pool set_pools sockets]. exact Hsk.
  - apply destroy_socket_flags.
Qed.

Lemma destroy_all_spec pid l : forall w p,
  pools w !! pid = Some p ->
  let w' := foldl (fun w sid => pool_destroy pid sid w) w l in
  (exists p', pools w' !! pid = Some p' /\
              p_idle p' = filter (fun x => x ∉ l) (p_idle p)) /\
  static w' = static w /\
  (forall sid, sid ∈ l -> is_Some (sockets w !! sid) -> unwritable w' sid) /\
  (forall sid, unwritable w sid -> unwritable w' sid).
Proof.
  induction l as [|a l IH]; intros w p Hp; cbn [foldl].
  - split; [|split; [reflexivity|split]].
    + exists p. split; [exact Hp|]. symmetry.
      induction (p_idle p) as [|x xs IHx]; [reflexivity|].
      rewrite filter_cons_True by apply not_elem_of_nil. by rewrite IHx.
    + intros sid Hin. by apply elem_of_nil in Hin.
    + auto.
  - destruct (pool_destroy_idle pid a w p Hp) as (p1 & Hp1 & Hi1).
    destruct (IH (pool_destroy pid a w) p1 Hp1) as ((p' & Hp' & Hi') & Hst & Hun & Hkeep).
    split; [|split; [|split]].
    + exists p'. split; [exact Hp'|]. rewrite Hi', Hi1, list_filter_filter.
      apply list_filter_iff. intros x. rewrite not_elem_of_cons. tauto.
    + by rewrite Hst, static_pool_destroy.
    + intros sid Hin [sk Hsk]. apply elem_of_cons in Hin as [->|Hin].
      * apply Hkeep. by eapply pool_destroy_unwritable.
      * apply Hun; [exact Hin|].
        destruct (extends_lookup w (pool_destroy pid a w) sid sk
                    (extends_pool_destroy pid a w) Hsk) as (sk' & Hsk' & _).
        by exists sk'.
    + intros sid Hu. by apply Hkeep, unwritable_pool_destroy.
Qed.

(** The callback [drain_pools] leaves with a pool, run while the pool is
    still in the table: afterwards the key is gone and every other key is
    as before, the pool object has no idle connection left, none of the
    sockets it held idle passes validation any more, and a second run of
    the callback changes nothing. *)
Theorem drain_done_removes_pool key w pid p :
  lookup_pool (Some key) w = Some pid ->
  pools w !! pid = Some p ->
  let w' := drain_done key w in
  lookup_pool (Some key) w' = None /\
  (forall key', key' <> key ->
     lookup_pool (Some key') w' = lookup_pool (Some key') w) /\
  drain_done key w' = w' /\
  (exists p', pools w' !! pid = Some p' /\ p_idle p' = []) /\
  (forall sid, sid ∈ p_idle p -> is_Some (sockets w !! sid) ->
     valid_in w' sid = false).
Proof.
  intros Hl Hp w'.
  destruct (destroy_all_spec pid (p_idle p) w p Hp)
    as ((p' & Hp' & Hi') & Hst & Hun & _).
  assert (Hw' : w' = set_notes_pool
                       (delete key <$> notes_pool
                          (foldl (fun w sid => pool_destroy pid sid w) w (p_idle p)))
                       (foldl (fun w sid => pool_destroy pid sid w) w (p_idle p))).
  { subst w'. unfold drain_done. rewrite Hl. unfold pool_destroyAllNow. by rewrite Hp. }
  injection Hst as _ Hnp.
  unfold lookup_pool in Hl. destruct (notes_pool w) as [t|] eqn:Ht; [|discriminate].
  simpl in Hl.
  assert (Hnone : lookup_pool (Some key) w' = None).
  { rewrite Hw'. unfold lookup_pool. cbn [notes_pool set_notes_pool].
    rewrite Hnp. simpl. apply lookup_delete_eq. }
  split; [exact Hnone|]. split; [|split; [|split]].
  - intros key' Hne. rewrite Hw'. unfold lookup_pool.
    cbn [notes_pool set_notes_pool]. rewrite Hnp, Ht. simpl.
    by apply lookup_delete_ne.
  - unfold drain_done at 1. by rewrite Hnone.
  - exists p'. rewrite Hw'. cbn [pools set_notes_pool]. split; [exact Hp'|].
    rewrite Hi'. apply elem_of_nil_inv. intros y Hy.
    apply list_elem_of_filter in Hy as [Hy1 Hy2]. by apply Hy1.
  - intros sid Hin Hsome. apply unwritable_not_valid.
    eapply unwritable_sockets; [|by apply Hun]. by rewrite Hw'.
Qed.

Lemma drain_done_removes_pool_witness :
  let key := "outbound::25:mx.example.com:undefined:30"%string in
  let w' := drain_done key released_world in
  lookup_pool (Some key) w' = None /\
  (forall key', key' <> key ->
     lookup_pool (Some key') w' = lookup_pool (Some key') released_world) /\
  drain_done key w' = w' /\
  (exists p', pools w' !! 0%nat = Some p' /\ p_idle p' = []) /\
  (forall sid, sid ∈ [0%nat] -> is_Some (sockets released_world !! sid) ->
     valid_in w' sid = false).
Proof.
  apply (drain_done_removes_pool "outbound::25:mx.example.com:undefined:30"%string
           released_world 0%nat
           (Pool "outbound::25:mx.example.com:undefined:30" (Some 25)
                 (Some "mx.example.com"%string) None false 1 30000 [] [0%nat] []));
    vm_compute; reflexivity.
Defined.

(** [drain_pools] answers with the single line "No pools available",
    asks no pool to drain and leaves the world alone exactly when the
    table is undefined or has no key; otherwise the last line it logs is
    "Pools shut down". *)
Theorem drain_pools_without_pools (pool_drain : nat -> string -> world -> world)
    (w : world) :
  (drain_pools pool_drain w = ([log_no_pools], w) <->
   notes_pool w = None \/ notes_pool w = Some ∅) /\
  (drain_pools pool_drain w <> ([log_no_pools], w) ->
   last (drain_pools pool_drain w).1 = Some log_pools_shut_down).
Proof.
  unfold drain_pools.
  destruct (notes_pool w) as [t|]; [|split; [by split; auto | done]].
  destruct (decide (t = ∅)) as [->|Hne].
  - rewrite bool_decide_eq_true_2 by done. split; [by split; auto | done].
  - rewrite bool_decide_eq_false_2 by done.
    destruct (foldl _ _ _) as [lg w1]. split.
    + split.
      * intros [= Hlg _]. destruct lg as [|? [|? ?]]; discriminate.
      * intros [|[= ->]]; [discriminate | done].
    + intros _. cbn [fst]. apply last_snoc.
Qed.

(** * Properties of the logger *)

Module LoggerFacts.
Import Logger.

(** ** What [logger.log] does to the text *)

Lemma has_char_cons c x s : has_char c (String x s) <-> x = c \/ has_char c s.
Proof. reflexivity. Qed.

Lemma has_char_app c s1 s2 :
  has_char c (s1 ++ s2)%string <-> has_char c s1 \/ has_char c s2.
Proof.
  induction s1 as [|x s1 IH].
  - unfold has_char. simpl. tauto.
  - change (String x s1 ++ s2)%string with (String x (s1 ++ s2)%string).
    rewrite !has_char_cons, IH. tauto.
Qed.

Lemma replace_all_removes c rep s :
  ~ has_char c rep -> ~ has_char c (replace_all c rep s).
Proof.
  intros Hrep. induction s as [|x s IH]; simpl; [by intros []|].
  destruct (Ascii.eqb_spec x c) as [->|Hne].
  - rewrite has_char_app. tauto.
  - rewrite has_char_cons. tauto.
Qed.

Lemma replace_all_keeps_out c d rep s :
  ~ has_char d rep -> ~ has_char d s -> ~ has_char d (replace_all c rep s).
Proof.
  intros Hrep. induction s as [|x s IH]; simpl; [done|].
  rewrite has_char_cons. intros Hs.
  destruct (Ascii.eqb x c).
  - rewrite has_char_app. tauto.
  - rewrite has_char_cons. tauto.
Qed.

Lemma replace_all_absent c rep s : ~ has_char c s -> replace_all c rep s = s.
Proof.
  induction s as [|x s IH]; simpl; [done|]. rewrite has_char_cons. intros Hs.
  destruct (Ascii.eqb_spec x c) as [->|_]; [tauto|]. f_equal. tauto.
Qed.

Lemma strip_final_lf_chars c s : has_char c (strip_final_lf s) -> has_char c s.
Proof.
  induction s as [|x s IH]; simpl; [done|].
  destruct s as [|y s].
  - destruct (Ascii.eqb x LF); [by intros []|done].
  - rewrite !(has_char_cons c x). tauto.
Qed.

Lemma strip_final_lf_absent s : ~ has_char LF s -> strip_final_lf s = s.
Proof.
  induction s as [|x s IH]; simpl; [done|]. rewrite has_char_cons. intros Hs.
  destruct s as [|y s].
  - destruct (Ascii.eqb_spec x LF) as [->|_]; [tauto|done].
  - f_equal. apply IH. tauto.
Qed.

Lemma strip_final_lf_snoc s : strip_final_lf (s ++ String LF "")%string = s.
Proof.
  induction s as [|x s IH]; [reflexivity|].
  change (strip_final_lf (String x (s ++ String LF "")%string) = String x s).
  cbn [strip_final_lf]. destruct (s ++ String LF "")%string eqn:E.
  - destruct s; discriminate.
  - by rewrite IH.
Qed.

(** What [logger.log] stores is one line: it never holds a carriage
    return, at level PROTOCOL it holds no line feed either, and at any
    other level exactly one line feed at the very end is dropped while
    the others stay.  Text without either character is stored as it is. *)
Theorem log_data_is_one_line (level data : string) :
  ~ has_char CR (sanitize level data) /\
  (level = "PROTOCOL"%string -> ~ has_char LF (sanitize level data)) /\
  (~ has_char CR data -> ~ has_char LF data -> sanitize level data = data) /\
  (level <> "PROTOCOL"%string -> ~ has_char CR data ->
   sanitize level (data ++ String LF "")%string = data).
Proof.
  assert (Hr : ~ has_char CR "\r"%string) by (intros [H|[H|[]]]; discriminate H).
  assert (Hrl : ~ has_char LF "\r"%string) by (intros [H|[H|[]]]; discriminate H).
  assert (Hn : ~ has_char LF "\n"%string) by (intros [H|[H|[]]]; discriminate H).
  unfold sanitize. split; [|split; [|split]].
  - intros H. apply strip_final_lf_chars in H. by apply replace_all_removes in H.
  - intros ->. rewrite String.eqb_refl. intros H. apply strip_final_lf_chars in H.
    revert H. apply replace_all_keeps_out; [exact Hrl|]. by apply replace_all_removes.
  - intros Hcr Hlf.
    rewrite (replace_all_absent LF _ data Hlf).
    destruct (String.eqb level "PROTOCOL");
      rewrite (replace_all_absent CR _ data Hcr); by apply strip_final_lf_absent.
  - intros Hne Hcr. destruct (String.eqb_spec level "PROTOCOL") as [|_]; [done|].
    rewrite replace_all_absent; [apply strip_final_lf_snoc|].
    rewrite has_char_app. intros [H|[H|[]]]; [by apply Hcr | discriminate H].
Qed.

(** ** Buffering and flushing *)

Lemma log_keeps_order level data st :
  hooked (log level data st) ++ deferred_logs (log level data st)
  = hooked st ++ deferred_logs st ++ [Item level (sanitize level data)].
Proof.
  unfold log. destruct (must_buffer (plugins st)); simpl.
  - reflexivity.
  - by rewrite app_nil_r.
Qed.

Lemma dump_keeps_order st :
  (dump_logs st).1 = true ->
  hooked (dump_logs st).2 ++ deferred_logs (dump_logs st).2
  = hooked st ++ deferred_logs st.
Proof.
  unfold dump_logs. destruct (deferred_logs st) as [|it rest] eqn:Hd; simpl.
  - intros _. by rewrite Hd.
  - destruct (plugins st); simpl; [discriminate|]. intros _. by rewrite app_nil_r.
Qed.

(** Nothing logged is lost, doubled or reordered by the buffering: as
    long as no [dump_logs] throws, the items handed to the log hooks so
    far, followed by those still buffered, are the items that were there
    at the start followed by everything logged since, in the order of
    the calls. *)
Theorem log_order_is_kept (l : list logger_action) (st : state) :
  dumps_return l st = true ->
  hooked (logger_run l st) ++ deferred_logs (logger_run l st)
  = hooked st ++ deferred_logs st ++ logged_items l.
Proof.
  revert st. induction l as [|a l IH]; intros st Hsafe.
  - simpl. by rewrite app_nil_r.
  - change (logger_run (a :: l) st) with (logger_run l (logger_step a st)).
    simpl in Hsafe. apply andb_true_iff in Hsafe as [Ha Hl].
    rewrite (IH _ Hl). destruct a as [level data| |p]; simpl.
    + rewrite app_assoc, log_keeps_order, <- !app_assoc. reflexivity.
    + by rewrite app_assoc, (dump_keeps_order st Ha), <- app_assoc.
    + reflexivity.
Qed.

Lemma log_order_is_kept_witness :
  let l := [la_log "INFO" "starting"; la_log "PROTOCOL" "S: 220";
            la_plugins (plugins_set (Some 2%nat)); la_dump;
            la_log "WARN" "late"]%string in
  hooked (logger_run l initial) ++ deferred_logs (logger_run l initial)
  = hooked initial ++ deferred_logs initial ++ logged_items l.
Proof.
  intros l. apply (log_order_is_kept l initial). vm_compute. reflexivity.
Defined.

(** ** Reading the log level and format *)

Lemma logger_prop_level (l : level) :
  logger_prop ("LOG" ++ level_name l) = Some (P_num (levels l)).
Proof. by destruct l. Qed.

Lemma logger_prop_is_logfmt (key : string) :
  logger_prop key = Some (P_format F_LOGFMT) <-> key = "LOGFMTLOGFMT"%string.
Proof.
  split.
  - unfold logger_prop. destruct (List.find _ all_levels); [discriminate|].
    destruct (String.eqb key "LOGFMTDEFAULT"); [discriminate|].
    destruct (String.eqb_spec key "LOGFMTLOGFMT"); [done | discriminate].
  - by intros ->.
Qed.

Lemma upper_char_L (c : Ascii.ascii) :
  upper_char c = Ascii.ascii_of_nat 76 ->
  c = Ascii.ascii_of_nat 76 \/ c = Ascii.ascii_of_nat 108.
Proof.
  destruct c as [[] [] [] [] [] [] [] []]; vm_compute; intros H;
    first [discriminate H | by left | by right].
Qed.

Lemma parseInt_of_name (v : string) (rest : string) :
  toUpperCase v = String (Ascii.ascii_of_nat 76) rest -> parseInt v = None /\ v <> ""%string.
Proof.
  destruct v as [|c v]; [discriminate|]. simpl. intros [= Hc _].
  split; [|discriminate].
  destruct (upper_char_L c Hc) as [-> | ->]; reflexivity.
Qed.

Lemma init_loglevel_truthy (v : option string) (st : state) :
  falsy (Some (loglevel st)) = false ->
  falsy (Some (loglevel (_init_loglevel v st))) = false.
Proof.
  intros Hst. unfold _init_loglevel.
  destruct v as [v|]; [|exact Hst].
  destruct (String.eqb v ""); [exact Hst|].
  destruct (parseInt v) as [n|].
  - destruct (Z.eqb_spec n 0) as [->|Hn].
    + destruct (logger_prop (toUpperCase v)) as [[m|f]|]; simpl; try reflexivity.
      destruct (Z.eqb_spec m 0); simpl; [reflexivity | by apply Z.eqb_neq].
    + simpl. destruct (Z.eqb_spec n 0); simpl; [done | by apply Z.eqb_neq].
  - destruct (logger_prop (toUpperCase v)) as [[m|f]|]; simpl; try reflexivity.
    destruct (Z.eqb_spec m 0); simpl; [reflexivity | by apply Z.eqb_neq].
Qed.

(** Whatever the configured value, [_init_loglevel] never leaves
    [loglevel] at zero or undefined.  A value that spells LOG followed by
    a level name, in any letter case, selects that level's number, except
    LOGEMERG: its number is 0, which the validity test takes for a
    missing level, so it selects LOGWARN like any unknown name. *)
Theorem loglevel_by_name (v : option string) (st : state) :
  (falsy (Some (loglevel st)) = false ->
   falsy (Some (loglevel (_init_loglevel v st))) = false) /\
  (forall l s, v = Some s -> toUpperCase s = ("LOG" ++ level_name l)%string ->
     loglevel (_init_loglevel v st)
     = match l with EMERG => LOGWARN | _ => P_num (levels l) end).
Proof.
  split; [apply init_loglevel_truthy|].
  intros l s -> Hup.
  destruct (parseInt_of_name s ("OG" ++ level_name l) Hup) as [Hp Hne].
  unfold _init_loglevel. rewrite Hp.
  destruct (String.eqb_spec s "") as [|_]; [done|].
  rewrite Hup, logger_prop_level. by destruct l.
Qed.

(** [_init_logformat] looks the configured name up among the logger's
    own properties, where the formats are called LOGFMTDEFAULT and
    LOGFMTLOGFMT: the logfmt format is selected exactly by a value that
    spells LOGFMTLOGFMT in some letter case.  The plain name logfmt is
    not found, and the format falls back to the default one with a
    warning logged. *)
Theorem logformat_needs_the_long_name (v : string) (st : state) :
  (logformat (_init_logformat (Some v) st) = LOGFMTLOGFMT
   <-> toUpperCase v = "LOGFMTLOGFMT"%string) /\
  (toUpperCase v = "LOGFMT"%string ->
   _init_logformat (Some v) st
   = set_logformat LOGFMTDEFAULT
       (log "WARN" ("invalid logformat: " ++ v ++ " defaulting to LOGFMTDEFAULT")
            (log "INFO" "logformat: LOGFMT" st))).
Proof.
  unfold _init_logformat. split.
  - destruct (String.eqb_spec v "") as [->|Hne]; [by split|].
    rewrite <- logger_prop_is_logfmt.
    destruct (logger_prop (toUpperCase v)) as [[m|[]]|]; simpl;
      try (split; [discriminate | discriminate]); try by split.
    destruct (Z.eqb m 0); simpl; split; discriminate.
  - intros Hup. destruct (String.eqb_spec v "") as [->|_]; [discriminate|].
    by rewrite Hup.
Qed.

(** ** The log methods *)

Lemma obj_get_set (k v : string) (o : object) : obj_get k (obj_set k v o) = v.
Proof.
  unfold obj_get. induction o as [|e o IH]; simpl.
  - by rewrite String.eqb_refl.
  - destruct (String.eqb e.1 k) eqn:E; simpl.
    + by rewrite String.eqb_refl.
    + by rewrite E.
Qed.

Lemma obj_get_set_ne (k k' v : string) (o : object) :
  k <> k' -> obj_get k (obj_set k' v o) = obj_get k o.
Proof.
  intros Hne. unfold obj_get. induction o as [|e o IH]; simpl.
  - destruct (String.eqb_spec k' k) as [->|_]; [done | reflexivity].
  - destruct (String.eqb_spec e.1 k') as [He|He]; simpl.
    + destruct (String.eqb_spec k' k) as [->|_]; [done|].
      destruct (String.eqb_spec e.1 k) as [Hk|_]; [|reflexivity].
      by rewrite <- Hk, He in Hne.
    + destruct (String.eqb e.1 k); [reflexivity | exact IH].
Qed.

Lemma append_cons (c : Ascii.ascii) (a b : string) :
  (String c a ++ b = String c (a ++ b))%string.
Proof. reflexivity. Qed.

Lemma append_nil_r (a : string) : (a ++ "" = a)%string.
Proof.
  induction a as [|c a IH]; [reflexivity|]. by rewrite append_cons, IH.
Qed.

Lemma append_assoc (a b c : string) : ((a ++ b) ++ c = a ++ (b ++ c))%string.
Proof.
  induction a as [|x a IH]; [reflexivity|]. by rewrite !append_cons, IH.
Qed.

Lemma concat_empty_cons (x : string) (xs : list string) :
  String.concat "" (x :: xs) = (x ++ String.concat "" xs)%string.
Proof.
  destruct xs as [|y xs]; simpl; [|reflexivity]. by rewrite append_nil_r.
Qed.

Lemma add_values (stringify : list (string * string) -> string)
    (st : state) (texts : list string) (o : object) :
  obj_get "message" (foldl (add_arg stringify st) o (arg_value <$> texts))
  = (obj_get "message" o ++ String.concat "" texts)%string /\
  (forall k, k <> "message"%string ->
     obj_get k (foldl (add_arg stringify st) o (arg_value <$> texts)) = obj_get k o).
Proof.
  revert o. induction texts as [|t texts IH]; intros o.
  2: rewrite concat_empty_cons. all: simpl.
  - split; [|done]. by rewrite append_nil_r.
  - destruct (IH (obj_set "message" (obj_get "message" o ++ t) o)) as [Hm Hk].
    split.
    + etrans; [exact Hm|]. by rewrite obj_get_set, append_assoc.
    + intros k Hne. etrans; [exact (Hk k Hne)|]. by apply obj_get_set_ne.
Qed.

(** A log method called with values that are not objects, while the
    level passes and the format is not logfmt, logs one line: the level,
    a dash for the connection, the plugin name or core, and the values'
    texts joined with nothing between them.  It returns true. *)
Theorem value_args_default_line (stringify : list (string * string) -> string)
    (lv : level) (plugin : option string) (texts : list string) (st : state) :
  would_log (levels lv) st = true ->
  logformat st <> LOGFMTLOGFMT ->
  log_if_level stringify lv plugin (arg_value <$> texts) st
  = (Some true,
     log (level_name lv)
         ("[" ++ level_name lv ++ "] [-] [" ++ source_of plugin ++ "] "
          ++ String.concat "" texts) st).
Proof.
  unfold would_log, log_if_level. intros Hlog Hfmt.
  destruct (js_lt (loglevel st) (levels lv)); [discriminate|].
  set (o := [("level", level_name lv); ("connection_uuid", "-");
             ("source", source_of plugin); ("message", "")]).
  destruct (add_values stringify st texts o) as [Hm Hk].
  rewrite Hm, !Hk by discriminate.
  destruct (logformat st) as [n|[]]; try reflexivity.
  by destruct Hfmt.
Qed.

Lemma value_args_default_line_witness :
  log_if_level (fun _ => "") ERROR (Some "dkim") (arg_value <$> ["a"; "b"]) initial
  = (Some true, log "ERROR" "[ERROR] [-] [dkim] ab" initial).
Proof.
  apply (value_args_default_line (fun _ => "") ERROR (Some "dkim") ["a"; "b"] initial).
  - reflexivity.
  - discriminate.
Defined.

Lemma add_arg_keeps_level (stringify : list (string * string) -> string)
    (st : state) (o : object) (a : log_arg) :
  logformat st <> LOGFMTLOGFMT ->
  obj_get "level" (add_arg stringify st o a) = obj_get "level" o.
Proof.
  intros Hfmt. destruct a; simpl;
    repeat first [ reflexivity
                 | rewrite obj_get_set_ne by discriminate
                 | match goal with
                   | |- context [if ?b then _ else _] => destruct b
                   | |- context [match ?x with _ => _ end] => destruct x
                   end ].
  all: by destruct Hfmt.
Qed.

(** Outside the logfmt format no argument can change the level a line
    is labelled with: whatever is passed, the line starts with the
    method's own level in brackets, followed by a connection and a
    source in brackets, and the item logged carries the same level. *)
Theorem default_line_is_labelled (stringify : list (string * string) -> string)
    (lv : level) (plugin : option string) (args : list log_arg) (st : state) :
  would_log (levels lv) st = true ->
  logformat st <> LOGFMTLOGFMT ->
  exists uuid source message,
    log_if_level stringify lv plugin args st
    = (Some true,
       log (level_name lv)
           ("[" ++ level_name lv ++ "] [" ++ uuid ++ "] [" ++ source ++ "] "
            ++ message) st).
Proof.
  unfold would_log, log_if_level. intros Hlog Hfmt.
  destruct (js_lt (loglevel st) (levels lv)); [discriminate|].
  set (o := [("level", level_name lv); ("connection_uuid", "-");
             ("source", source_of plugin); ("message", "")]).
  assert (Hlv : obj_get "level" (foldl (add_arg stringify st) o args) = level_name lv).
  { change (level_name lv) with (obj_get "level" o). generalize o. clear o.
    induction args as [|a args IH]; intros o; simpl; [reflexivity|].
    rewrite IH. by apply add_arg_keeps_level. }
  rewrite Hlv.
  exists (obj_get "connection_uuid" (foldl (add_arg stringify st) o args)),
         (obj_get "source" (foldl (add_arg stringify st) o args)),
         (obj_get "message" (foldl (add_arg stringify st) o args)).
  destruct (logformat st) as [n|[]]; try reflexivity.
  by destruct Hfmt.
Qed.

Lemma default_line_is_labelled_witness :
  exists uuid source message,
    log_if_level (fun _ => "level=DATA") WARN None
                 [arg_plain [("level", "DATA")]; arg_connection "C1" 2] initial
    = (Some true,
       log "WARN" ("[WARN] [" ++ uuid ++ "] [" ++ source ++ "] " ++ message) initial).
Proof.
  apply (default_line_is_labelled (fun _ => "level=DATA") WARN None
           [arg_plain [("level", "DATA")]; arg_connection "C1" 2] initial).
  - reflexivity.
  - discriminate.
Defined.

(** ** Installing the methods *)

Lemma method_names_differ : NoDup (method_name <$> all_levels).
Proof. apply (bool_decide_unpack _). by vm_compute. Qed.

Lemma install_keeps_truthy (plugin : option string) (ls : list level)
    (o : gmap string prop) (k : string) :
  truthy (o !! k) = true ->
  foldl (fun o lv => if truthy (o !! method_name lv) then o
                     else <[method_name lv := prop_log lv plugin]> o) o ls !! k
  = o !! k.
Proof.
  revert o. induction ls as [|a ls IH]; intros o Hk; simpl; [reflexivity|].
  destruct (truthy (o !! method_name a)) eqn:Ha; [by apply IH|].
  assert (method_name a <> k) by (intros E; subst k; congruence).
  rewrite IH; by rewrite lookup_insert_ne.
Qed.

Lemma install_keeps_others (plugin : option string) (ls : list level)
    (o : gmap string prop) (k : string) :
  (forall lv, lv ∈ ls -> method_name lv <> k) ->
  foldl (fun o lv => if truthy (o !! method_name lv) then o
                     else <[method_name lv := prop_log lv plugin]> o) o ls !! k
  = o !! k.
Proof.
  revert o. induction ls as [|a ls IH]; intros o Hk; simpl; [reflexivity|].
  rewrite IH by (intros lv Hlv; apply Hk; by right).
  destruct (truthy (o !! method_name a)); [reflexivity|].
  apply lookup_insert_ne, Hk. by left.
Qed.

Lemma install_fresh (plugin : option string) (ls : list level)
    (o : gmap string prop) (lv : level) :
  NoDup (method_name <$> ls) -> lv ∈ ls ->
  truthy (o !! method_name lv) = false ->
  foldl (fun o lv => if truthy (o !! method_name lv) then o
                     else <[method_name lv := prop_log lv plugin]> o) o ls
    !! method_name lv
  = Some (prop_log lv plugin).
Proof.
  revert o. induction ls as [|a ls IH]; intros o Hnd Hin Hf; [by apply elem_of_nil in Hin|].
  rewrite fmap_cons in Hnd. apply NoDup_cons in Hnd as [Ha Hnd]. simpl.
  destruct (decide (method_name lv = method_name a)) as [Heq|Hne].
  - assert (lv = a) as ->.
    { apply elem_of_cons in Hin as [|Hin]; [done|].
      destruct Ha. rewrite <- Heq. by apply list_elem_of_fmap_2. }
    rewrite Hf. rewrite install_keeps_truthy; by rewrite lookup_insert_eq.
  - apply elem_of_cons in Hin as [->|Hin]; [done|].
    apply IH; [done | done |].
    destruct (truthy (o !! method_name a)); [done|].
    by rewrite lookup_insert_ne.
Qed.

Lemma install_nothing (plugin : option string) (ls : list level)
    (o : gmap string prop) :
  (forall lv, lv ∈ ls -> truthy (o !! method_name lv) = true) ->
  foldl (fun o lv => if truthy (o !! method_name lv) then o
                     else <[method_name lv := prop_log lv plugin]> o) o ls = o.
Proof.
  induction ls as [|a ls IH]; intros Hall; simpl; [reflexivity|].
  rewrite (Hall a) by by left. apply IH. intros lv Hlv. apply Hall. by right.
Qed.

Lemma all_levels_complete (lv : level) : lv ∈ all_levels.
Proof. destruct lv; vm_compute; set_solver. Qed.

Lemma install_lookup (plugin : option string) (o : gmap string prop) (lv : level) :
  foldl (fun o lv => if truthy (o !! method_name lv) then o
                     else <[method_name lv := prop_log lv plugin]> o) o all_levels
    !! method_name lv
  = if truthy (o !! method_name lv) then o !! method_name lv
    else Some (prop_log lv plugin).
Proof.
  destruct (truthy (o !! method_name lv)) eqn:Ht.
  - by apply install_keeps_truthy.
  - apply install_fresh;
      [apply method_names_differ | apply all_levels_complete | done].
Qed.

(** After [add_log_methods] the object has a method for every level.  A
    method name whose property was missing or falsy now holds the method
    of its level for the given plugin; a property that was truthy, and
    any property that is not a method name, is as before. *)
Theorem add_log_methods_installs (o : gmap string prop) (plugin : option string) :
  exists o', add_log_methods (Some o) plugin = Some o' /\
    (forall lv, o' !! method_name lv
                = if truthy (o !! method_name lv) then o !! method_name lv
                  else Some (prop_log lv plugin)) /\
    (forall k, truthy (o !! k) = true -> o' !! k = o !! k) /\
    (forall k, (forall lv, method_name lv <> k) -> o' !! k = o !! k).
Proof.
  eexists. split; [reflexivity|]. split; [|split].
  - intros lv. apply install_lookup.
  - intros k Hk. by apply install_keeps_truthy.
  - intros k Hk. apply install_keeps_others. intros lv _. apply Hk.
Qed.

(** Adding the methods a second time changes nothing, whatever plugin
    the second call names: the methods stay bound to the first plugin. *)
Theorem add_log_methods_once (o : option (gmap string prop))
    (plugin plugin' : option string) :
  add_log_methods (add_log_methods o plugin) plugin' = add_log_methods o plugin.
Proof.
  destruct o as [o|]; [|reflexivity].
  unfold add_log_methods. f_equal.
  apply install_nothing. intros lv _. rewrite install_lookup.
  by destruct (truthy (o !! method_name lv)) eqn:Ht.
Qed.

End LoggerFacts.
